(** * cmrv2: delivery-note extraction pipeline (src/app.js)

    A shallow embedding of the client-side pipeline of [src/app.js]:
    the field derivation engine ([parseAantal], [parseUnit],
    [deriveFields]), the dedupe store and its rehydration ([addNotes],
    [loadStoredRows]), the page task ([callExtractApi], [handlePage]),
    the bounded scheduler of [processQueue], the file queue
    ([handleFiles]), the order of the table ([renderTable]) and the
    exports ([formatCsvValue], [exportCsv], [copyTsv]); and of the
    request handler of [src/api/extract.js].

    Conventions.
    - A JavaScript string is a [string]; every [ascii] stands for one code
      unit below 256.
    - A JavaScript number that is not NaN is a [num]: a finite value, kept
      as a rational in lowest terms, or one of the two infinities.  NaN
      only ever appears as the result of [parseFloat], where it is
      [None].  [parseFloat] rounds the value of a decimal literal to
      binary64 ([binary64]); zero has no sign.  [Math.round] is exact on
      binary64 values, and so is halving unless it underflows, where
      [Math.round] gives zero either way; both are taken exactly.
    - [null] and [undefined] are [None].
    - A response body is a JSON [value], and the array under [notes] may
      hold any values.  [addNotes] is given twice: on notes whose fields
      are strings or absent ([addNotes]), and on the array as it was
      received ([addElements]), where reading an element can throw; a
      row keeps of its element the note that was read of it.
    - An array that is mutated in place ([warnings], [state.rows]) is
      threaded through the functions that push to it. *)

From Stdlib Require Import ZArith QArith Qround Qpower Qfield Qabs Lqa String Ascii
  DecimalString List Lia Bool.
From stdpp Require Import gmap strings list sorting.

Import ListNotations.
Local Open Scope string_scope.
Local Open Scope Z_scope.

(* stdpp keeps [simpl] from unfolding string concatenation; the proofs
   below compute with it. *)
#[local] Arguments String.append !s1 s2 : simpl nomatch.

(** ** Strings *)

(** The code units below 256 that [String.prototype.trim] and
    [parseFloat] treat as white space: TAB, LF, VT, FF, CR, SP, NBSP. *)
Definition is_white_space (c : ascii) : bool :=
  let n := nat_of_ascii c in
  ((9 <=? n) && (n <=? 13) || (n =? 32) || (n =? 160))%nat.

Fixpoint trimStart (s : string) : string :=
  match s with
  | String c r => if is_white_space c then trimStart r else s
  | EmptyString => EmptyString
  end.

Fixpoint trimEnd (s : string) : string :=
  match s with
  | String c r =>
      match trimEnd r with
      | EmptyString => if is_white_space c then EmptyString else String c EmptyString
      | r' => String c r'
      end
  | EmptyString => EmptyString
  end.

(** [s.trim()] *)
Definition trim (s : string) : string := trimEnd (trimStart s).

(** [s.replace(a, b)] with a one-character string pattern: only the first
    occurrence is replaced. *)
Fixpoint replace_first (a b : ascii) (s : string) : string :=
  match s with
  | String c r => if Ascii.eqb c a then String b r else String c (replace_first a b r)
  | EmptyString => EmptyString
  end.

(** [s.replace(/a/g, t)]: every occurrence of the character is replaced. *)
Fixpoint replace_all (a : ascii) (t : string) (s : string) : string :=
  match s with
  | String c r => if Ascii.eqb c a then t ++ replace_all a t r else String c (replace_all a t r)
  | EmptyString => EmptyString
  end.

(** [s.includes(c)] for a one-character string. *)
Fixpoint includes (c : ascii) (s : string) : bool :=
  match s with
  | String d r => Ascii.eqb d c || includes c r
  | EmptyString => false
  end.

(** A string is truthy when it is not empty. *)
Definition nonempty (s : string) : bool :=
  match s with EmptyString => false | _ => true end.

(** [x || ''] for a property that holds a string or is absent. *)
Definition or_empty (x : option string) : string :=
  match x with Some s => s | None => EmptyString end.

(** ** Numbers *)

Inductive num : Type :=
| Fin (q : Q)
| PosInfinity
| NegInfinity.

Definition num_of_Z (z : Z) : num := Fin (inject_Z z).

(** [x / 2] *)
Definition half (x : num) : num :=
  match x with
  | Fin q => Fin (Qred (q / 2)%Q)
  | inf => inf
  end.

(** [Math.round(x)]: the integer closest to [x], ties towards
    positive infinity; an infinity is returned unchanged. *)
Definition Math_round (x : num) : num :=
  match x with
  | Fin q => num_of_Z (Qfloor (q + (1 # 2))%Q)
  | inf => inf
  end.

(** *** binary64

    The Number closest to a rational: round to nearest, ties to even, of
    IEEE 754 binary64.  A finite Number other than zero is [m * 2 ^ e]
    with a significand [m] below [2 ^ 53] and [-1074 <= e <= 971]. *)

(** [2 ^ k] *)
Definition pow2 (k : Z) : Q :=
  if 0 <=? k then inject_Z (2 ^ k) else 1 # Z.to_pos (2 ^ (- k)).

(** The integer closest to [x], the even one of the two when [x] lies
    halfway between two integers. *)
Definition round_half_even (x : Q) : Z :=
  let f := Qfloor x in
  match (x - inject_Z f ?= 1 # 2)%Q with
  | Lt => f
  | Gt => f + 1
  | Eq => if Z.even f then f else f + 1
  end.

(** The [k] with [2 ^ k <= q < 2 ^ (k + 1)], for a positive [q]: by the
    lengths of numerator and denominator it is their difference or one
    less. *)
Definition floor_log2 (q : Q) : Z :=
  let k := Z.log2 (Qnum q) - Z.log2 (Zpos (Qden q)) in
  if Qle_bool (pow2 k) q then k else k - 1.

(** The exponent of the last place of the significand for a positive
    [q]: 52 places below the leading one, and [-1074] for the
    subnormals. *)
Definition last_place (q : Q) : Z := Z.max (floor_log2 q - 52) (-1074).

Definition negate (x : num) : num :=
  match x with
  | Fin q => Fin (- q)
  | PosInfinity => NegInfinity
  | NegInfinity => PosInfinity
  end.

(** The Number for a positive [q]: what rounds up to [2 ^ 1024] is
    Infinity. *)
Definition binary64_positive (q : Q) : num :=
  let e := last_place q in
  let r := (inject_Z (round_half_even (q / pow2 e)) * pow2 e)%Q in
  if Qle_bool (pow2 1024) r then PosInfinity else Fin (Qred r).

Definition binary64 (q : Q) : num :=
  let q := Qred q in
  match Qnum q with
  | 0 => Fin 0
  | Zpos _ => binary64_positive q
  | Zneg _ => negate (binary64_positive (- q))
  end.

(** *** parseFloat *)

Definition digit_value (c : ascii) : option Z :=
  let n := nat_of_ascii c in
  if ((48 <=? n) && (n <=? 57))%nat then Some (Z.of_nat n - 48) else None.

(** Reads the longest run of decimal digits: the value read on top of
    [acc], the number of digits read, and the rest of the string. *)
Fixpoint read_digits (s : string) (acc : Z) (count : nat) : Z * nat * string :=
  match s with
  | String c r =>
      match digit_value c with
      | Some d => read_digits r (10 * acc + d) (S count)
      | None => (acc, count, s)
      end
  | EmptyString => (acc, count, s)
  end.

(** An optional sign: whether it is a minus, and what follows it. *)
Definition strip_sign (s : string) : bool * string :=
  match s with
  | String c r =>
      if Ascii.eqb c "-" then (true, r)
      else if Ascii.eqb c "+" then (false, r)
      else (false, s)
  | EmptyString => (false, s)
  end.

(** ExponentPart, when one is there: [e] or [E], an optional sign and at
    least one digit.  Returns the exponent, [0] when there is none. *)
Definition read_exponent (s : string) : Z :=
  match s with
  | String c r =>
      if Ascii.eqb c "e" || Ascii.eqb c "E" then
        let '(neg, r') := strip_sign r in
        let '(e, n, _) := read_digits r' 0 0%nat in
        match n with
        | O => 0
        | S _ => if neg then - e else e
        end
      else 0
  | EmptyString => 0
  end.

(** The value [m * 10 ^ e] in lowest terms. *)
Definition decimal (m e : Z) : Q :=
  Qred (if 0 <=? e then inject_Z (m * 10 ^ e) else m # Z.to_pos (10 ^ (- e))).

(** The Number for the longest prefix of [s] that is a
    StrUnsignedDecimalLiteral, negated when [neg] is set: its value
    rounded to binary64; [None] (NaN) when no prefix is one. *)
Definition StrUnsignedDecimalLiteral_prefix (neg : bool) (s : string) : option num :=
  if String.prefix "Infinity" s then Some (if neg then NegInfinity else PosInfinity)
  else
    let '(ip, ni, s2) := read_digits s 0 0%nat in
    let '(m, nf, s3) :=
      match s2 with
      | String c r => if Ascii.eqb c "." then read_digits r ip 0%nat else (ip, 0%nat, s2)
      | EmptyString => (ip, 0%nat, s2)
      end in
    match ni, nf with
    | O, O => None
    | _, _ =>
        let q := decimal m (read_exponent s3 - Z.of_nat nf) in
        Some (binary64 (if neg then - q else q))
    end.

(** The same for a StrDecimalLiteral, which may start with a sign. *)
Definition StrDecimalLiteral_prefix (s : string) : option num :=
  let '(neg, s1) := strip_sign s in
  StrUnsignedDecimalLiteral_prefix neg s1.

(** [parseFloat(s)]; [None] is NaN. *)
Definition parseFloat (s : string) : option num :=
  StrDecimalLiteral_prefix (trimStart s).

(** [parseInt(s, 10)]: leading white space, an optional sign and the
    longest run of decimal digits; [None] is NaN. *)
Definition parseInt10 (s : string) : option Z :=
  let '(neg, s1) := strip_sign (trimStart s) in
  let '(v, n, _) := read_digits s1 0 0%nat in
  match n with O => None | S _ => Some (if neg then - v else v) end.

(** ** Field derivation engine *)

(** A raw note of the extraction response.  [datum], [aantal] and [unit]
    are strings or absent; the client reads nothing else of a note. *)
Module Note.
Record t : Type := mk {
  datum : option string;
  aantal : option string;
  unit : option string;
  confidence : option Q;
  warnings : option (list string)
}.
End Note.

(** [payloadMeta] of [handlePage]. *)
Module Meta.
Record t : Type := mk {
  fileName : string;
  fileIndex : nat;
  pageIndex : nat
}.
End Meta.

Module UnitInfo.
Record t : Type := mk {
  valid : bool;
  letter : string;
  digits : option Z
}.
End UnitInfo.

(** The object [deriveFields] returns. *)
Module Derived.
Record t : Type := mk {
  datum : string;
  aantal : string;
  unit : string;
  hoogte_enkel : option Z;
  hoogte_stack : option Z;
  aantal2 : option num;
  pallet : string;
  warnings : list string;
  duplicate : bool;
  fileName : string;
  pageIndex : nat
}.
End Derived.

(** [parseAantal(raw, warnings)]: the number, and [warnings] after the
    pushes. *)
Definition parseAantal (raw : string) (warnings : list string)
  : option num * list string :=
  if negb (nonempty raw) then (None, (warnings ++ ["Missing aantal."])%list)
  else
    let normalized := replace_first "," "." raw in
    match parseFloat normalized with
    | None => (None, (warnings ++ ["Aantal is not a number."])%list)
    | Some n => (Some n, warnings)
    end.

Definition is_upper (c : ascii) : bool :=
  let n := nat_of_ascii c in ((65 <=? n) && (n <=? 90))%nat.

Definition is_digit (c : ascii) : bool :=
  let n := nat_of_ascii c in ((48 <=? n) && (n <=? 57))%nat.

(** [/^[A-Z][0-9]{2}$/.test(raw)] *)
Definition unit_pattern_test (raw : string) : bool :=
  match raw with
  | String a (String b (String c EmptyString)) => is_upper a && is_digit b && is_digit c
  | _ => false
  end.

(** [raw ? raw[0] : ''] *)
Definition first_char (raw : string) : string :=
  match raw with
  | String a _ => String a EmptyString
  | EmptyString => EmptyString
  end.

(** [raw.slice(1)] *)
Definition slice1 (raw : string) : string :=
  match raw with
  | String _ r => r
  | EmptyString => EmptyString
  end.

(** [parseUnit(raw, warnings)] *)
Definition parseUnit (raw : string) (warnings : list string)
  : UnitInfo.t * list string :=
  let valid := unit_pattern_test raw in
  let warnings := if negb valid then (warnings ++ ["Unit format invalid."])%list else warnings in
  ({| UnitInfo.valid := valid;
      UnitInfo.letter := first_char raw;
      UnitInfo.digits := if valid then parseInt10 (slice1 raw) else None |},
   warnings).

(** [deriveFields(note, meta)].  [unitInfo.digits * 10] is taken on the
    value [parseInt] returned; it is a number whenever the unit is valid
    ([parseUnit_valid_digits]). *)
Definition deriveFields (note : Note.t) (meta : Meta.t) : Derived.t :=
  let warnings := [] in
  let safeDatum := trim (or_empty (Note.datum note)) in
  let rawAantal := trim (or_empty (Note.aantal note)) in
  let rawUnit := trim (or_empty (Note.unit note)) in
  let '(aantalNormalized, warnings) := parseAantal rawAantal warnings in
  let '(unitInfo, warnings) := parseUnit rawUnit warnings in
  let '(hoogte_enkel, warnings) :=
    if UnitInfo.valid unitInfo
    then (match UnitInfo.digits unitInfo with Some d => Some (d * 10) | None => None end,
          warnings)
    else (None, (warnings ++ ["Unit invalid; hoogte_enkel missing."])%list) in
  let hoogte_stack :=
    match hoogte_enkel with
    | Some h => Some (if h <=? 150 then h * 2 else h)
    | None => None
    end in
  let aantal2 :=
    match aantalNormalized with
    | Some a =>
        Some (match hoogte_enkel with
              | Some h => if h <=? 150 then Math_round (half a) else Math_round a
              | None => Math_round a
              end)
    | None => None
    end in
  let pallet := if String.eqb (UnitInfo.letter unitInfo) "M" then "BLOK" else "EURO" in
  {| Derived.datum := safeDatum;
     Derived.aantal := rawAantal;
     Derived.unit := rawUnit;
     Derived.hoogte_enkel := hoogte_enkel;
     Derived.hoogte_stack := hoogte_stack;
     Derived.aantal2 := aantal2;
     Derived.pallet := pallet;
     Derived.warnings := warnings;
     Derived.duplicate := false;
     Derived.fileName := Meta.fileName meta;
     Derived.pageIndex := Meta.pageIndex meta |}.

(** ** Result store, dedupe store and persisted state *)

(** A row of [state.rows]: [{ id, ...derived, raw, meta, noteIndex }].
    The spread copies the properties of [derived], none of which is
    called [id], [raw], [meta] or [noteIndex]. *)
Module Row.
Record t : Type := mk {
  id : nat;
  derived : Derived.t;
  raw : Note.t;
  meta : Meta.t;
  noteIndex : nat
}.
End Row.

(** The part of the page's state the pipeline reads and writes:
    [state.rows], [state.dedupe], the value stored under [STORAGE_KEY] in
    [localStorage] ([None] when the key is not set), the number of ids
    [uniqueId] has handed out (its results are taken to be fresh), and
    the messages [showToast] has shown. *)
Record State : Type := mkState {
  rows : list Row.t;
  dedupe : gset string;
  storage : option (list Row.t);
  nextId : nat;
  toasts : list string
}.

Definition showToast (message : string) (st : State) : State :=
  mkState (rows st) (dedupe st) (storage st) (nextId st) (toasts st ++ [message])%list.

(** [String(n)] for a page number. *)
Definition string_of_nat (n : nat) : string :=
  DecimalString.NilZero.string_of_uint (Nat.to_uint n).

(** The key [addNotes] computes from the note as it was received. *)
Definition noteKey (meta : Meta.t) (note : Note.t) : string :=
  Meta.fileName meta ++ "|" ++ string_of_nat (Meta.pageIndex meta) ++ "|"
  ++ or_empty (Note.datum note) ++ "|" ++ or_empty (Note.aantal note) ++ "|"
  ++ or_empty (Note.unit note).

(** The key [loadStoredRows] computes from a stored row: [r.datum],
    [r.aantal] and [r.unit] are the properties [deriveFields] wrote. *)
Definition rowKey (r : Row.t) : string :=
  let d := Row.derived r in
  Derived.fileName d ++ "|" ++ string_of_nat (Derived.pageIndex d) ++ "|"
  ++ Derived.datum d ++ "|" ++ Derived.aantal d ++ "|" ++ Derived.unit d.

(** What [JSON.parse(JSON.stringify(row))] gives back: an infinite
    [aantal2] is written as [null]; everything else survives. *)
Definition jsonRoundTrip (r : Row.t) : Row.t :=
  let d := Row.derived r in
  let a2 := match Derived.aantal2 d with Some (Fin q) => Some (Fin q) | _ => None end in
  Row.mk (Row.id r)
    (Derived.mk (Derived.datum d) (Derived.aantal d) (Derived.unit d)
       (Derived.hoogte_enkel d) (Derived.hoogte_stack d) a2 (Derived.pallet d)
       (Derived.warnings d) (Derived.duplicate d) (Derived.fileName d)
       (Derived.pageIndex d))
    (Row.raw r) (Row.meta r) (Row.noteIndex r).

(** [saveRows()]; the write to [localStorage] is taken to succeed. *)
Definition saveRows (st : State) : State :=
  mkState (rows st) (dedupe st) (Some (rows st)) (nextId st) (toasts st).

(** The callback of [notes.forEach] in [addNotes]. *)
Definition addNote (meta : Meta.t) (st : State) (idx : nat) (note : Note.t) : State :=
  let key := noteKey meta note in
  if decide (key ∈ dedupe st) then st
  else
    let derived := deriveFields note meta in
    let row := Row.mk (nextId st) derived note meta idx in
    mkState (rows st ++ [row])%list ({[ key ]} ∪ dedupe st) (storage st)
      (S (nextId st)) (toasts st).

Fixpoint forEach_addNote (meta : Meta.t) (notes : list Note.t) (idx : nat) (st : State)
  : State :=
  match notes with
  | note :: rest => forEach_addNote meta rest (S idx) (addNote meta st idx note)
  | [] => st
  end.

(** [addNotes(notes, meta)] *)
Definition addNotes (notes : list Note.t) (meta : Meta.t) (st : State) : State :=
  saveRows (forEach_addNote meta notes 0 st).

(** [loadStoredRows()] *)
Definition loadStoredRows (st : State) : State :=
  match storage st with
  | Some stored =>
      let rs := map jsonRoundTrip stored in
      mkState rs (foldl (fun d r => {[ rowKey r ]} ∪ d) (dedupe st) rs)
        (storage st) (nextId st) (toasts st)
  | None => st
  end.

(** The state of a freshly loaded page, before [init] runs, over what the
    browser kept: the stored value and the ids already in use. *)
Definition pageLoad (stored : option (list Row.t)) (ids : nat) : State :=
  mkState [] ∅ stored ids [].

(** Closing the page and opening it again: [init] calls
    [loadStoredRows]. *)
Definition restart (st : State) : State :=
  loadStoredRows (pageLoad (storage st) (nextId st)).

(** [clearAll()] *)
Definition clearAll (st : State) : State :=
  showToast "Cleared all rows and storage"
    (saveRows (mkState [] ∅ (storage st) (nextId st) (toasts st))).

(** ** Page task *)

(** A value [res.json()] can resolve to.  A number comes with the text
    [String] writes for it; Number::toString is not defined here. *)
#[warnings="-register-all"]
Inductive value : Type :=
| VNull
| VBool (b : bool)
| VNumber (q : Q) (text : string)
| VString (s : string)
| VArray (items : list value)
| VObject (props : list (string * value)).

(** The last binding of [k]: the one [JSON.parse] keeps. *)
Fixpoint lookup_prop (k : string) (props : list (string * value)) : option value :=
  match props with
  | (k', v) :: rest =>
      match lookup_prop k rest with
      | Some w => Some w
      | None => if String.eqb k' k then Some v else None
      end
  | [] => None
  end.

(** The result of an expression that can throw. *)
Inductive completion (A : Type) : Type :=
| Normal (a : A)
| Throw (error : string).
Arguments Normal {A} a.
Arguments Throw {A} error.

(** [data.notes]: [None] is [undefined]; reading a property of [null]
    throws. *)
Definition get_notes (data : value) : completion (option value) :=
  match data with
  | VNull => Throw "TypeError"
  | VObject props => Normal (lookup_prop "notes" props)
  | _ => Normal None
  end.

Definition truthy (v : option value) : bool :=
  match v with
  | None | Some VNull => false
  | Some (VBool b) => b
  | Some (VNumber q _) => negb (Qeq_bool q 0)
  | Some (VString s) => nonempty s
  | Some (VArray _) | Some (VObject _) => true
  end.

(** [x || []] *)
Definition or_empty_array (x : option value) : value :=
  match x with
  | Some v => if truthy x then v else VArray []
  | None => VArray []
  end.

(** [String(v)], as a template literal writes a value: an array is its
    elements joined by commas, [null] among them written as nothing. *)
Fixpoint ToString (v : value) : string :=
  match v with
  | VNull => "null"
  | VBool b => if b then "true" else "false"
  | VNumber _ text => text
  | VString s => s
  | VArray items =>
      (fix join (l : list value) : string :=
         match l with
         | x :: rest =>
             match x with VNull => EmptyString | _ => ToString x end
             ++ match rest with [] => EmptyString | _ :: _ => "," ++ join rest end
         | [] => EmptyString
         end) items
  | VObject _ => "[object Object]"
  end.

(** [note[k]] for an element [note] other than [null] and [k] one of the
    names the client reads: only an object has such a property. *)
Definition get_prop (k : string) (note : value) : option value :=
  match note with
  | VObject props => lookup_prop k props
  | _ => None
  end.

(** [`${x || ''}`] in the key. *)
Definition key_text (x : option value) : string :=
  match x with
  | Some v => if truthy x then ToString v else EmptyString
  | None => EmptyString
  end.

(** What [(x || '').trim()] is called on: a string, or [''] for any other
    falsy value, read as an absent field; [None] when [x] is truthy and
    no string, where [trim] is not a function. *)
Definition field_of (x : option value) : option (option string) :=
  match x with
  | Some (VString s) => Some (Some s)
  | _ => if truthy x then None else Some None
  end.

Fixpoint strings_of (l : list value) : option (list string) :=
  match l with
  | VString s :: rest => option_map (cons s) (strings_of rest)
  | [] => Some []
  | _ => None
  end.

(** The note [deriveFields] can read of an element other than [null]:
    its three fields, and its confidence and warnings when they are a
    number and an array of strings; [None] when one of the three fields
    has no [trim]. *)
Definition note_of (item : value) : option Note.t :=
  match field_of (get_prop "datum" item), field_of (get_prop "aantal" item),
        field_of (get_prop "unit" item) with
  | Some datum, Some aantal, Some unit =>
      Some (Note.mk datum aantal unit
              (match get_prop "confidence" item with
               | Some (VNumber q _) => Some q
               | _ => None
               end)
              (match get_prop "warnings" item with
               | Some (VArray l) => strings_of l
               | _ => None
               end))
  | _, _, _ => None
  end.

(** The callback of [notes.forEach] in [addNotes] on an element as it
    was received.  Reading [note.datum] of [null] throws.  The key is
    added before [deriveFields] runs, which throws on a field without
    [trim]; the row's [raw] keeps of the element what [note_of] reads. *)
Definition addElement (meta : Meta.t) (st : State) (idx : nat) (item : value)
  : completion unit * State :=
  match item with
  | VNull => (Throw "TypeError", st)
  | _ =>
      let key :=
        Meta.fileName meta ++ "|" ++ string_of_nat (Meta.pageIndex meta) ++ "|"
        ++ key_text (get_prop "datum" item) ++ "|" ++ key_text (get_prop "aantal" item)
        ++ "|" ++ key_text (get_prop "unit" item) in
      if decide (key ∈ dedupe st) then (Normal tt, st)
      else
        let added := {[ key ]} ∪ dedupe st in
        match note_of item with
        | Some note =>
            let derived := deriveFields note meta in
            let row := Row.mk (nextId st) derived note meta idx in
            (Normal tt,
             mkState (rows st ++ [row])%list added (storage st) (S (nextId st)) (toasts st))
        | None =>
            (Throw "TypeError",
             mkState (rows st) added (storage st) (nextId st) (toasts st))
        end
  end.

Fixpoint forEach_addElement (meta : Meta.t) (items : list value) (idx : nat) (st : State)
  : completion unit * State :=
  match items with
  | item :: rest =>
      match addElement meta st idx item with
      | (Normal _, st') => forEach_addElement meta rest (S idx) st'
      | (Throw e, st') => (Throw e, st')
      end
  | [] => (Normal tt, st)
  end.

(** [addNotes(notes, meta)] on the array as it was received: when a
    callback throws, [saveRows] is not reached.  On an array of notes it
    is [addNotes] ([addElements_notes]). *)
Definition addElements (items : list value) (meta : Meta.t) (st : State)
  : completion unit * State :=
  match forEach_addElement meta items 0 st with
  | (Normal _, st') => (Normal tt, saveRows st')
  | (Throw e, st') => (Throw e, st')
  end.

(** What [fetch] and [res.json()] do for one request: [fetch] rejects, or
    resolves to a response with its [ok] flag, its status and the value
    its body parses to ([None] when [res.json()] rejects). *)
Inductive response : Type :=
| FetchRejected
| Fetched (ok : bool) (status : nat) (body : option value).

(** [callExtractApi(imageBlob, meta)] *)
Definition callExtractApi (res : response) (st : State) : completion value * State :=
  let try_block : completion value * State :=
    match res with
    | FetchRejected => (Throw "TypeError", st)
    | Fetched false status _ =>
        (Throw ("API error " ++ string_of_nat status),
         showToast "API error while extracting. Retry allowed." st)
    | Fetched true _ None => (Throw "SyntaxError", st)
    | Fetched true _ (Some data) =>
        match get_notes data with
        | Normal notes => (Normal (or_empty_array notes), st)
        | Throw e => (Throw e, st)
        end
    end in
  match try_block with
  | (Throw err, st') => (Throw err, showToast "Network/API error. Please retry." st')
  | r => r
  end.

(** [handlePage(pdf, meta)]: [rendered] tells whether [renderPageToBlob]
    resolved.  The pointers of the status text are not part of [State]. *)
Definition handlePage (rendered : bool) (res : response) (payloadMeta : Meta.t)
    (st : State) : completion unit * State :=
  if rendered then
    match callExtractApi res st with
    | (Normal notes, st') =>
        match notes with
        | VArray l => addElements l payloadMeta st'
        | _ => (Normal tt, st')
        end
    | (Throw e, st') => (Throw e, st')
    end
  else (Throw "render", st).

(** ** CSV export *)

Definition quote : ascii := "034"%char.

(** [formatCsvValue(val)]: [None] is [null] or [undefined], [Some str] a
    value whose [String(val)] is [str]. *)
Definition formatCsvValue (val : option string) : string :=
  match val with
  | None => EmptyString
  | Some str =>
      if includes "," str || includes quote str
      then String quote (replace_all quote (String quote (String quote EmptyString)) str
                         ++ String quote EmptyString)
      else str
  end.

(** Modelled from the spec: the reader of an exported cell, which the
    repository does not have.  Inside the quotes a doubled quote stands
    for one quote and a single quote closes the cell; [None] when the
    quotes are not closed or text follows the closing quote. *)
Fixpoint unescapeQuoted (s : string) : option string :=
  match s with
  | String c r =>
      if Ascii.eqb c quote then
        match r with
        | String c' r' =>
            if Ascii.eqb c' quote then option_map (String quote) (unescapeQuoted r')
            else None
        | EmptyString => Some EmptyString
        end
      else option_map (String c) (unescapeQuoted r)
  | EmptyString => None
  end.

(** Modelled from the spec: a cell that starts with a quote is unquoted,
    any other cell is taken as it is. *)
Definition parseCsvCell (cell : string) : option string :=
  match cell with
  | String c r => if Ascii.eqb c quote then unescapeQuoted r else Some cell
  | EmptyString => Some EmptyString
  end.

(** One data line of [exportCsv]: [values] are the seven [r[h]] of a row,
    each as [formatCsvValue] takes it. *)
Definition csvLine (values : list (option string)) : string :=
  String.concat "," (map formatCsvValue values).

(** One data line of [copyTsv]: [(r[h] ?? '')] joined by tabs. *)
Definition tsvLine (values : list (option string)) : string :=
  String.concat (String "009"%char EmptyString) (map or_empty values).

(** Modelled from the spec: the reader of an exported line.  A cell that
    starts with a quote runs to its closing quote, a doubled quote inside
    standing for one quote; any other cell runs to the next comma. *)
Inductive csv_mode : Type :=
| FieldStart
| InPlain
| InQuoted
| QuoteSeen.

Fixpoint splitCsv (m : csv_mode) (cur : string) (s : string) : option (list string) :=
  match s with
  | EmptyString =>
      match m with
      | InQuoted => None
      | _ => Some [cur]
      end
  | String c r =>
      match m with
      | FieldStart =>
          if Ascii.eqb c quote then splitCsv InQuoted cur r
          else if Ascii.eqb c "," then option_map (cons cur) (splitCsv FieldStart EmptyString r)
          else splitCsv InPlain (cur ++ String c EmptyString) r
      | InPlain =>
          if Ascii.eqb c "," then option_map (cons cur) (splitCsv FieldStart EmptyString r)
          else if Ascii.eqb c quote then None
          else splitCsv InPlain (cur ++ String c EmptyString) r
      | InQuoted =>
          if Ascii.eqb c quote then splitCsv QuoteSeen cur r
          else splitCsv InQuoted (cur ++ String c EmptyString) r
      | QuoteSeen =>
          if Ascii.eqb c quote then splitCsv InQuoted (cur ++ String quote EmptyString) r
          else if Ascii.eqb c "," then option_map (cons cur) (splitCsv FieldStart EmptyString r)
          else None
      end
  end.

(** Modelled from the spec: the cells of an exported line. *)
Definition splitCsvLine (line : string) : option (list string) :=
  splitCsv FieldStart EmptyString line.

(** ** File queue *)

(** What [handleFiles] reads of a [File]. *)
Module File.
Record t : Type := mk {
  name : string;
  type : string
}.
End File.

(** [c.toLowerCase()] on a code unit below 256: the letters A to Z and
    the capital letters of Latin-1 (192 to 222, the multiplication sign
    215 apart) move up by 32. *)
Definition toLowerCase_char (c : ascii) : ascii :=
  let n := nat_of_ascii c in
  if ((65 <=? n) && (n <=? 90) || (192 <=? n) && (n <=? 222) && negb (n =? 215))%nat
  then ascii_of_nat (n + 32)
  else c.

Fixpoint toLowerCase (s : string) : string :=
  match s with
  | String c r => String (toLowerCase_char c) (toLowerCase r)
  | EmptyString => EmptyString
  end.

(** [s.endsWith(suffix)] *)
Fixpoint endsWith (suffix s : string) : bool :=
  String.eqb s suffix ||
  match s with
  | String _ r => endsWith suffix r
  | EmptyString => false
  end.

(** The filter of [handleFiles]. *)
Definition isPdf (f : File.t) : bool :=
  if String.eqb (File.type f) "application/pdf" then true
  else endsWith ".pdf" (toLowerCase (File.name f)).

(** What [handleFiles] reads and writes: [state.files], whether the
    extract button is disabled, the progress text and the messages
    [showToast] has shown. *)
Module Queue.
Record t : Type := mk {
  files : list File.t;
  extractDisabled : bool;
  progressText : string;
  toasts : list string
}.
End Queue.

(** [handleFiles(fileList)] *)
Definition handleFiles (fileList : list File.t) (q : Queue.t) : Queue.t :=
  let pdfs := List.filter isPdf fileList in
  match pdfs with
  | [] =>
      Queue.mk (Queue.files q) (Queue.extractDisabled q) (Queue.progressText q)
        (Queue.toasts q ++ ["Only PDF files are supported."])%list
  | _ =>
      let files := (Queue.files q ++ pdfs)%list in
      Queue.mk files false (string_of_nat (length files) ++ " file(s) ready.")
        (Queue.toasts q)
  end.

(** ** Extraction service ([src/api/extract.js]) *)

(** What the [catch] of [handler] reads of an error: [err?.response?.data]
    ([None] when there is none) and [err.message], empty when absent. *)
Module ServiceError.
Record t : Type := mk {
  response_data : option value;
  message : string
}.
End ServiceError.

(** What [parseMultipart(req)] does: it rejects, or resolves to the image
    buffer, [None] when no chunk of a file arrived, and the meta. *)
Inductive multipart : Type :=
| MultipartRejected (err : ServiceError.t)
| Multipart (imageBuffer : option string) (meta : value).

(** What [openai.responses.create] and the steps around it do once the
    image is there: something throws, or the call resolves to a response,
    of which [handler] reads [output], a list of items each with its
    [parsed], and [output_parsed]. *)
Inductive model_call : Type :=
| CallThrows (err : ServiceError.t)
| CallResolves (output : option (list (option value))) (output_parsed : option value).

(** What [handler] sends. *)
Module HttpResponse.
Record t : Type := mk {
  status : nat;
  allow : option string;
  body : value
}.
End HttpResponse.

Definition error_body (message : value) : value := VObject [("error", message)].

(** [err?.response?.data || err.message || 'Unknown error'] *)
Definition error_message (err : ServiceError.t) : value :=
  if truthy (ServiceError.response_data err)
  then match ServiceError.response_data err with Some d => d | None => VNull end
  else if nonempty (ServiceError.message err) then VString (ServiceError.message err)
  else VString "Unknown error".

(** [response.output?.[0]?.parsed] *)
Definition first_parsed (output : option (list (option value))) : option value :=
  match output with
  | Some (item :: _) => item
  | _ => None
  end.

(** [handler(req, res)]: [method] is [req.method], [apiKey] the
    environment variable. *)
Definition handler (method : string) (apiKey : option string) (parts : multipart)
    (call : model_call) : HttpResponse.t :=
  if negb (String.eqb method "POST")
  then HttpResponse.mk 405 (Some "POST") (error_body (VString "Method not allowed"))
  else if negb (nonempty (or_empty apiKey))
  then HttpResponse.mk 500 None (error_body (VString "Missing OPENAI_API_KEY"))
  else
    match parts with
    | MultipartRejected err => HttpResponse.mk 500 None (error_body (error_message err))
    | Multipart None _ => HttpResponse.mk 400 None (error_body (VString "Image is required"))
    | Multipart (Some _) meta =>
        match call with
        | CallThrows err => HttpResponse.mk 500 None (error_body (error_message err))
        | CallResolves output output_parsed =>
            let parsed :=
              if truthy (first_parsed output)
              then match first_parsed output with Some v => v | None => VNull end
              else if truthy output_parsed
              then match output_parsed with Some v => v | None => VNull end
              else VObject [] in
            match get_notes parsed with
            | Normal notes =>
                HttpResponse.mk 200 None
                  (VObject [("notes", or_empty_array notes); ("meta", meta)])
            | Throw e =>
                HttpResponse.mk 500 None (error_body (VString e))
            end
        end
    end.

(** What [fetch] and [res.json()] give the page for a response of the
    service: [res.ok] holds for the statuses 200 to 299. *)
Definition received (r : HttpResponse.t) : response :=
  Fetched ((200 <=? HttpResponse.status r)%nat && (HttpResponse.status r <=? 299)%nat)
    (HttpResponse.status r) (Some (HttpResponse.body r)).

(** ** Result table ([renderTable]) *)

(** The key the table is sorted by ([state.sortKey], set from the clicked
    header): the fields of a row that the table shows in a column of
    their own. *)
Inductive column : Type :=
| ColDatum
| ColAantal
| ColUnit
| ColHoogteEnkel
| ColHoogteStack
| ColAantal2
| ColPallet.

(** [x < y] on two numbers. *)
Definition num_ltb (x y : num) : bool :=
  match x, y with
  | Fin p, Fin q => match (p ?= q)%Q with Lt => true | _ => false end
  | NegInfinity, NegInfinity => false
  | NegInfinity, _ => true
  | Fin _, PosInfinity => true
  | _, _ => false
  end.

(** [va < vb] in a numeric column, where [va] and [vb] are numbers or,
    for [null], the empty string ([?? '']): two empty strings are compared
    as strings, and an empty string is compared with a number as 0. *)
Definition number_or_empty_ltb (x y : option num) : bool :=
  match x, y with
  | None, None => String.ltb EmptyString EmptyString
  | None, Some n => num_ltb (Fin 0) n
  | Some m, None => num_ltb m (Fin 0)
  | Some m, Some n => num_ltb m n
  end.

(** [va < vb] for the values of two rows in a column: strings are
    compared by their code units. *)
Definition row_ltb (c : column) (a b : Row.t) : bool :=
  let da := Row.derived a in
  let db := Row.derived b in
  match c with
  | ColDatum => String.ltb (Derived.datum da) (Derived.datum db)
  | ColAantal => String.ltb (Derived.aantal da) (Derived.aantal db)
  | ColUnit => String.ltb (Derived.unit da) (Derived.unit db)
  | ColPallet => String.ltb (Derived.pallet da) (Derived.pallet db)
  | ColHoogteEnkel =>
      number_or_empty_ltb (option_map num_of_Z (Derived.hoogte_enkel da))
        (option_map num_of_Z (Derived.hoogte_enkel db))
  | ColHoogteStack =>
      number_or_empty_ltb (option_map num_of_Z (Derived.hoogte_stack da))
        (option_map num_of_Z (Derived.hoogte_stack db))
  | ColAantal2 => number_or_empty_ltb (Derived.aantal2 da) (Derived.aantal2 db)
  end.

(** The comparator of [renderTable]; [asc] is [state.sortDir === 'asc']. *)
Definition compareRows (c : column) (asc : bool) (a b : Row.t) : Z :=
  if row_ltb c a b then (if asc then -1 else 1)
  else if row_ltb c b a then (if asc then 1 else -1)
  else 0.

(** [rows.sort(compare)] on a copy of the rows.  The sort is stable; for
    a comparator that orders the rows consistently, as [compareRows]
    does, the result is the one insertion gives. *)
Fixpoint insertRow (compare : Row.t -> Row.t -> Z) (x : Row.t) (l : list Row.t)
  : list Row.t :=
  match l with
  | y :: l' => if compare x y <=? 0 then x :: l else y :: insertRow compare x l'
  | [] => [x]
  end.

Definition sortRows (c : column) (asc : bool) (rows : list Row.t) : list Row.t :=
  foldr (insertRow (compareRows c asc)) [] rows.

(** ** Scheduler of [processQueue] *)

(** The argument of one [handlePage] call. *)
Module Task.
Record t : Type := mk {
  fileIndex : nat;
  pageIndex : nat;
  pageCount : nat
}.
End Task.

(** The [tasks] array: for file [i] with [numPages] pages, pages
    [1 .. numPages] in order, the files in the order of [state.files]. *)
Fixpoint buildTasks (i : nat) (numPages : list nat) : list Task.t :=
  match numPages with
  | n :: rest => (map (fun p => Task.mk i p n) (seq 1 n) ++ buildTasks (S i) rest)%list
  | [] => []
  end.

(** [state.totalPages] once the tasks are built. *)
Definition totalPages (numPages : list nat) : nat := foldr Nat.add 0%nat numPages.

Definition concurrency : nat := 2.

(** The variables of a run: [cursor] and [running] of the closure,
    [state.processedPages] and [state.inProgress].  [in_runNext] tells
    whether control is inside the loop of [runNext] or back in the event
    loop.  Two more fields observe the run without steering it: [started]
    lists the tasks called so far, in call order, and [pending] the
    positions of the tasks whose promise has not settled yet. *)
Module Run.
Record t : Type := mk {
  cursor : nat;
  running : nat;
  processedPages : nat;
  inProgress : bool;
  in_runNext : bool;
  started : list Task.t;
  pending : list nat;
  notices : list string
}.
End Run.

Section Scheduler.

Variable tasks : list Task.t.

(** The condition of the [while] loop of [runNext]. *)
Definition loop_condition (s : Run.t) : bool :=
  (Run.running s <? concurrency)%nat && (Run.cursor s <? length tasks)%nat.

(** A call of [runNext] up to its loop: either the run is complete and
    [runNext] returns at once, or control enters the loop. *)
Definition runNext (s : Run.t) : Run.t :=
  if (length tasks <=? Run.cursor s)%nat && (Run.running s =? 0)%nat
  then Run.mk (Run.cursor s) (Run.running s) (Run.processedPages s) false false
         (Run.started s) (Run.pending s) (Run.notices s)
  else Run.mk (Run.cursor s) (Run.running s) (Run.processedPages s) (Run.inProgress s)
         true (Run.started s) (Run.pending s) (Run.notices s).

(** One turn of the loop: [tasks[cursor]] is called. *)
Definition dispatch (s : Run.t) : Run.t :=
  match tasks !! Run.cursor s with
  | Some task =>
      Run.mk (S (Run.cursor s)) (S (Run.running s)) (Run.processedPages s)
        (Run.inProgress s) true (Run.started s ++ [task])%list
        (Run.pending s ++ [Run.cursor s])%list (Run.notices s)
  | None => s
  end.

(** The loop condition has failed: [runNext] returns. *)
Definition leave (s : Run.t) : Run.t :=
  Run.mk (Run.cursor s) (Run.running s) (Run.processedPages s) (Run.inProgress s)
    false (Run.started s) (Run.pending s) (Run.notices s).

(** The promise of the task at position [i] settles: the [catch]
    callback when it was rejected, then the [finally] callback up to
    its call of [runNext]. *)
Definition settle (i : nat) (fulfilled : bool) (s : Run.t) : Run.t :=
  Run.mk (Run.cursor s) (Run.running s - 1)%nat (S (Run.processedPages s))
    (Run.inProgress s) false (Run.started s)
    (filter (fun j => j <> i) (Run.pending s))
    (if fulfilled then Run.notices s
     else Run.notices s ++ ["Failed processing a page. You can retry."])%list.

(** The state in which [processQueue] calls [runNext] for the first
    time. *)
Definition initial : Run.t := Run.mk 0 0 0 true false [] [] [].

Definition start : Run.t := runNext initial.

(** What can happen next.  Inside [runNext] the loop turns or ends; in
    the event loop a pending task settles, in any order. *)
Inductive event : Type :=
| Turn
| Settle (i : nat) (fulfilled : bool).

Definition next (e : event) (s : Run.t) : option Run.t :=
  match e with
  | Turn =>
      if Run.in_runNext s
      then Some (if loop_condition s then dispatch s else leave s)
      else None
  | Settle i fulfilled =>
      if negb (Run.in_runNext s) && existsb (Nat.eqb i) (Run.pending s)
      then Some (runNext (settle i fulfilled s))
      else None
  end.

Definition step (s s' : Run.t) : Prop := exists e, next e s = Some s'.

(** The states a run goes through. *)
Inductive reachable : Run.t -> Prop :=
| reachable_start : reachable start
| reachable_step s s' : reachable s -> step s s' -> reachable s'.

(** The run is complete: [runNext] has taken its first branch. *)
Definition idle (s : Run.t) : Prop :=
  Run.inProgress s = false /\ Run.in_runNext s = false.

(** On every path from [s] the run becomes idle, and no path gets
    stuck before. *)
Inductive inevitably_idle : Run.t -> Prop :=
| idle_now s : idle s -> inevitably_idle s
| idle_later s :
    (exists s', step s s') ->
    (forall s', step s s' -> inevitably_idle s') ->
    inevitably_idle s.

(** Runs a list of events from [s]. *)
Fixpoint run (es : list event) (s : Run.t) : option Run.t :=
  match es with
  | e :: rest => match next e s with Some s' => run rest s' | None => None end
  | [] => Some s
  end.

End Scheduler.

(** ** Notions the properties are stated with *)

(** [r] is the integer closest to [x], the upper one of the two when [x]
    lies halfway between two integers. *)
Definition rounds_half_up (x : Q) (r : num) : Prop :=
  exists n : Z, r = Fin (inject_Z n) /\ (inject_Z n - (1 # 2) <= x < inject_Z n + (1 # 2))%Q.

(** The grammar of the strings [parseFloat] reads (StrDecimalLiteral of
    ECMAScript): an optional sign, then [Infinity], or decimal digits
    with an optional fraction, or a fraction alone, each with an optional
    exponent part. *)
Inductive DecimalDigits : string -> Prop :=
| digits_one c : is_digit c = true -> DecimalDigits (String c EmptyString)
| digits_more c s : is_digit c = true -> DecimalDigits s -> DecimalDigits (String c s).

Inductive Sign : string -> Prop :=
| sign_none : Sign EmptyString
| sign_plus : Sign "+"
| sign_minus : Sign "-".

Inductive ExponentPart : string -> Prop :=
| exponent_part e sign ds :
    e = "e"%char \/ e = "E"%char -> Sign sign -> DecimalDigits ds ->
    ExponentPart (String e (sign ++ ds)).

Inductive optional (P : string -> Prop) : string -> Prop :=
| absent : optional P EmptyString
| present s : P s -> optional P s.

Inductive StrUnsignedDecimalLiteral : string -> Prop :=
| literal_Infinity : StrUnsignedDecimalLiteral "Infinity"
| literal_point ip fp ex :
    DecimalDigits ip -> optional DecimalDigits fp -> optional ExponentPart ex ->
    StrUnsignedDecimalLiteral (ip ++ "." ++ fp ++ ex)
| literal_fraction fp ex :
    DecimalDigits fp -> optional ExponentPart ex ->
    StrUnsignedDecimalLiteral ("." ++ fp ++ ex)
| literal_integer ip ex :
    DecimalDigits ip -> optional ExponentPart ex ->
    StrUnsignedDecimalLiteral (ip ++ ex).

Inductive StrDecimalLiteral : string -> Prop :=
| literal_signed sign s :
    Sign sign -> StrUnsignedDecimalLiteral s -> StrDecimalLiteral (sign ++ s).

(** Some leading part of [s] is a StrDecimalLiteral. *)
Definition has_numeric_prefix (s : string) : Prop :=
  exists p rest, s = p ++ rest /\ StrDecimalLiteral p.

(** How a string with a numeric prefix starts, after the sign. *)
Definition starts_unsigned_literal (s : string) : bool :=
  String.prefix "Infinity" s ||
  match s with
  | String c r =>
      is_digit c ||
      (Ascii.eqb c "." && match r with String d _ => is_digit d | EmptyString => false end)
  | EmptyString => false
  end.

(** The characters a StrDecimalLiteral is written with. *)
Definition literal_char (c : ascii) : bool :=
  is_digit c || includes c "+-.eEInfity".

Fixpoint all_chars (f : ascii -> bool) (s : string) : bool :=
  match s with
  | String c r => f c && all_chars f r
  | EmptyString => true
  end.

(** [r] is a binary64 number: a significand below [2 ^ 53] in absolute
    value times a power of two between [2 ^ -1074] and [2 ^ 971]. *)
Definition is_binary64 (r : Q) : Prop :=
  exists m e : Z, Z.abs m < 2 ^ 53 /\ -1074 <= e <= 971 /\ (r == inject_Z m * 2 ^ e)%Q.

(** Halfway between the largest binary64 number and [2 ^ 1024]: from
    here on a number rounds to Infinity. *)
Definition overflow_threshold : Q := (2 ^ 1024 - 2 ^ 970)%Q.

(** [n] is [q] rounded to binary64: the binary64 number closest to [q],
    of two equally close ones the one that is an even multiple of their
    distance, and an infinity from the overflow threshold on. *)
Definition rounded_to_binary64 (q : Q) (n : num) : Prop :=
  match n with
  | Fin r =>
      is_binary64 r /\ (Qabs q < overflow_threshold)%Q /\
      (forall r', is_binary64 r' -> (Qabs (q - r) <= Qabs (q - r'))%Q) /\
      (forall r', is_binary64 r' -> ~ (r' == r)%Q -> (Qabs (q - r) == Qabs (q - r'))%Q ->
         exists k : Z, Z.even k = true /\ (r == inject_Z k * Qabs (r' - r))%Q)
  | PosInfinity => (overflow_threshold <= q)%Q
  | NegInfinity => (q <= - overflow_threshold)%Q
  end.

(** The number a run of decimal digits writes. *)
Fixpoint digits_value (ds : string) : Z :=
  match ds with
  | String c r =>
      (Z.of_nat (nat_of_ascii c) - 48) * 10 ^ Z.of_nat (String.length r) + digits_value r
  | EmptyString => 0
  end.

(** The value of the digits after the point. *)
Definition fraction_value (fp : string) : Q :=
  inject_Z (digits_value fp) / inject_Z (10 ^ Z.of_nat (String.length fp)).

(** The exponent an ExponentPart writes, and 0 for none. *)
Definition exponent_value (ex : string) : Z :=
  match ex with
  | String _ (String c ds as signed) =>
      if Ascii.eqb c "-" then - digits_value ds
      else if Ascii.eqb c "+" then digits_value ds
      else digits_value signed
  | _ => 0
  end.

(** The mathematical value of a StrUnsignedDecimalLiteral other than
    [Infinity] (MV of ECMAScript). *)
Inductive MV : string -> Q -> Prop :=
| MV_point ip fp ex :
    DecimalDigits ip -> optional DecimalDigits fp -> optional ExponentPart ex ->
    MV (ip ++ "." ++ fp ++ ex)
       ((inject_Z (digits_value ip) + fraction_value fp) * 10 ^ exponent_value ex)
| MV_fraction fp ex :
    DecimalDigits fp -> optional ExponentPart ex ->
    MV ("." ++ fp ++ ex) (fraction_value fp * 10 ^ exponent_value ex)
| MV_integer ip ex :
    DecimalDigits ip -> optional ExponentPart ex ->
    MV (ip ++ ex) (inject_Z (digits_value ip) * 10 ^ exponent_value ex).

(** The Number a StrDecimalLiteral stands for: its value rounded to
    binary64. *)
Inductive literal_number : string -> num -> Prop :=
| number_Infinity sign :
    Sign sign ->
    literal_number (sign ++ "Infinity")
      (if String.eqb sign "-" then NegInfinity else PosInfinity)
| number_decimal sign u v :
    Sign sign -> MV u v ->
    literal_number (sign ++ u) (binary64 (if String.eqb sign "-" then - v else v)).

(** [p] is the longest leading part of [s] that is a StrDecimalLiteral. *)
Definition longest_literal (p s : string) : Prop :=
  (exists rest, s = p ++ rest) /\ StrDecimalLiteral p /\
  forall p' rest', s = p' ++ rest' -> StrDecimalLiteral p' ->
    (String.length p' <= String.length p)%nat.

Definition starts_digit (s : string) : bool :=
  match s with
  | String c _ => is_digit c
  | EmptyString => false
  end.

(** The string starts with an ExponentPart. *)
Definition starts_exponent (s : string) : bool :=
  match s with
  | String c r => (Ascii.eqb c "e" || Ascii.eqb c "E") && starts_digit (snd (strip_sign r))
  | EmptyString => false
  end.

(** No leading part of [u ++ rest] that is a StrUnsignedDecimalLiteral is
    longer than [u]. *)
Definition no_longer (u rest : string) : Prop :=
  forall u' rest', u ++ rest = u' ++ rest' -> StrUnsignedDecimalLiteral u' ->
    (String.length u' <= String.length u)%nat.

(** The note the client reads of an element of the array, when it can
    read one: the element is not [null] and its three fields are strings
    or falsy. *)
Definition readable (item : value) : option Note.t :=
  match item with
  | VNull => None
  | _ => note_of item
  end.

(** The notes read of the elements of an array, one by one. *)
Definition notes_read (items : list value) (notes : list Note.t) : Prop :=
  Forall2 (fun item note => readable item = Some note) items notes.

(** The string is empty or starts with something else than white
    space. *)
Definition no_leading_white_space (s : string) : Prop :=
  match s with
  | String c _ => is_white_space c = false
  | EmptyString => True
  end.

(** The key of a row as [addNotes] computed it when the row was made:
    from the note and the meta the row keeps. *)
Definition rawKey (r : Row.t) : string := noteKey (Row.meta r) (Row.raw r).

(** No two rows share a key, and the dedupe store knows the key of every
    row. *)
Definition store_inv (st : State) : Prop :=
  NoDup (rawKey <$> rows st) /\ forall r, r ∈ rows st -> rawKey r ∈ dedupe st.

(** The three fields of the note carry no white space at either end. *)
Definition unpadded (note : Note.t) : Prop :=
  trim (or_empty (Note.datum note)) = or_empty (Note.datum note) /\
  trim (or_empty (Note.aantal note)) = or_empty (Note.aantal note) /\
  trim (or_empty (Note.unit note)) = or_empty (Note.unit note).

(** What holds of the variables of a run at every moment. *)
Record run_inv (tasks : list Task.t) (s : Run.t) : Prop := {
  inv_running : Run.running s = length (Run.pending s);
  inv_bound : (Run.running s <= concurrency)%nat;
  inv_cursor : (Run.cursor s <= length tasks)%nat;
  inv_started : Run.started s = take (Run.cursor s) tasks;
  inv_processed : (Run.processedPages s + Run.running s = Run.cursor s)%nat;
  inv_pending : NoDup (Run.pending s);
  inv_pending_lt : forall i, i ∈ Run.pending s -> (i < Run.cursor s)%nat;
  inv_done :
    Run.inProgress s = false ->
    Run.in_runNext s = false /\ Run.cursor s = length tasks /\ Run.running s = 0%nat;
  inv_busy :
    Run.inProgress s = true ->
    (Run.cursor s < length tasks)%nat \/ (0 < Run.running s)%nat;
  inv_waiting :
    Run.in_runNext s = false -> Run.inProgress s = true ->
    (0 < Run.running s)%nat /\
    (Run.running s = concurrency \/ Run.cursor s = length tasks)
}.

(** A bound on the number of steps a run can still take. *)
Definition steps_left (tasks : list Task.t) (s : Run.t) : nat :=
  2 * (length tasks - Run.cursor s) + 2 * (length tasks - Run.processedPages s)
  + (if Run.in_runNext s then 1 else 0).

(** The string starts, or ends, with white space. *)
Definition starts_with_white_space (s : string) : bool :=
  match s with
  | String c _ => is_white_space c
  | EmptyString => false
  end.

Fixpoint ends_with_white_space (s : string) : bool :=
  match s with
  | String c EmptyString => is_white_space c
  | String _ r => ends_with_white_space r
  | EmptyString => false
  end.

(** The note a derived record stands for: its date, quantity and unit as
    they were stored. *)
Definition note_of_derived (d : Derived.t) : Note.t :=
  Note.mk (Some (Derived.datum d)) (Some (Derived.aantal d)) (Some (Derived.unit d))
    None None.

(** What the operator can make the store do in a session: a page of
    notes arrives, or everything is cleared. *)
Inductive store_op : Type :=
| Admit (notes : list Note.t) (meta : Meta.t)
| Clear.

Definition apply_store_op (st : State) (o : store_op) : State :=
  match o with
  | Admit notes meta => addNotes notes meta st
  | Clear => clearAll st
  end.

(** The state after a sequence of operations. *)
Definition session (ops : list store_op) (st : State) : State :=
  foldl apply_store_op st ops.

Definition is_Admit (o : store_op) : bool :=
  match o with Admit _ _ => true | Clear => false end.

(** Two rows that differ at most in their adjusted quantity. *)
Definition same_but_aantal2 (r r' : Row.t) : Prop :=
  let d := Row.derived r in
  let d' := Row.derived r' in
  Row.id r' = Row.id r /\ Row.raw r' = Row.raw r /\ Row.meta r' = Row.meta r /\
  Row.noteIndex r' = Row.noteIndex r /\
  Derived.datum d' = Derived.datum d /\ Derived.aantal d' = Derived.aantal d /\
  Derived.unit d' = Derived.unit d /\
  Derived.hoogte_enkel d' = Derived.hoogte_enkel d /\
  Derived.hoogte_stack d' = Derived.hoogte_stack d /\
  Derived.pallet d' = Derived.pallet d /\ Derived.warnings d' = Derived.warnings d /\
  Derived.duplicate d' = Derived.duplicate d /\
  Derived.fileName d' = Derived.fileName d /\ Derived.pageIndex d' = Derived.pageIndex d.

(** The row was made by [addNotes] from a note without padding. *)
Definition faithful_row (r : Row.t) : Prop :=
  unpadded (Row.raw r) /\ Row.derived r = deriveFields (Row.raw r) (Row.meta r).

(** The order of the pages of the queue: by file, then by page. *)
Definition task_before (t u : Task.t) : Prop :=
  (Task.fileIndex t < Task.fileIndex u)%nat \/
  (Task.fileIndex t = Task.fileIndex u /\ (Task.pageIndex t < Task.pageIndex u)%nat).

(** The number of tasks that settle in a list of events, and of those
    that are rejected. *)
Fixpoint settled (es : list event) : nat :=
  match es with
  | Settle _ _ :: rest => S (settled rest)
  | Turn :: rest => settled rest
  | [] => 0
  end.

Fixpoint rejected (es : list event) : nat :=
  match es with
  | Settle _ false :: rest => S (rejected rest)
  | _ :: rest => rejected rest
  | [] => 0
  end.

(** What is left of a line after a cell: nothing, or a comma and more. *)
Definition after_cell (cur : string) (rest : string) : option (list string) :=
  match rest with
  | EmptyString => Some [cur]
  | String _ more => option_map (cons cur) (splitCsv FieldStart EmptyString more)
  end.

Definition line_feed : ascii := "010"%char.

Definition tab : ascii := "009"%char.

(** How often a character occurs in a string, and in the values of a
    row, [null] counting as the empty string. *)
Fixpoint count_char (c : ascii) (s : string) : nat :=
  match s with
  | String d r => ((if Ascii.eqb d c then 1 else 0) + count_char c r)%nat
  | EmptyString => 0
  end.

Fixpoint count_in_values (c : ascii) (values : list (option string)) : nat :=
  match values with
  | v :: rest => (count_char c (or_empty v) + count_in_values c rest)%nat
  | [] => 0
  end.

(** [x < y] on two numbers, as a proposition. *)
Definition num_lt (x y : num) : Prop :=
  match x, y with
  | Fin p, Fin q => (p < q)%Q
  | NegInfinity, NegInfinity => False
  | NegInfinity, _ => True
  | Fin _, PosInfinity => True
  | _, _ => False
  end.

(** What a consistent comparator needs of [<]: of two things at most one
    is below the other, and a thing not below a second that is not below
    a third is not below the third. *)
Definition strict_weak {A : Type} (ltb : A -> A -> bool) : Prop :=
  (forall a b, ltb a b = true -> ltb b a = false) /\
  (forall a b c, ltb b a = false -> ltb c b = false -> ltb c a = false).

(** The number a value of a numeric column is compared as. *)
Definition compared_as (x : option num) : num := default (Fin 0) x.

(** ** Sample inputs

    The samples of [runDerivedFieldTests] and their [meta]. *)
Definition sample (unit aantal : string) : Note.t :=
  Note.mk (Some "01-01-2024") (Some aantal) (Some unit) None None.
Definition E28_10 : Note.t := sample "E28" "10".
Definition E15_9 : Note.t := sample "E15" "9".
Definition E20_12_5 : Note.t := sample "E20" "12,5".
Definition M15_8 : Note.t := sample "M15" "8".
Definition E2X_7 : Note.t := sample "E2X" "7".
Definition test_pdf : Meta.t := Meta.mk "test.pdf" 0 1.

(** Two files, of two pages and of one page, and a run over them in which
    the second page fails first. *)
Definition three_pages : list Task.t := buildTasks 0 [2; 1]%nat.
Definition second_page_fails_first : list event :=
  [Turn; Turn; Turn; Settle 1 false; Turn; Turn; Settle 0 true; Turn; Settle 2 true].

(** A response whose [notes] is a string. *)
Definition notes_as_text : value := VObject [("notes", VString "none found")].

(** A selection of three files, one of them no PDF. *)
Definition mixed_selection : list File.t :=
  [File.mk "a.PDF" EmptyString; File.mk "notes.txt" "text/plain";
   File.mk "scan" "application/pdf"].

(** The same note with its date absent and with an empty date. *)
Definition date_absent : Note.t := Note.mk None (Some "9") (Some "E15") None None.
Definition date_empty : Note.t :=
  Note.mk (Some EmptyString) (Some "9") (Some "E15") None None.

(** A note whose date came back with a leading space. *)
Definition padded_note : Note.t :=
  Note.mk (Some " 01-01-2024") (Some "10") (Some "E28") None None.

(** * Properties *)

(** ** Strings *)

Lemma append_assoc (a b c : string) : (a ++ b) ++ c = a ++ b ++ c.
Proof. induction a as [|x a IH]; simpl; [reflexivity | rewrite IH; reflexivity]. Qed.

Lemma append_length (a b : string) :
  String.length (a ++ b) = (String.length a + String.length b)%nat.
Proof. induction a as [|x a IH]; simpl; [reflexivity | rewrite IH; reflexivity]. Qed.

Lemma append_empty_r (s : string) : s ++ EmptyString = s.
Proof. induction s as [|c s IH]; simpl; [reflexivity | rewrite IH; reflexivity]. Qed.

(** ** Unit parsing *)

Lemma is_digit_value (c : ascii) :
  is_digit c = true -> digit_value c = Some (Z.of_nat (nat_of_ascii c) - 48).
Proof. unfold is_digit, digit_value. intros ->. reflexivity. Qed.

Lemma is_digit_not_white_space (c : ascii) :
  is_digit c = true -> is_white_space c = false.
Proof.
  unfold is_digit, is_white_space.
  generalize (nat_of_ascii c). intros n H.
  apply andb_true_iff in H as [H1 H2].
  apply Nat.leb_le in H1. apply Nat.leb_le in H2.
  repeat (apply orb_false_iff; split).
  - apply andb_false_iff. right. apply Nat.leb_gt. lia.
  - apply Nat.eqb_neq. lia.
  - apply Nat.eqb_neq. lia.
Qed.

Lemma is_digit_strip_sign (c : ascii) (r : string) :
  is_digit c = true -> strip_sign (String c r) = (false, String c r).
Proof.
  intros H. unfold strip_sign.
  destruct (Ascii.eqb_spec c "-") as [-> | _]; [discriminate H|].
  destruct (Ascii.eqb_spec c "+") as [-> | _]; [discriminate H|].
  reflexivity.
Qed.

Lemma unit_pattern_test_iff (raw : string) :
  unit_pattern_test raw = true <->
  exists a b c, raw = String a (String b (String c EmptyString)) /\
                is_upper a = true /\ is_digit b = true /\ is_digit c = true.
Proof.
  split.
  - destruct raw as [|a [|b [|c [|]]]]; simpl; try discriminate.
    intros H. apply andb_true_iff in H as [H Hc]. apply andb_true_iff in H as [Ha Hb].
    exists a, b, c. auto.
  - intros (a & b & c & -> & Ha & Hb & Hc). simpl. rewrite Ha, Hb, Hc. reflexivity.
Qed.

(** [parseInt] on the two digits of a valid unit. *)
Lemma parseInt10_two_digits (b c : ascii) :
  is_digit b = true -> is_digit c = true ->
  parseInt10 (String b (String c EmptyString)) =
  Some (10 * (Z.of_nat (nat_of_ascii b) - 48) + (Z.of_nat (nat_of_ascii c) - 48)).
Proof.
  intros Hb Hc. unfold parseInt10. simpl trimStart.
  rewrite (is_digit_not_white_space b Hb).
  rewrite (is_digit_strip_sign b _ Hb).
  simpl. rewrite (is_digit_value b Hb), (is_digit_value c Hc).
  f_equal; lia.
Qed.

(** A valid unit always has a number for its digits, between 0 and 99. *)
Lemma parseUnit_valid_digits (raw : string) (ws : list string) :
  UnitInfo.valid (fst (parseUnit raw ws)) = true ->
  exists d, UnitInfo.digits (fst (parseUnit raw ws)) = Some d /\ 0 <= d <= 99.
Proof.
  simpl. intros H. rewrite H.
  apply unit_pattern_test_iff in H as (a & b & c & -> & _ & Hb & Hc).
  simpl slice1. rewrite (parseInt10_two_digits b c Hb Hc).
  eexists. split; [reflexivity|].
  unfold is_digit in Hb, Hc.
  apply andb_true_iff in Hb as [Hb1 Hb2]. apply andb_true_iff in Hc as [Hc1 Hc2].
  apply Nat.leb_le in Hb1, Hb2, Hc1, Hc2. lia.
Qed.



(** ** Derived fields *)

(** [deriveFields] with its intermediate results named. *)
Lemma deriveFields_unfold (note : Note.t) (meta : Meta.t) :
  let quantity := parseAantal (trim (or_empty (Note.aantal note))) [] in
  let unit := parseUnit (trim (or_empty (Note.unit note))) (snd quantity) in
  let hoogte_enkel :=
    if UnitInfo.valid (fst unit)
    then match UnitInfo.digits (fst unit) with Some d => Some (d * 10) | None => None end
    else None in
  deriveFields note meta =
  {| Derived.datum := trim (or_empty (Note.datum note));
     Derived.aantal := trim (or_empty (Note.aantal note));
     Derived.unit := trim (or_empty (Note.unit note));
     Derived.hoogte_enkel := hoogte_enkel;
     Derived.hoogte_stack :=
       match hoogte_enkel with
       | Some h => Some (if h <=? 150 then h * 2 else h)
       | None => None
       end;
     Derived.aantal2 :=
       match fst quantity with
       | Some a =>
           Some (match hoogte_enkel with
                 | Some h => if h <=? 150 then Math_round (half a) else Math_round a
                 | None => Math_round a
                 end)
       | None => None
       end;
     Derived.pallet :=
       if String.eqb (UnitInfo.letter (fst unit)) "M" then "BLOK" else "EURO";
     Derived.warnings :=
       if UnitInfo.valid (fst unit) then snd unit
       else (snd unit ++ ["Unit invalid; hoogte_enkel missing."])%list;
     Derived.duplicate := false;
     Derived.fileName := Meta.fileName meta;
     Derived.pageIndex := Meta.pageIndex meta |}.
Proof.
  unfold deriveFields.
  destruct (parseAantal (trim (or_empty (Note.aantal note))) []) as [a ws1].
  cbn [fst snd].
  destruct (parseUnit (trim (or_empty (Note.unit note))) ws1) as [info ws2].
  cbn [fst snd].
  destruct (UnitInfo.valid info); reflexivity.
Qed.

(** The samples of [runDerivedFieldTests], and what the spec lists for
    them. *)
Lemma runDerivedFieldTests_samples :
  deriveFields E28_10 test_pdf =
    Derived.mk "01-01-2024" "10" "E28" (Some 280) (Some 280) (Some (Fin 10)) "EURO"
      [] false "test.pdf" 1 /\
  deriveFields E15_9 test_pdf =
    Derived.mk "01-01-2024" "9" "E15" (Some 150) (Some 300) (Some (Fin 5)) "EURO"
      [] false "test.pdf" 1 /\
  deriveFields E20_12_5 test_pdf =
    Derived.mk "01-01-2024" "12,5" "E20" (Some 200) (Some 200) (Some (Fin 13)) "EURO"
      [] false "test.pdf" 1 /\
  deriveFields M15_8 test_pdf =
    Derived.mk "01-01-2024" "8" "M15" (Some 150) (Some 300) (Some (Fin 4)) "BLOK"
      [] false "test.pdf" 1 /\
  deriveFields E2X_7 test_pdf =
    Derived.mk "01-01-2024" "7" "E2X" None None (Some (Fin 7)) "EURO"
      ["Unit format invalid."; "Unit invalid; hoogte_enkel missing."] false "test.pdf" 1.
Proof. repeat split; reflexivity. Qed.

(** C4.  For every note: when the unit is valid the single height is its
    digits times 10 and no further warning is pushed; when it is invalid
    the single height is none and "Unit invalid; hoogte_enkel missing."
    is pushed after the warnings of the unit.  The stacked height is none
    when the single height is none, twice the single height when that is
    at most 150, and the single height itself when it is above 150. *)
Theorem heights_from_unit (note : Note.t) (meta : Meta.t) :
  let d := deriveFields note meta in
  let quantity := parseAantal (trim (or_empty (Note.aantal note))) [] in
  let unit := parseUnit (trim (or_empty (Note.unit note))) (snd quantity) in
  (UnitInfo.valid (fst unit) = true ->
   exists digits,
     UnitInfo.digits (fst unit) = Some digits /\
     Derived.hoogte_enkel d = Some (digits * 10) /\
     Derived.warnings d = snd unit) /\
  (UnitInfo.valid (fst unit) = false ->
   Derived.hoogte_enkel d = None /\
   Derived.warnings d = (snd unit ++ ["Unit invalid; hoogte_enkel missing."])%list) /\
  (Derived.hoogte_enkel d = None -> Derived.hoogte_stack d = None) /\
  (forall h, Derived.hoogte_enkel d = Some h -> h <= 150 ->
             Derived.hoogte_stack d = Some (h * 2)) /\
  (forall h, Derived.hoogte_enkel d = Some h -> 150 < h ->
             Derived.hoogte_stack d = Some h).
Proof.
  intros d quantity unit. subst d. rewrite deriveFields_unfold.
  fold quantity. fold unit. cbn [Derived.hoogte_enkel Derived.hoogte_stack Derived.warnings].
  repeat split.
  - intros Hv.
    destruct (parseUnit_valid_digits _ _ Hv) as (dg & Hd & _).
    fold unit in Hd. exists dg. rewrite Hv, Hd. auto.
  - rewrite H. reflexivity.
  - rewrite H. reflexivity.
  - intros ->. reflexivity.
  - intros h -> Hle. apply Z.leb_le in Hle. rewrite Hle. reflexivity.
  - intros h -> Hlt. apply Z.leb_gt in Hlt. rewrite Hlt. reflexivity.
Qed.

Lemma heights_from_unit_witness :
  Derived.hoogte_stack (deriveFields E15_9 test_pdf) = Some 300 /\
  Derived.hoogte_enkel (deriveFields E2X_7 test_pdf) = None.
Proof.
  split.
  - apply (proj1 (proj2 (proj2 (proj2 (heights_from_unit E15_9 test_pdf)))) 150);
      [reflexivity | lia].
  - apply (proj1 (proj2 (heights_from_unit E2X_7 test_pdf))). reflexivity.
Defined.

Lemma Math_round_half_up (q : Q) : rounds_half_up q (Math_round (Fin q)).
Proof.
  exists (Qfloor (q + (1 # 2))). split; [reflexivity|].
  pose proof (Qfloor_le (q + (1 # 2))) as Hle.
  pose proof (Qlt_floor (q + (1 # 2))) as Hlt.
  rewrite inject_Z_plus in Hlt. change (inject_Z 1) with 1%Q in Hlt.
  split; lra.
Qed.

Lemma Math_round_half_half_up (q : Q) : rounds_half_up (q / 2) (Math_round (half (Fin q))).
Proof.
  destruct (Math_round_half_up (Qred (q / 2))) as (n & Hn & Hb).
  exists n. split; [exact Hn|].
  rewrite (Qred_correct (q / 2)) in Hb. exact Hb.
Qed.

(** C3.  For every note: the adjusted quantity is none when the parsed
    quantity is none.  Otherwise, when the single height is known and at
    most 150 it is [Math.round] of half the quantity, and in every other
    case (single height none, or above 150) [Math.round] of the quantity
    itself; on a finite quantity [Math.round] gives the closest integer,
    halves going up, and an infinite quantity stays as it is. *)
Theorem aantal2_half_up_rounding (note : Note.t) (meta : Meta.t) :
  let d := deriveFields note meta in
  let quantity := fst (parseAantal (trim (or_empty (Note.aantal note))) []) in
  (quantity = None -> Derived.aantal2 d = None) /\
  (forall a h, quantity = Some a -> Derived.hoogte_enkel d = Some h -> h <= 150 ->
     Derived.aantal2 d = Some (Math_round (half a)) /\
     match a with
     | Fin q => rounds_half_up (q / 2) (Math_round (half a))
     | inf => Math_round (half a) = inf
     end) /\
  (forall a, quantity = Some a ->
     (Derived.hoogte_enkel d = None \/
      exists h, Derived.hoogte_enkel d = Some h /\ 150 < h) ->
     Derived.aantal2 d = Some (Math_round a) /\
     match a with
     | Fin q => rounds_half_up q (Math_round a)
     | inf => Math_round a = inf
     end).
Proof.
  intros d quantity. subst d. rewrite deriveFields_unfold.
  fold quantity. cbn [Derived.hoogte_enkel Derived.aantal2].
  set (enkel := if UnitInfo.valid _ then _ else None).
  repeat split.
  - intros ->. reflexivity.
  - rewrite H, H0. apply Z.leb_le in H1. rewrite H1. reflexivity.
  - destruct a; [apply Math_round_half_half_up | reflexivity | reflexivity].
  - rewrite H. destruct H0 as [-> | (h & -> & Hlt)]; [reflexivity|].
    apply Z.leb_gt in Hlt. rewrite Hlt. reflexivity.
  - destruct a; [apply Math_round_half_up | reflexivity | reflexivity].
Qed.

Lemma aantal2_half_up_rounding_witness :
  Derived.aantal2 (deriveFields E15_9 test_pdf) = Some (Fin 5) /\
  Derived.aantal2 (deriveFields E2X_7 test_pdf) = Some (Fin 7).
Proof.
  split.
  - apply (proj1 (proj2 (aantal2_half_up_rounding E15_9 test_pdf)) (Fin 9) 150);
      [reflexivity | reflexivity | lia].
  - apply (proj2 (proj2 (aantal2_half_up_rounding E2X_7 test_pdf)) (Fin 7));
      [reflexivity | left; reflexivity].
Defined.

(** C6.  For every note: the unit letter is the first character of the
    trimmed unit string, the empty string when that is empty, whether or
    not the unit is valid; the pallet is "BLOK" exactly when the letter is
    "M" and "EURO" for every other letter, the empty one included. *)
Theorem pallet_from_unit_letter (note : Note.t) (meta : Meta.t) (ws : list string) :
  let raw := trim (or_empty (Note.unit note)) in
  let letter := UnitInfo.letter (fst (parseUnit raw ws)) in
  let d := deriveFields note meta in
  letter = match raw with
           | String c _ => String c EmptyString
           | EmptyString => EmptyString
           end /\
  (Derived.pallet d = "BLOK" <-> letter = "M") /\
  (Derived.pallet d = "EURO" <-> letter <> "M").
Proof.
  intros raw letter d. subst d letter. rewrite deriveFields_unfold.
  cbn [Derived.pallet parseUnit fst UnitInfo.letter]. fold raw.
  split; [reflexivity|].
  destruct (String.eqb_spec (first_char raw) "M") as [-> | Hne].
  - split; split; try reflexivity; try discriminate. intros H. contradiction.
  - split; split; try discriminate; try contradiction; auto.
Qed.

Lemma pallet_from_unit_letter_witness :
  Derived.pallet (deriveFields M15_8 test_pdf) = "BLOK" /\
  Derived.pallet (deriveFields E2X_7 test_pdf) = "EURO".
Proof.
  split.
  - apply (proj1 (proj2 (pallet_from_unit_letter M15_8 test_pdf []))). reflexivity.
  - apply (proj2 (proj2 (pallet_from_unit_letter E2X_7 test_pdf []))). discriminate.
Defined.

(** ** Quantity parsing *)

Lemma is_digit_false_value (c : ascii) : is_digit c = false -> digit_value c = None.
Proof. unfold is_digit, digit_value. intros ->. reflexivity. Qed.

Lemma read_digits_count (s : string) (acc : Z) (n : nat) :
  (n <= snd (fst (read_digits s acc n)))%nat.
Proof.
  revert acc n. induction s as [|c r IH]; intros acc n; simpl; [lia|].
  destruct (digit_value c); simpl; [|lia].
  specialize (IH (10 * acc + z) (S n)). lia.
Qed.

Lemma read_digits_digit (c : ascii) (r : string) (acc : Z) :
  is_digit c = true ->
  exists v k rest, read_digits (String c r) acc 0 = (v, S k, rest).
Proof.
  intros H. simpl. rewrite (is_digit_value c H).
  pose proof (read_digits_count r (10 * acc + (Z.of_nat (nat_of_ascii c) - 48)) 1) as Hc.
  destruct (read_digits r _ 1) as [[v k] rest]. simpl in Hc.
  destruct k as [|k]; [lia|]. eauto.
Qed.

Lemma read_digits_no_digit (s : string) (acc : Z) :
  match s with String c _ => is_digit c = false | EmptyString => True end ->
  read_digits s acc 0 = (acc, 0%nat, s).
Proof.
  destruct s as [|c r]; simpl; [reflexivity|].
  intros H. rewrite (is_digit_false_value c H). reflexivity.
Qed.

(** The scanner answers NaN exactly on the strings that do not start like
    a literal. *)
Lemma StrUnsignedDecimalLiteral_prefix_None (neg : bool) (s : string) :
  StrUnsignedDecimalLiteral_prefix neg s = None <-> starts_unsigned_literal s = false.
Proof.
  unfold StrUnsignedDecimalLiteral_prefix, starts_unsigned_literal.
  destruct (String.prefix "Infinity" s).
  { simpl. split; discriminate. }
  simpl.
  destruct s as [|c r].
  { simpl. tauto. }
  destruct (is_digit c) eqn:Hc.
  - destruct (read_digits_digit c r 0 Hc) as (v & k & rest & ->).
    simpl. destruct rest as [|c' r']; [split; discriminate|].
    destruct (Ascii.eqb c' ".").
    + destruct (read_digits r' v 0) as [[m nf] s3]. split; discriminate.
    + split; discriminate.
  - rewrite (read_digits_no_digit (String c r) 0 Hc). simpl.
    destruct (Ascii.eqb c "."); simpl; [|tauto].
    destruct r as [|d r']; [simpl; tauto|].
    destruct (is_digit d) eqn:Hd.
    + destruct (read_digits_digit d r' 0 Hd) as (v & k & rest & ->). split; discriminate.
    + rewrite (read_digits_no_digit (String d r') 0 Hd). tauto.
Qed.

Lemma prefix_split (p s : string) : String.prefix p s = true -> exists r, s = p ++ r.
Proof.
  revert s. induction p as [|a p IH]; intros s H.
  - exists s. reflexivity.
  - destruct s as [|b s]; [discriminate|].
    cbn in H.
    destruct (ascii_dec a b) as [-> | _]; [|discriminate].
    destruct (IH s H) as [r ->]. exists r. reflexivity.
Qed.

Lemma prefix_app (p r : string) : String.prefix p (p ++ r) = true.
Proof.
  induction p as [|a p IH]; [destruct r; reflexivity|].
  cbn. destruct (ascii_dec a a); [exact IH | congruence].
Qed.

Lemma DecimalDigits_start (ds : string) :
  DecimalDigits ds -> exists c r, ds = String c r /\ is_digit c = true.
Proof. intros [c H | c s H _]; eauto. Qed.

Lemma starts_with_digit (c : ascii) (r : string) :
  is_digit c = true -> starts_unsigned_literal (String c r) = true.
Proof.
  intros H. unfold starts_unsigned_literal. rewrite H.
  rewrite orb_true_l. apply orb_true_r.
Qed.

Lemma unsigned_literal_start (u rest : string) :
  StrUnsignedDecimalLiteral u ->
  starts_unsigned_literal (u ++ rest) = true /\ strip_sign (u ++ rest) = (false, u ++ rest).
Proof.
  intros [ | ip fp ex Hip _ _ | fp ex Hfp _ | ip ex Hip _].
  - split; [|reflexivity].
    unfold starts_unsigned_literal. rewrite prefix_app. reflexivity.
  - destruct (DecimalDigits_start ip Hip) as (c & r & -> & Hc). simpl.
    split; [apply starts_with_digit, Hc | apply is_digit_strip_sign, Hc].
  - destruct (DecimalDigits_start fp Hfp) as (c & r & -> & Hc).
    split; [|reflexivity].
    unfold starts_unsigned_literal. simpl. rewrite Hc. reflexivity.
  - destruct (DecimalDigits_start ip Hip) as (c & r & -> & Hc). simpl.
    split; [apply starts_with_digit, Hc | apply is_digit_strip_sign, Hc].
Qed.

Lemma starts_unsigned_literal_prefix (s : string) :
  starts_unsigned_literal s = true ->
  exists u rest, s = u ++ rest /\ StrUnsignedDecimalLiteral u.
Proof.
  unfold starts_unsigned_literal. intros H.
  apply orb_true_iff in H as [H | H].
  - destruct (prefix_split _ _ H) as [r ->].
    exists "Infinity", r. split; [reflexivity | constructor].
  - destruct s as [|c r]; [discriminate|].
    apply orb_true_iff in H as [H | H].
    + exists (String c EmptyString), r. split; [reflexivity|].
      apply (literal_integer (String c EmptyString) EmptyString);
        [apply digits_one, H | apply absent].
    + apply andb_true_iff in H as [Hdot Hd].
      apply Ascii.eqb_eq in Hdot. subst c.
      destruct r as [|d r]; [discriminate|].
      exists (String "." (String d EmptyString)), r. split; [reflexivity|].
      apply (literal_fraction (String d EmptyString) EmptyString);
        [apply digits_one, Hd | apply absent].
Qed.

Lemma strip_sign_cases (s : string) :
  (exists r, s = String "-" r /\ strip_sign s = (true, r)) \/
  (exists r, s = String "+" r /\ strip_sign s = (false, r)) \/
  strip_sign s = (false, s).
Proof.
  destruct s as [|c r]; [right; right; reflexivity|].
  unfold strip_sign.
  destruct (Ascii.eqb_spec c "-") as [-> | _]; [left; eauto|].
  destruct (Ascii.eqb_spec c "+") as [-> | _]; [right; left; eauto|].
  right; right; reflexivity.
Qed.

Lemma has_numeric_prefix_starts (s : string) :
  has_numeric_prefix s <-> starts_unsigned_literal (snd (strip_sign s)) = true.
Proof.
  split.
  - intros (p & rest & -> & Hp).
    destruct Hp as [sign u Hsign Hu].
    destruct (unsigned_literal_start u rest Hu) as [Hs Hn].
    destruct Hsign; simpl.
    + rewrite Hn. exact Hs.
    + rewrite <- (proj1 (unsigned_literal_start u rest Hu)). reflexivity.
    + rewrite <- (proj1 (unsigned_literal_start u rest Hu)). reflexivity.
  - intros H.
    destruct (starts_unsigned_literal_prefix _ H) as (u & rest & Heq & Hu).
    destruct (strip_sign_cases s) as [(r & -> & Hs) | [(r & -> & Hs) | Hs]];
      rewrite Hs in Heq; simpl in Heq; subst.
    + exists ("-" ++ u), rest. split; [reflexivity|].
      apply literal_signed; [constructor | exact Hu].
    + exists ("+" ++ u), rest. split; [reflexivity|].
      apply literal_signed; [constructor | exact Hu].
    + exists u, rest. split; [reflexivity|].
      apply (literal_signed EmptyString); [constructor | exact Hu].
Qed.

(** [parseFloat] answers NaN exactly when no leading part of the string,
    after its leading white space, is a StrDecimalLiteral. *)
Lemma parseFloat_NaN_iff (s : string) :
  parseFloat s = None <-> ~ has_numeric_prefix (trimStart s).
Proof.
  unfold parseFloat, StrDecimalLiteral_prefix.
  rewrite has_numeric_prefix_starts.
  destruct (strip_sign (trimStart s)) as [neg s1]. simpl.
  rewrite StrUnsignedDecimalLiteral_prefix_None.
  destruct (starts_unsigned_literal s1); split; congruence.
Qed.

Lemma trimStart_no_leading_white_space (s : string) :
  no_leading_white_space (trimStart s).
Proof.
  induction s as [|c r IH]; simpl; [exact I|].
  destruct (is_white_space c) eqn:Hc; [exact IH | exact Hc].
Qed.

Lemma trimEnd_no_leading_white_space (s : string) :
  no_leading_white_space s -> no_leading_white_space (trimEnd s).
Proof.
  destruct s as [|c r]; simpl; [auto|].
  intros Hc. rewrite Hc. destruct (trimEnd r); exact Hc.
Qed.

Lemma trim_no_leading_white_space (s : string) : no_leading_white_space (trim s).
Proof. apply trimEnd_no_leading_white_space, trimStart_no_leading_white_space. Qed.

Lemma replace_comma_no_leading_white_space (s : string) :
  no_leading_white_space s -> no_leading_white_space (replace_first "," "." s).
Proof.
  destruct s as [|c r]; simpl; [auto|].
  destruct (Ascii.eqb c ","); simpl; auto.
Qed.

Lemma trimStart_id (s : string) : no_leading_white_space s -> trimStart s = s.
Proof. destruct s as [|c r]; simpl; [auto|]. intros ->. reflexivity. Qed.

Lemma nonempty_false (s : string) : nonempty s = false <-> s = EmptyString.
Proof. destruct s; simpl; split; congruence. Qed.

Lemma all_chars_app (f : ascii -> bool) (s t : string) :
  all_chars f (s ++ t) = all_chars f s && all_chars f t.
Proof.
  induction s as [|c r IH]; simpl; [reflexivity|].
  rewrite IH. apply andb_assoc.
Qed.

Lemma DecimalDigits_chars (ds : string) :
  DecimalDigits ds -> all_chars literal_char ds = true.
Proof.
  induction 1 as [c Hc | c s Hc _ IH]; simpl; unfold literal_char at 1; rewrite Hc; auto.
Qed.

Lemma Sign_chars (sign : string) : Sign sign -> all_chars literal_char sign = true.
Proof. intros []; reflexivity. Qed.

Lemma optional_chars (P : string -> Prop) (s : string) :
  (forall t, P t -> all_chars literal_char t = true) ->
  optional P s -> all_chars literal_char s = true.
Proof. intros HP [|t Ht]; [reflexivity | exact (HP t Ht)]. Qed.

Lemma ExponentPart_chars (ex : string) :
  ExponentPart ex -> all_chars literal_char ex = true.
Proof.
  intros [e sign ds He Hs Hd]. simpl.
  rewrite all_chars_app, (Sign_chars _ Hs), (DecimalDigits_chars _ Hd).
  destruct He as [-> | ->]; reflexivity.
Qed.

(** A StrDecimalLiteral is written with digits, signs, the point, the
    exponent letters and the letters of Infinity only. *)
Lemma StrDecimalLiteral_chars (s : string) :
  StrDecimalLiteral s -> all_chars literal_char s = true.
Proof.
  intros [sign u Hs Hu]. rewrite all_chars_app, (Sign_chars _ Hs). simpl.
  destruct Hu as [ | ip fp ex Hip Hfp Hex | fp ex Hfp Hex | ip ex Hip Hex];
    repeat rewrite all_chars_app;
    repeat rewrite (DecimalDigits_chars _ Hip);
    repeat rewrite (DecimalDigits_chars _ Hfp);
    repeat rewrite (optional_chars _ _ DecimalDigits_chars Hfp);
    repeat rewrite (optional_chars _ _ ExponentPart_chars Hex);
    reflexivity.
Qed.

(** *** Rounding to binary64 *)

Lemma pow2_spec (k : Z) : (pow2 k == 2 ^ k)%Q.
Proof.
  unfold pow2. destruct (0 <=? k) eqn:Hk.
  - apply Z.leb_le in Hk. apply (Zpower_Qpower 2 k Hk).
  - apply Z.leb_gt in Hk.
    assert (Hp : 0 < 2 ^ (- k)) by (apply Z.pow_pos_nonneg; lia).
    rewrite Qmake_Qdiv, Z2Pos.id by exact Hp.
    rewrite (Zpower_Qpower 2) by lia.
    rewrite <- (Z.opp_involutive k) at 2. rewrite (Qpower_opp 2 (- k)).
    unfold Qdiv. rewrite Qmult_1_l. reflexivity.
Qed.

Lemma pow2_pos (k : Z) : (0 < pow2 k)%Q.
Proof. rewrite pow2_spec. apply Qpower_0_lt. reflexivity. Qed.

Lemma pow2_add (a b : Z) : (pow2 (a + b) == pow2 a * pow2 b)%Q.
Proof. rewrite !pow2_spec. apply Qpower_plus. discriminate. Qed.

Lemma pow2_succ (a : Z) : (pow2 (a + 1) == 2 * pow2 a)%Q.
Proof. rewrite pow2_add. change (pow2 1) with 2%Q. ring. Qed.

Lemma pow2_le (a b : Z) : a <= b -> (pow2 a <= pow2 b)%Q.
Proof. intros H. rewrite !pow2_spec. apply Qpower_le_compat_l; [exact H | discriminate]. Qed.

Lemma pow2_lt (a b : Z) : a < b -> (pow2 a < pow2 b)%Q.
Proof. intros H. rewrite !pow2_spec. apply Qpower_lt_compat_l; [exact H | reflexivity]. Qed.

Lemma inject_Z_lt_le (k m : Z) : k < m -> (inject_Z k <= inject_Z m - 1)%Q.
Proof.
  intros H. unfold Qle. simpl. lia.
Qed.

(** [round_half_even x] is within a half of [x], and even when exactly a
    half away. *)
Lemma round_half_even_spec (x : Q) :
  let m := round_half_even x in
  (- (1 # 2) <= x - inject_Z m <= 1 # 2)%Q /\
  ((x - inject_Z m == 1 # 2)%Q \/ (x - inject_Z m == - (1 # 2))%Q -> Z.even m = true).
Proof.
  unfold round_half_even.
  pose proof (Qfloor_le x) as Hlo. pose proof (Qlt_floor x) as Hhi.
  rewrite inject_Z_plus in Hhi. change (inject_Z 1) with 1%Q in Hhi.
  destruct (Qcompare_spec (x - inject_Z (Qfloor x)) (1 # 2)) as [He | Hl | Hg].
  - destruct (Z.even (Qfloor x)) eqn:Hev.
    + split; [lra|]. intros _. exact Hev.
    + rewrite inject_Z_plus. change (inject_Z 1) with 1%Q.
      split; [lra|]. intros _.
      change (Qfloor x + 1) with (Z.succ (Qfloor x)).
      rewrite Z.even_succ, <- Z.negb_even, Hev. reflexivity.
  - split; [lra|]. intros [H | H]; lra.
  - rewrite inject_Z_plus. change (inject_Z 1) with 1%Q.
    split; [lra|]. intros [H | H]; lra.
Qed.

Lemma round_half_even_nearest (x : Q) (k : Z) :
  (Qabs (x - inject_Z (round_half_even x)) <= Qabs (x - inject_Z k))%Q /\
  (k <> round_half_even x ->
   (Qabs (x - inject_Z (round_half_even x)) == Qabs (x - inject_Z k))%Q ->
   Z.even (round_half_even x) = true /\
   (Qabs (inject_Z k - inject_Z (round_half_even x)) == 1)%Q).
Proof.
  destruct (round_half_even_spec x) as [Hm Hev].
  set (m := round_half_even x) in *.
  assert (Ha : (Qabs (x - inject_Z m) <= 1 # 2)%Q) by (apply Qabs_Qle_condition; lra).
  destruct (Z.lt_trichotomy k m) as [Hlt | [-> | Hgt]].
  - pose proof (inject_Z_lt_le k m Hlt) as Hk.
    assert (Hb : (x - inject_Z k == Qabs (x - inject_Z k))%Q)
      by (symmetry; apply Qabs_pos; lra).
    split; [lra|]. intros _ Heq.
    assert (Hx : (x - inject_Z m == - (1 # 2))%Q).
    { pose proof (Qle_Qabs (x - inject_Z m)). lra. }
    split; [apply Hev; right; exact Hx|].
    rewrite Qabs_neg by lra. lra.
  - split; [apply Qle_refl|]. intros H. contradiction.
  - pose proof (inject_Z_lt_le m k Hgt) as Hk.
    assert (Hb : (- (x - inject_Z k) == Qabs (x - inject_Z k))%Q)
      by (symmetry; apply Qabs_neg; lra).
    split; [lra|]. intros _ Heq.
    assert (Hx : (x - inject_Z m == 1 # 2)%Q).
    { pose proof (Qle_Qabs (- (x - inject_Z m))) as H. rewrite Qabs_opp in H. lra. }
    split; [apply Hev; left; exact Hx|].
    rewrite Qabs_pos by lra. lra.
Qed.

Lemma round_half_even_le (x : Q) (n : Z) :
  (x <= inject_Z n)%Q -> round_half_even x <= n.
Proof.
  intros H. destruct (round_half_even_spec x) as [Hm _].
  destruct (Z_le_gt_dec (round_half_even x) n) as [Hle | Hgt]; [exact Hle|].
  pose proof (inject_Z_lt_le n (round_half_even x) ltac:(lia)). lra.
Qed.

Lemma round_half_even_ge (x : Q) (n : Z) :
  (inject_Z n <= x)%Q -> n <= round_half_even x.
Proof.
  intros H. destruct (round_half_even_spec x) as [Hm _].
  destruct (Z_le_gt_dec n (round_half_even x)) as [Hle | Hgt]; [exact Hle|].
  pose proof (inject_Z_lt_le (round_half_even x) n ltac:(lia)). lra.
Qed.

Lemma Qmake_pos_spec (n : Z) (d : positive) : (n # d == inject_Z n / inject_Z (Zpos d))%Q.
Proof. apply Qmake_Qdiv. Qed.

(** [floor_log2] finds the binade of a positive rational. *)
Lemma floor_log2_spec (q : Q) :
  (0 < q)%Q -> (pow2 (floor_log2 q) <= q < pow2 (floor_log2 q + 1))%Q.
Proof.
  intros Hq. destruct q as [n d]. unfold floor_log2. simpl Qnum. simpl Qden.
  assert (Hn : 0 < n) by (unfold Qlt in Hq; simpl in Hq; lia).
  pose proof (Z.log2_spec n Hn) as [Hn1 Hn2].
  pose proof (Z.log2_spec (Zpos d) (Pos2Z.is_pos d)) as [Hd1 Hd2].
  pose proof (Z.log2_nonneg n) as Ha. pose proof (Z.log2_nonneg (Zpos d)) as Hb.
  set (a := Z.log2 n) in *. set (b := Z.log2 (Zpos d)) in *.
  assert (Hqn : (n # d == inject_Z n / inject_Z (Zpos d))%Q) by apply Qmake_Qdiv.
  assert (Hdpos : (0 < inject_Z (Zpos d))%Q) by reflexivity.
  assert (Hna : (pow2 a <= inject_Z n)%Q).
  { unfold pow2. rewrite (proj2 (Z.leb_le 0 a) Ha). rewrite <- Zle_Qle. exact Hn1. }
  assert (Hna' : (inject_Z n < pow2 (a + 1))%Q).
  { unfold pow2. rewrite (proj2 (Z.leb_le 0 (a + 1)) ltac:(lia)). rewrite <- Zlt_Qlt.
    exact Hn2. }
  assert (Hdb : (pow2 b <= inject_Z (Zpos d))%Q).
  { unfold pow2. rewrite (proj2 (Z.leb_le 0 b) Hb). rewrite <- Zle_Qle. exact Hd1. }
  assert (Hdb' : (inject_Z (Zpos d) < pow2 (b + 1))%Q).
  { unfold pow2. rewrite (proj2 (Z.leb_le 0 (b + 1)) ltac:(lia)). rewrite <- Zlt_Qlt.
    exact Hd2. }
  assert (Hup : (n # d < pow2 (a - b + 1))%Q).
  { rewrite Hqn. apply Qlt_shift_div_r; [exact Hdpos|].
    apply Qlt_le_trans with (pow2 (a + 1)); [exact Hna'|].
    replace (a + 1) with ((a - b + 1) + b) by lia. rewrite pow2_add.
    apply Qmult_le_l; [apply pow2_pos | exact Hdb]. }
  assert (Hlow : (pow2 (a - b - 1) < n # d)%Q).
  { rewrite Hqn. apply Qlt_shift_div_l; [exact Hdpos|].
    apply Qlt_le_trans with (pow2 a); [|exact Hna].
    replace a with ((a - b - 1) + (b + 1)) at 2 by lia. rewrite pow2_add.
    apply Qmult_lt_l; [apply pow2_pos | exact Hdb']. }
  destruct (Qle_bool (pow2 (a - b)) (n # d)) eqn:Hc.
  - apply Qle_bool_iff in Hc. split; [exact Hc | exact Hup].
  - assert (Hlt : (n # d < pow2 (a - b))%Q).
    { apply Qnot_le_lt. intros H. apply Qle_bool_iff in H. congruence. }
    replace (a - b - 1 + 1) with (a - b) by lia.
    split; [apply Qlt_le_weak, Hlow | exact Hlt].
Qed.

Lemma pow2_inject (k : Z) : 0 <= k -> pow2 k = inject_Z (2 ^ k).
Proof. intros H. unfold pow2. rewrite (proj2 (Z.leb_le 0 k) H). reflexivity. Qed.

Lemma pow2_le_inv (a b : Z) : (pow2 a <= pow2 b)%Q -> a <= b.
Proof.
  intros H. destruct (Z_le_gt_dec a b) as [Hle | Hgt]; [exact Hle|].
  pose proof (pow2_lt b a ltac:(lia)). lra.
Qed.

Lemma pow2_lt_inv (a b : Z) : (pow2 a < pow2 b)%Q -> a < b.
Proof.
  intros H. destruct (Z_lt_ge_dec a b) as [Hlt | Hge]; [exact Hlt|].
  pose proof (pow2_le b a ltac:(lia)). lra.
Qed.

Lemma Qabs_scale (x y P : Q) : (0 < P)%Q -> (Qabs (x * P - y * P) == P * Qabs (x - y))%Q.
Proof.
  intros HP.
  assert (E : (x * P - y * P == P * (x - y))%Q) by ring.
  rewrite E, Qabs_Qmult, (Qabs_pos P) by lra. reflexivity.
Qed.

(** The significand [binary64_positive] rounds to, and its place. *)
Lemma significand_bounds (q : Q) :
  (0 < q)%Q ->
  let e := last_place q in
  let x := (q / pow2 e)%Q in
  let m := round_half_even x in
  -1074 <= e /\ 0 <= m <= 2 ^ 53 /\ (q == x * pow2 e)%Q /\
  (0 < x < inject_Z (2 ^ 53))%Q /\
  (-1074 < e -> (inject_Z (2 ^ 52) <= x)%Q /\ 2 ^ 52 <= m /\ (pow2 (e + 52) <= q)%Q).
Proof.
  intros Hq e x m.
  destruct (floor_log2_spec q Hq) as [Hlo Hhi].
  pose proof (pow2_pos e) as HP.
  assert (He : -1074 <= e) by (unfold e, last_place; lia).
  assert (Hek : floor_log2 q + 1 <= e + 53) by (unfold e, last_place; lia).
  assert (Hqx : (q == x * pow2 e)%Q) by (unfold x; field; lra).
  assert (Hx0 : (0 < x)%Q).
  { unfold x. apply Qlt_shift_div_l; [exact HP | lra]. }
  assert (Hx53 : (x < inject_Z (2 ^ 53))%Q).
  { unfold x. apply Qlt_shift_div_r; [exact HP|].
    rewrite <- (pow2_inject 53) by lia. rewrite <- pow2_add.
    apply Qlt_le_trans with (pow2 (floor_log2 q + 1)); [exact Hhi|].
    apply pow2_le. lia. }
  split; [exact He|]. split; [|split; [exact Hqx|split; [split; assumption|]]].
  - split.
    + apply round_half_even_ge. change (inject_Z 0) with 0%Q. lra.
    + apply round_half_even_le. lra.
  - intros Hgt.
    assert (Hk : e + 52 = floor_log2 q) by (unfold e, last_place in *; lia).
    assert (Hq52 : (pow2 (e + 52) <= q)%Q) by (rewrite Hk; exact Hlo).
    assert (Hx52 : (inject_Z (2 ^ 52) <= x)%Q).
    { unfold x. apply Qle_shift_div_l; [exact HP|].
      rewrite <- (pow2_inject 52) by lia. rewrite <- pow2_add.
      replace (52 + e) with (e + 52) by lia. exact Hq52. }
    split; [exact Hx52|]. split; [apply round_half_even_ge, Hx52 | exact Hq52].
Qed.

Lemma overflow_threshold_spec : (overflow_threshold == pow2 1024 - pow2 970)%Q.
Proof. unfold overflow_threshold. rewrite !pow2_spec. reflexivity. Qed.

Lemma pow2_1024 : (pow2 1024 == inject_Z (2 ^ 53) * pow2 971)%Q.
Proof. rewrite <- (pow2_inject 53), <- pow2_add by lia. reflexivity. Qed.

Lemma pow2_971 : (pow2 971 == 2 * pow2 970)%Q.
Proof. apply (pow2_succ 970). Qed.

Lemma binary64_positive_overflow (q : Q) :
  (0 < q)%Q ->
  (pow2 1024 <= inject_Z (round_half_even (q / pow2 (last_place q))) * pow2 (last_place q))%Q ->
  (overflow_threshold <= q)%Q.
Proof.
  intros Hq Hov.
  destruct (significand_bounds q Hq) as (He & [Hm0 Hm53] & Hqx & [Hx0 Hx53] & Hnormal).
  set (e := last_place q) in *. set (x := (q / pow2 e)%Q) in *.
  set (m := round_half_even x) in *.
  pose proof (pow2_pos e) as HP.
  destruct (round_half_even_spec x) as [Hnear _]. fold m in Hnear.
  rewrite overflow_threshold_spec.
  assert (He53 : 1024 <= e + 53).
  { apply pow2_le_inv. rewrite pow2_add, (pow2_inject 53) by lia.
    apply Qle_trans with (inject_Z m * pow2 e)%Q; [exact Hov|].
    rewrite (Qmult_comm (pow2 e)). apply Qmult_le_compat_r; [|lra].
    rewrite <- Zle_Qle. lia. }
  destruct (Hnormal ltac:(lia)) as (Hx52 & Hm52 & Hq52).
  pose proof (pow2_pos 970) as H970.
  destruct (Z.eq_dec e 971) as [E | E].
  - assert (Hm : (inject_Z (2 ^ 53) <= inject_Z m)%Q).
    { apply (Qmult_le_r _ _ (pow2 e) HP). rewrite E, <- pow2_1024. rewrite <- E. exact Hov. }
    assert (Hx : (inject_Z (2 ^ 53) - (1 # 2) <= x)%Q) by lra.
    apply (Qmult_le_compat_r _ _ (pow2 e)) in Hx; [|lra].
    rewrite <- Hqx in Hx. rewrite E in Hx.
    pose proof pow2_1024 as H1. pose proof pow2_971 as H2.
    assert (H3 : ((inject_Z (2 ^ 53) - (1 # 2)) * pow2 971 == pow2 1024 - pow2 970)%Q).
    { rewrite H1, H2. ring. }
    lra.
  - pose proof (pow2_le 1024 (e + 52) ltac:(lia)). lra.
Qed.

(** Against any binary64 number, taken in units of the last place, the
    rounded significand is at least as close, and even on a tie. *)
Lemma significand_nearest (q r' : Q) :
  (0 < q)%Q -> is_binary64 r' ->
  let e := last_place q in
  let x := (q / pow2 e)%Q in
  let m := round_half_even x in
  let y := (r' / pow2 e)%Q in
  (Qabs (x - inject_Z m) <= Qabs (x - y))%Q /\
  (~ (y == inject_Z m)%Q -> (Qabs (x - inject_Z m) == Qabs (x - y))%Q ->
   Z.even m = true /\ (Qabs (y - inject_Z m) == 1)%Q).
Proof.
  intros Hq (m' & e' & Hm' & He' & Hr') e x m y.
  destruct (significand_bounds q Hq) as (He & [Hm0 Hm53] & Hqx & [Hx0 Hx53] & Hnormal).
  fold e x m in He, Hm0, Hm53, Hqx, Hx0, Hx53, Hnormal.
  pose proof (pow2_pos e) as HP.
  rewrite <- pow2_spec in Hr'.
  destruct (Z_le_gt_dec e e') as [Hle | Hgt].
  - assert (Hy : (y == inject_Z (m' * 2 ^ (e' - e)))%Q).
    { unfold y. rewrite Hr'. replace e' with ((e' - e) + e) at 1 by lia.
      rewrite pow2_add, (pow2_inject (e' - e)) by lia. rewrite inject_Z_mult.
      field. lra. }
    rewrite Hy.
    destruct (round_half_even_nearest x (m' * 2 ^ (e' - e))) as [H1 H2]. fold m in H1, H2.
    split; [exact H1|]. intros Hne Heq.
    destruct H2 as [Hev Hd]; [intros E; apply Hne; rewrite E; reflexivity | exact Heq |].
    split; [exact Hev | exact Hd].
  - destruct (Hnormal ltac:(lia)) as (Hx52 & Hm52 & _).
    assert (Hy : (y == inject_Z m' * pow2 (e' - e))%Q).
    { unfold y. rewrite Hr'. replace e' with ((e' - e) + e) at 1 by lia.
      rewrite pow2_add. field. lra. }
    pose proof (pow2_pos (e' - e)) as Hp0.
    pose proof (pow2_le (e' - e) (-1) ltac:(lia)) as Hp1.
    change (pow2 (-1)) with (1 # 2)%Q in Hp1.
    assert (Hylt : (y < inject_Z (2 ^ 52))%Q).
    { rewrite Hy.
      apply Qle_lt_trans with (inject_Z (2 ^ 53 - 1) * pow2 (e' - e))%Q.
      - apply Qmult_le_compat_r; [|lra]. rewrite <- Zle_Qle. lia.
      - apply Qle_lt_trans with (inject_Z (2 ^ 53 - 1) * (1 # 2))%Q.
        + apply Qmult_le_l; [reflexivity | exact Hp1].
        + reflexivity. }
    destruct (round_half_even_nearest x (2 ^ 52)) as [H1 _]. fold m in H1.
    rewrite (Qabs_pos (x - inject_Z (2 ^ 52))) in H1 by lra.
    assert (H2 : (x - y == Qabs (x - y))%Q) by (symmetry; apply Qabs_pos; lra).
    split; [lra|]. intros _ Heq. lra.
Qed.

Lemma binary64_positive_finite (q : Q) :
  (0 < q)%Q ->
  let r := (inject_Z (round_half_even (q / pow2 (last_place q))) * pow2 (last_place q))%Q in
  (r < pow2 1024)%Q -> rounded_to_binary64 q (Fin (Qred r)).
Proof.
  intros Hq r Hfin. unfold r in *. clear r.
  destruct (significand_bounds q Hq) as (He & [Hm0 Hm53] & Hqx & [Hx0 Hx53] & Hnormal).
  set (e := last_place q) in *. set (x := (q / pow2 e)%Q) in *.
  set (m := round_half_even x) in *.
  pose proof (pow2_pos e) as HP.
  destruct (round_half_even_spec x) as [Hnear Heven]. fold m in Hnear, Heven.
  assert (He971 : e <= 971).
  { destruct (Z_le_gt_dec e 971) as [H | H]; [exact H | exfalso].
    destruct (Hnormal ltac:(lia)) as (_ & Hm52 & _).
    pose proof (pow2_le 1024 (52 + e) ltac:(lia)) as Hp.
    rewrite pow2_add, (pow2_inject 52) in Hp by lia.
    assert (Hmp : (inject_Z (2 ^ 52) * pow2 e <= inject_Z m * pow2 e)%Q).
    { apply Qmult_le_compat_r; [|lra]. rewrite <- Zle_Qle. exact Hm52. }
    lra. }
  unfold rounded_to_binary64.
  set (r0 := Qred (inject_Z m * pow2 e)).
  assert (Hr0 : (r0 == inject_Z m * pow2 e)%Q) by apply Qred_correct.
  clearbody r0.
  split; [|split; [|split]].
  - (* a binary64 number *)
    unfold is_binary64. setoid_rewrite Hr0.
    destruct (Z.eq_dec m (2 ^ 53)) as [E | E].
    + exists (2 ^ 52), (e + 1).
      assert (He970 : e + 53 < 1024).
      { apply pow2_lt_inv. rewrite (Z.add_comm e), pow2_add, (pow2_inject 53) by lia.
        rewrite <- E. exact Hfin. }
      split; [reflexivity|]. split; [lia|].
      rewrite <- pow2_spec, pow2_succ, E.
      change (inject_Z (2 ^ 53)) with (2 * inject_Z (2 ^ 52))%Q. ring.
    + exists m, e. split; [lia|]. split; [lia|]. rewrite pow2_spec. reflexivity.
  - (* below the threshold *)
    rewrite (Qabs_pos q) by lra. rewrite overflow_threshold_spec.
    apply Qnot_le_lt. intros Hth.
    pose proof (pow2_pos 970) as H970. pose proof pow2_1024 as H1. pose proof pow2_971 as H2.
    destruct (floor_log2_spec q Hq) as [_ Hhi].
    assert (Hk : 1023 <= floor_log2 q).
    { destruct (Z_le_gt_dec 1023 (floor_log2 q)) as [H | H]; [exact H | exfalso].
      pose proof (pow2_le (floor_log2 q + 1) 1023 ltac:(lia)) as Hp.
      assert (H3 : (pow2 1024 == 2 * pow2 1023)%Q) by apply (pow2_succ 1023).
      assert (H4 : (pow2 1023 == 2 * pow2 1022)%Q) by apply (pow2_succ 1022).
      pose proof (pow2_lt 970 1022 ltac:(lia)). lra. }
    assert (E : e = 971) by (unfold e, last_place in *; lia).
    assert (Hx : (inject_Z (2 ^ 53) - (1 # 2) <= x)%Q).
    { unfold x. apply Qle_shift_div_l; [exact HP|]. rewrite E.
      assert (H3 : ((inject_Z (2 ^ 53) - (1 # 2)) * pow2 971 == pow2 1024 - pow2 970)%Q).
      { rewrite H1, H2. ring. }
      lra. }
    assert (Hm : 2 ^ 53 <= m).
    { destruct (Z_le_gt_dec (2 ^ 53) m) as [H | H]; [exact H | exfalso].
      pose proof (inject_Z_lt_le m (2 ^ 53) ltac:(lia)) as Hle.
      assert (Hhalf : (x - inject_Z m == 1 # 2)%Q) by lra.
      assert (Hmeq : (inject_Z m == inject_Z (2 ^ 53 - 1))%Q).
      { change (inject_Z (2 ^ 53 - 1)) with (inject_Z (2 ^ 53) - 1)%Q. lra. }
      assert (Hm1 : m = 2 ^ 53 - 1) by (unfold Qeq in Hmeq; simpl in Hmeq; lia).
      specialize (Heven (or_introl Hhalf)). rewrite Hm1 in Heven. discriminate Heven. }
    assert (Hmp : (inject_Z (2 ^ 53) * pow2 e <= inject_Z m * pow2 e)%Q).
    { apply Qmult_le_compat_r; [|lra]. rewrite <- Zle_Qle. exact Hm. }
    rewrite E in Hmp, Hfin. lra.
  - (* the closest *)
    intros r' Hr'. rewrite Hr0.
    destruct (significand_nearest q r' Hq Hr') as [Hn _]. fold e x m in Hn.
    assert (Hry : (r' == r' / pow2 e * pow2 e)%Q) by (field; lra).
    assert (E1 : (Qabs (q - inject_Z m * pow2 e) == pow2 e * Qabs (x - inject_Z m))%Q).
    { rewrite <- (Qabs_scale x (inject_Z m) (pow2 e) HP). apply Qabs_wd. lra. }
    assert (E2 : (Qabs (q - r') == pow2 e * Qabs (x - r' / pow2 e))%Q).
    { rewrite <- (Qabs_scale x (r' / pow2 e) (pow2 e) HP). apply Qabs_wd. lra. }
    rewrite E1, E2. apply Qmult_le_l; [exact HP | exact Hn].
  - (* ties *)
    intros r' Hr' Hne Heq. setoid_rewrite Hr0. rewrite Hr0 in Hne, Heq.
    destruct (significand_nearest q r' Hq Hr') as [_ Ht]. fold e x m in Ht.
    assert (Hry : (r' == r' / pow2 e * pow2 e)%Q) by (field; lra).
    assert (E1 : (Qabs (q - inject_Z m * pow2 e) == pow2 e * Qabs (x - inject_Z m))%Q).
    { rewrite <- (Qabs_scale x (inject_Z m) (pow2 e) HP). apply Qabs_wd. lra. }
    assert (E2 : (Qabs (q - r') == pow2 e * Qabs (x - r' / pow2 e))%Q).
    { rewrite <- (Qabs_scale x (r' / pow2 e) (pow2 e) HP). apply Qabs_wd. lra. }
    assert (E3 : (Qabs (r' - inject_Z m * pow2 e)
                  == pow2 e * Qabs (r' / pow2 e - inject_Z m))%Q).
    { rewrite <- (Qabs_scale (r' / pow2 e) (inject_Z m) (pow2 e) HP). apply Qabs_wd. lra. }
    destruct Ht as [Hev Hd].
    + intros Hy. apply Hne. rewrite Hry, Hy. reflexivity.
    + rewrite E1, E2 in Heq. apply (Qmult_inj_l _ _ (pow2 e)); [lra | exact Heq].
    + exists m. split; [exact Hev|]. rewrite E3, Hd. ring.
Qed.

Lemma binary64_positive_rounded (q : Q) :
  (0 < q)%Q -> rounded_to_binary64 q (binary64_positive q).
Proof.
  intros Hq. unfold binary64_positive.
  destruct (Qle_bool (pow2 1024) _) eqn:Hov.
  - apply Qle_bool_iff in Hov. apply (binary64_positive_overflow q Hq Hov).
  - apply (binary64_positive_finite q Hq). apply Qnot_le_lt. intros H.
    apply Qle_bool_iff in H. congruence.
Qed.

Lemma is_binary64_Qeq (r s : Q) : (r == s)%Q -> is_binary64 r -> is_binary64 s.
Proof. intros E (m & e & Hm & He & Hr). exists m, e. rewrite <- E. auto. Qed.

Lemma is_binary64_opp (r : Q) : is_binary64 r -> is_binary64 (- r).
Proof.
  intros (m & e & Hm & He & Hr). exists (- m), e.
  split; [lia|]. split; [exact He|]. rewrite Hr, inject_Z_opp. ring.
Qed.

Lemma rounded_to_binary64_Qeq (p q : Q) (n : num) :
  (p == q)%Q -> rounded_to_binary64 p n -> rounded_to_binary64 q n.
Proof.
  intros E. destruct n as [r | |]; unfold rounded_to_binary64.
  - intros (Hb & Ht & Hn & Htie). split; [exact Hb|]. split; [rewrite <- E; exact Ht|].
    split.
    + intros r' Hr'. rewrite <- E. apply Hn, Hr'.
    + intros r' Hr' Hne Heq. apply (Htie r' Hr' Hne). rewrite E. exact Heq.
  - intros H. rewrite <- E. exact H.
  - intros H. rewrite <- E. exact H.
Qed.

Lemma rounded_to_binary64_negate (q : Q) (n : num) :
  rounded_to_binary64 q n -> rounded_to_binary64 (- q) (negate n).
Proof.
  destruct n as [r | |]; unfold rounded_to_binary64, negate.
  - intros (Hb & Ht & Hn & Htie).
    assert (Hflip : forall r', (Qabs (- q - r') == Qabs (q - - r'))%Q).
    { intros r'. rewrite <- (Qabs_opp (- q - r')). apply Qabs_wd. ring. }
    split; [apply is_binary64_opp, Hb|]. split; [rewrite Qabs_opp; exact Ht|].
    split.
    + intros r' Hr'. rewrite !Hflip.
      assert (E : (- - r == r)%Q) by ring. rewrite E.
      apply Hn, is_binary64_opp, Hr'.
    + intros r' Hr' Hne Heq. rewrite !Hflip in Heq.
      assert (E : (- - r == r)%Q) by ring. rewrite E in Heq.
      destruct (Htie (- r')%Q (is_binary64_opp r' Hr')) as (k & Hk & Hr).
      * intros H. apply Hne. rewrite <- H. ring.
      * exact Heq.
      * exists (- k). split; [rewrite Z.even_opp; exact Hk|].
        rewrite inject_Z_opp.
        assert (E2 : (Qabs (r' - - r) == Qabs (- r' - r))%Q).
        { rewrite <- (Qabs_opp (r' - - r)). apply Qabs_wd. ring. }
        rewrite E2, Hr at 1. ring.
  - intros H. lra.
  - intros H. lra.
Qed.

Lemma overflow_threshold_pos : (0 < overflow_threshold)%Q.
Proof.
  rewrite overflow_threshold_spec. pose proof (pow2_lt 970 1024 ltac:(lia)). lra.
Qed.

Lemma rounded_to_binary64_zero (q : Q) : (q == 0)%Q -> rounded_to_binary64 q (Fin 0).
Proof.
  intros E. unfold rounded_to_binary64. split; [|split; [|split]].
  - exists 0, 0. split; [reflexivity|]. split; [lia|]. reflexivity.
  - rewrite E. apply overflow_threshold_pos.
  - intros r' _. rewrite E. apply Qabs_nonneg.
  - intros r' _ Hne Heq. exfalso. apply Hne.
    rewrite E in Heq.
    assert (H0 : (Qabs (0 - r') == 0)%Q) by (rewrite <- Heq; reflexivity).
    assert (H1 : (Qabs (0 - r') <= 0)%Q) by (rewrite H0; apply Qle_refl).
    apply Qabs_Qle_condition in H1. lra.
Qed.

(** [binary64] rounds to the nearest binary64 number, ties to even, and
    to an infinity from the overflow threshold on. *)
Lemma binary64_rounded (q : Q) : rounded_to_binary64 q (binary64 q).
Proof.
  unfold binary64. pose proof (Qred_correct q) as E.
  destruct (Qred q) as [n d] eqn:Hred. simpl Qnum.
  destruct n as [|p|p].
  - apply rounded_to_binary64_zero. rewrite <- E. reflexivity.
  - apply (rounded_to_binary64_Qeq (Zpos p # d) q _ E).
    apply binary64_positive_rounded. reflexivity.
  - apply (rounded_to_binary64_Qeq (- - (Zneg p # d))%Q q).
    { rewrite <- E. ring. }
    apply rounded_to_binary64_negate, binary64_positive_rounded. reflexivity.
Qed.

(** *** The value [parseFloat] reads *)

Lemma DecimalDigits_all (ds : string) :
  DecimalDigits ds -> all_chars is_digit ds = true.
Proof. induction 1 as [c Hc | c s Hc _ IH]; simpl; rewrite Hc; auto. Qed.

Lemma optional_digits_all (fp : string) :
  optional DecimalDigits fp -> all_chars is_digit fp = true.
Proof. intros [|s H]; [reflexivity | apply DecimalDigits_all, H]. Qed.

Lemma DecimalDigits_snoc (ds : string) (d : ascii) :
  all_chars is_digit ds = true -> is_digit d = true ->
  DecimalDigits (ds ++ String d EmptyString).
Proof.
  intros Hds Hd. induction ds as [|c r IH]; simpl.
  - apply digits_one, Hd.
  - simpl in Hds. apply andb_true_iff in Hds as [Hc Hr].
    apply digits_more; [exact Hc | apply IH, Hr].
Qed.

Lemma read_digits_run (ds rest : string) (acc : Z) (n : nat) :
  all_chars is_digit ds = true -> starts_digit rest = false ->
  read_digits (ds ++ rest) acc n =
  (acc * 10 ^ Z.of_nat (String.length ds) + digits_value ds,
   (n + String.length ds)%nat, rest).
Proof.
  intros Hds Hrest. revert acc n.
  induction ds as [|c r IH]; intros acc n.
  - simpl. destruct rest as [|c r]; simpl.
    + repeat f_equal; lia.
    + simpl in Hrest. rewrite (is_digit_false_value c Hrest). repeat f_equal; lia.
  - simpl in Hds. apply andb_true_iff in Hds as [Hc Hr].
    simpl String.append. cbn [read_digits]. rewrite (is_digit_value c Hc), (IH Hr).
    cbn [String.length digits_value].
    rewrite Nat2Z.inj_succ, Z.pow_succ_r by lia.
    f_equal. f_equal; [ring | lia].
Qed.

Lemma is_digit_not_sign (c : ascii) :
  is_digit c = true -> Ascii.eqb c "-" = false /\ Ascii.eqb c "+" = false.
Proof.
  intros H. split.
  - destruct (Ascii.eqb_spec c "-") as [-> | _]; [discriminate H | reflexivity].
  - destruct (Ascii.eqb_spec c "+") as [-> | _]; [discriminate H | reflexivity].
Qed.

Lemma DecimalDigits_starts_digit (ds rest : string) :
  DecimalDigits ds -> starts_digit (ds ++ rest) = true.
Proof. intros H. destruct (DecimalDigits_start ds H) as (c & r & -> & Hc). exact Hc. Qed.

Lemma ExponentPart_starts (ex rest : string) :
  ExponentPart ex ->
  starts_digit (ex ++ rest) = false /\
  match ex ++ rest with String c _ => Ascii.eqb c "." = false | EmptyString => True end.
Proof.
  intros [e sign ds He _ _]. simpl. destruct He as [-> | ->]; split; reflexivity.
Qed.

Lemma read_exponent_part (ex rest : string) :
  ExponentPart ex -> starts_digit rest = false ->
  read_exponent (ex ++ rest) = exponent_value ex.
Proof.
  intros [e sign ds He Hs Hd] Hrest.
  pose proof (DecimalDigits_all ds Hd) as Hall.
  destruct (DecimalDigits_start ds Hd) as (c & r & Heq & Hc).
  destruct (is_digit_not_sign c Hc) as [Hm Hp].
  assert (Hrun : read_digits (ds ++ rest) 0 0 =
                 (digits_value ds, String.length ds, rest)).
  { rewrite (read_digits_run ds rest 0 0 Hall Hrest). reflexivity. }
  assert (He' : Ascii.eqb e "e" || Ascii.eqb e "E" = true)
    by (destruct He as [-> | ->]; reflexivity).
  simpl String.append. unfold read_exponent. rewrite He'.
  destruct Hs.
  - simpl String.append. rewrite Heq in *.
    simpl String.append. rewrite (is_digit_strip_sign c _ Hc).
    simpl String.append in Hrun. rewrite Hrun.
    cbn [exponent_value String.length]. rewrite Hm, Hp. reflexivity.
  - change (strip_sign (("+" ++ ds) ++ rest)) with (false, ds ++ rest).
    cbv beta iota. rewrite Hrun. rewrite Heq. reflexivity.
  - change (strip_sign (("-" ++ ds) ++ rest)) with (true, ds ++ rest).
    cbv beta iota. rewrite Hrun. rewrite Heq. reflexivity.
Qed.

Lemma read_exponent_none (rest : string) :
  starts_exponent rest = false -> read_exponent rest = 0.
Proof.
  destruct rest as [|c r]; [reflexivity|].
  unfold starts_exponent, read_exponent.
  destruct (Ascii.eqb c "e" || Ascii.eqb c "E"); [|reflexivity].
  destruct (strip_sign r) as [neg r']. simpl. intros H.
  rewrite (read_digits_no_digit r' 0); [reflexivity|].
  destruct r'; [exact I | exact H].
Qed.

Lemma starts_exponent_part (rest : string) :
  starts_exponent rest = true ->
  exists ex r', rest = ex ++ r' /\ ExponentPart ex /\ (1 <= String.length ex)%nat.
Proof.
  destruct rest as [|c r]; [discriminate|].
  unfold starts_exponent. intros H. apply andb_true_iff in H as [He Hd].
  assert (He' : c = "e"%char \/ c = "E"%char).
  { apply orb_true_iff in He as [He | He]; apply Ascii.eqb_eq in He; auto. }
  destruct (strip_sign_cases r) as [(r1 & -> & Hs) | [(r1 & -> & Hs) | Hs]];
    rewrite Hs in Hd; simpl in Hd.
  - destruct r1 as [|d r2]; [discriminate|].
    exists (String c ("-" ++ String d EmptyString)), r2.
    split; [reflexivity|]. split; [|simpl; lia].
    apply exponent_part; [exact He' | constructor | apply digits_one, Hd].
  - destruct r1 as [|d r2]; [discriminate|].
    exists (String c ("+" ++ String d EmptyString)), r2.
    split; [reflexivity|]. split; [|simpl; lia].
    apply exponent_part; [exact He' | constructor | apply digits_one, Hd].
  - destruct r as [|d r2]; [discriminate|].
    exists (String c (EmptyString ++ String d EmptyString)), r2.
    split; [reflexivity|]. split; [|simpl; lia].
    apply exponent_part; [exact He' | constructor | apply digits_one, Hd].
Qed.

Lemma no_longer_extension (u rest x r' : string) :
  no_longer u rest -> rest = x ++ r' -> (1 <= String.length x)%nat ->
  ~ StrUnsignedDecimalLiteral (u ++ x).
Proof.
  intros Hmax -> Hx Hlit.
  specialize (Hmax (u ++ x) r' (eq_sym (append_assoc u x r')) Hlit).
  rewrite append_length in Hmax. lia.
Qed.

Lemma starts_digit_split (rest : string) :
  starts_digit rest = true ->
  exists d r', rest = String d EmptyString ++ r' /\ is_digit d = true.
Proof. destruct rest as [|d r']; [discriminate|]. intros H. exists d, r'. auto. Qed.

Lemma decimal_spec (m e : Z) : (decimal m e == inject_Z m * 10 ^ e)%Q.
Proof.
  unfold decimal. rewrite Qred_correct.
  destruct (0 <=? e) eqn:He.
  - apply Z.leb_le in He. rewrite inject_Z_mult, Zpower_Qpower by exact He. reflexivity.
  - apply Z.leb_gt in He.
    assert (Hp : 0 < 10 ^ (- e)) by (apply Z.pow_pos_nonneg; lia).
    rewrite Qmake_Qdiv, Z2Pos.id by exact Hp.
    rewrite Zpower_Qpower by lia.
    rewrite <- (Z.opp_involutive e) at 2. rewrite (Qpower_opp 10 (- e)). reflexivity.
Qed.

Lemma binary64_Qeq (p q : Q) : (p == q)%Q -> binary64 p = binary64 q.
Proof. intros H. unfold binary64. rewrite (Qred_complete p q H). reflexivity. Qed.

Lemma pow10_nonzero (k : Z) : ~ (10 ^ k == 0)%Q.
Proof. apply Qpower_not_0. discriminate. Qed.

Lemma pow10_inject (k : nat) : (inject_Z (10 ^ Z.of_nat k) == 10 ^ Z.of_nat k)%Q.
Proof. apply (Zpower_Qpower 10). lia. Qed.

(** What the scanner computes from the digits around the point is the
    value of the literal. *)
Lemma scanned_value (i f : Z) (k : nat) (e : Z) :
  (decimal (i * 10 ^ Z.of_nat k + f) (e - Z.of_nat k) ==
   (inject_Z i + inject_Z f / inject_Z (10 ^ Z.of_nat k)) * 10 ^ e)%Q.
Proof.
  rewrite decimal_spec, inject_Z_plus, inject_Z_mult, pow10_inject.
  unfold Z.sub. rewrite Qpower_plus by discriminate. rewrite Qpower_opp.
  field. apply pow10_nonzero.
Qed.

Lemma ExponentPart_snoc (ex : string) (d : ascii) :
  ExponentPart ex -> is_digit d = true -> ExponentPart (ex ++ String d EmptyString).
Proof.
  intros [e sign ds He Hs Hd] Hdig. simpl. rewrite append_assoc.
  apply exponent_part; [exact He | exact Hs |].
  apply DecimalDigits_snoc; [apply DecimalDigits_all, Hd | exact Hdig].
Qed.

(** What follows a literal that cannot be made longer: no digit, and no
    exponent part where the literal has none. *)
Lemma after_literal (head ex rest : string) :
  optional ExponentPart ex ->
  (forall ex', optional ExponentPart ex' -> StrUnsignedDecimalLiteral (head ++ ex')) ->
  (forall d, is_digit d = true -> StrUnsignedDecimalLiteral (head ++ String d EmptyString)) ->
  no_longer (head ++ ex) rest ->
  starts_digit (ex ++ rest) = false /\ read_exponent (ex ++ rest) = exponent_value ex.
Proof.
  intros Hex Hlit Hdigit Hmax.
  destruct Hex as [|ex Hex].
  - rewrite append_empty_r in Hmax. simpl String.append.
    assert (Hd : starts_digit rest = false).
    { destruct (starts_digit rest) eqn:Hd; [|reflexivity]. exfalso.
      destruct (starts_digit_split rest Hd) as (d & r' & Hr & Hdig).
      apply (no_longer_extension head rest _ r' Hmax Hr); [simpl; lia|].
      apply Hdigit, Hdig. }
    split; [exact Hd|].
    apply read_exponent_none.
    destruct (starts_exponent rest) eqn:He; [|reflexivity]. exfalso.
    destruct (starts_exponent_part rest He) as (ex' & r' & Hr & Hex' & Hlen).
    apply (no_longer_extension head rest ex' r' Hmax Hr Hlen).
    apply Hlit, present, Hex'.
  - split; [apply ExponentPart_starts, Hex|].
    apply read_exponent_part; [exact Hex|].
    destruct (starts_digit rest) eqn:Hd; [|reflexivity]. exfalso.
    destruct (starts_digit_split rest Hd) as (d & r' & Hr & Hdig).
    apply (no_longer_extension (head ++ ex) rest _ r' Hmax Hr); [simpl; lia|].
    rewrite append_assoc. apply Hlit, present, ExponentPart_snoc; assumption.
Qed.

Lemma not_Infinity_prefix (c : ascii) (r : string) :
  is_digit c = true \/ c = "."%char -> String.prefix "Infinity" (String c r) = false.
Proof.
  intros H.
  change (String.prefix "Infinity" (String c r))
    with (if ascii_dec "I" c then String.prefix "nfinity" r else false).
  destruct (ascii_dec "I" c) as [<- | _]; [|reflexivity].
  destruct H as [H | H]; discriminate H.
Qed.

Lemma signed_Qeq (neg : bool) (p q : Q) :
  (p == q)%Q -> binary64 (if neg then - p else p) = binary64 (if neg then - q else q).
Proof. intros H. apply binary64_Qeq. destruct neg; rewrite H; reflexivity. Qed.

Lemma scan_point (neg : bool) (ip fp ex rest : string) :
  DecimalDigits ip -> optional DecimalDigits fp -> optional ExponentPart ex ->
  no_longer (ip ++ "." ++ fp ++ ex) rest ->
  StrUnsignedDecimalLiteral_prefix neg ((ip ++ "." ++ fp ++ ex) ++ rest) =
  Some (binary64
          (let v := ((inject_Z (digits_value ip) + fraction_value fp)
                     * 10 ^ exponent_value ex)%Q in
           if neg then (- v)%Q else v)).
Proof.
  intros Hip Hfp Hex Hmax.
  assert (Hu : ip ++ "." ++ fp ++ ex = (ip ++ "." ++ fp) ++ ex).
  { rewrite append_assoc. reflexivity. }
  rewrite Hu in Hmax |- *.
  destruct (after_literal (ip ++ "." ++ fp) ex rest Hex) as [Hd He]; [| |exact Hmax|].
  { intros ex' Hex'. rewrite append_assoc. apply (literal_point ip fp ex'); assumption. }
  { intros d Hdig.
    replace ((ip ++ "." ++ fp) ++ String d EmptyString)
      with (ip ++ "." ++ (fp ++ String d EmptyString) ++ EmptyString)
      by (rewrite append_empty_r, !append_assoc; reflexivity).
    apply literal_point; [exact Hip | | apply absent].
    apply present, DecimalDigits_snoc; [apply optional_digits_all, Hfp | exact Hdig]. }
  replace (((ip ++ "." ++ fp) ++ ex) ++ rest) with (ip ++ String "." (fp ++ ex ++ rest))
    by (rewrite !append_assoc; reflexivity).
  destruct (DecimalDigits_start ip Hip) as (c & r & Hipeq & Hc).
  unfold StrUnsignedDecimalLiteral_prefix.
  assert (Hpre : String.prefix "Infinity" (ip ++ String "." (fp ++ ex ++ rest)) = false).
  { rewrite Hipeq. apply not_Infinity_prefix. auto. }
  rewrite Hpre.
  rewrite (read_digits_run ip (String "." (fp ++ ex ++ rest)) 0 0
             (DecimalDigits_all ip Hip) eq_refl).
  cbv beta iota. change (Ascii.eqb "." ".") with true. cbv beta iota.
  rewrite (read_digits_run fp _ _ 0 (optional_digits_all fp Hfp) Hd).
  cbv beta iota. rewrite He.
  assert (Hlen : exists k, String.length ip = S k) by (rewrite Hipeq; simpl; eauto).
  destruct Hlen as [k Hlen]. cbn [Nat.add]. rewrite Hlen at 1.
  cbv beta iota zeta. f_equal.
  apply signed_Qeq.
  replace (0 * 10 ^ Z.of_nat (String.length ip) + digits_value ip) with (digits_value ip)
    by ring.
  apply scanned_value.
Qed.

Lemma scan_fraction (neg : bool) (fp ex rest : string) :
  DecimalDigits fp -> optional ExponentPart ex ->
  no_longer ("." ++ fp ++ ex) rest ->
  StrUnsignedDecimalLiteral_prefix neg (("." ++ fp ++ ex) ++ rest) =
  Some (binary64
          (let v := (fraction_value fp * 10 ^ exponent_value ex)%Q in
           if neg then (- v)%Q else v)).
Proof.
  intros Hfp Hex Hmax.
  change ("." ++ fp ++ ex) with (("." ++ fp) ++ ex) in Hmax |- *.
  destruct (after_literal ("." ++ fp) ex rest Hex) as [Hd He]; [| |exact Hmax|].
  { intros ex' Hex'. apply (literal_fraction fp ex'); assumption. }
  { intros d Hdig.
    replace (("." ++ fp) ++ String d EmptyString)
      with ("." ++ (fp ++ String d EmptyString) ++ EmptyString)
      by (rewrite append_empty_r; reflexivity).
    apply literal_fraction; [|apply absent].
    apply DecimalDigits_snoc; [apply DecimalDigits_all, Hfp | exact Hdig]. }
  change ((("." ++ fp) ++ ex) ++ rest) with (String "." ((fp ++ ex) ++ rest)).
  rewrite append_assoc.
  destruct (DecimalDigits_start fp Hfp) as (c & r & Hfpeq & Hc).
  unfold StrUnsignedDecimalLiteral_prefix.
  rewrite not_Infinity_prefix by auto.
  rewrite (read_digits_no_digit (String "." (fp ++ ex ++ rest)) 0 eq_refl).
  cbv beta iota. change (Ascii.eqb "." ".") with true. cbv beta iota.
  rewrite (read_digits_run fp _ _ 0 (DecimalDigits_all fp Hfp) Hd).
  cbv beta iota. rewrite He.
  assert (Hlen : exists k, String.length fp = S k) by (rewrite Hfpeq; simpl; eauto).
  destruct Hlen as [k Hlen]. cbn [Nat.add]. rewrite Hlen at 1.
  cbv beta iota zeta. f_equal.
  apply signed_Qeq.
  rewrite scanned_value. unfold fraction_value. change (inject_Z 0) with 0%Q.
  rewrite Qplus_0_l. reflexivity.
Qed.

Lemma scan_integer (neg : bool) (ip ex rest : string) :
  DecimalDigits ip -> optional ExponentPart ex ->
  no_longer (ip ++ ex) rest ->
  StrUnsignedDecimalLiteral_prefix neg ((ip ++ ex) ++ rest) =
  Some (binary64
          (let v := (inject_Z (digits_value ip) * 10 ^ exponent_value ex)%Q in
           if neg then (- v)%Q else v)).
Proof.
  intros Hip Hex Hmax.
  destruct (after_literal ip ex rest Hex) as [Hd He]; [| |exact Hmax|].
  { intros ex' Hex'. apply (literal_integer ip ex'); assumption. }
  { intros d Hdig. rewrite <- (append_empty_r (ip ++ String d EmptyString)).
    apply literal_integer; [|apply absent].
    apply DecimalDigits_snoc; [apply DecimalDigits_all, Hip | exact Hdig]. }
  assert (Hpt : match ex ++ rest with
                | String c _ => Ascii.eqb c "." = false
                | EmptyString => True
                end).
  { destruct Hex as [|ex Hex]; [|apply ExponentPart_starts, Hex].
    simpl String.append. rewrite append_empty_r in Hmax.
    destruct rest as [|c r']; [exact I|].
    destruct (Ascii.eqb_spec c ".") as [-> | _]; [|reflexivity]. exfalso.
    apply (no_longer_extension ip (String "." r') "." r' Hmax eq_refl); [simpl; lia|].
    replace (ip ++ ".") with (ip ++ "." ++ EmptyString ++ EmptyString) by reflexivity.
    apply literal_point; [exact Hip | apply absent | apply absent]. }
  rewrite append_assoc.
  destruct (DecimalDigits_start ip Hip) as (c & r & Hipeq & Hc).
  unfold StrUnsignedDecimalLiteral_prefix.
  assert (Hpre : String.prefix "Infinity" (ip ++ ex ++ rest) = false).
  { rewrite Hipeq. apply not_Infinity_prefix. auto. }
  rewrite Hpre.
  rewrite (read_digits_run ip _ 0 0 (DecimalDigits_all ip Hip) Hd).
  cbv beta iota.
  assert (Hlen : exists k, String.length ip = S k) by (rewrite Hipeq; simpl; eauto).
  destruct Hlen as [k Hlen]. cbn [Nat.add].
  remember (ex ++ rest) as t eqn:Ht.
  assert (Hm : match t with
               | String c0 r0 =>
                   if Ascii.eqb c0 "."
                   then read_digits r0 (0 * 10 ^ Z.of_nat (String.length ip) + digits_value ip) 0
                   else (0 * 10 ^ Z.of_nat (String.length ip) + digits_value ip, 0%nat, t)
               | EmptyString =>
                   (0 * 10 ^ Z.of_nat (String.length ip) + digits_value ip, 0%nat, t)
               end = (0 * 10 ^ Z.of_nat (String.length ip) + digits_value ip, 0%nat, t)).
  { destruct t as [|c0 r0]; [reflexivity|]. rewrite Hpt. reflexivity. }
  rewrite Hm. cbv beta iota. rewrite He. rewrite Hlen at 1.
  cbv beta iota zeta. f_equal.
  apply signed_Qeq.
  rewrite decimal_spec. change (Z.of_nat 0) with 0. rewrite Z.sub_0_r.
  replace (0 * 10 ^ Z.of_nat (String.length ip) + digits_value ip) with (digits_value ip)
    by ring.
  reflexivity.
Qed.

Lemma MV_literal (u : string) (v : Q) : MV u v -> StrUnsignedDecimalLiteral u.
Proof. intros [ip fp ex | fp ex | ip ex]; constructor; assumption. Qed.

(** The scanner reads the value of the longest leading literal. *)
Lemma scan_MV (neg : bool) (u rest : string) (v : Q) :
  MV u v -> no_longer u rest ->
  StrUnsignedDecimalLiteral_prefix neg (u ++ rest) =
  Some (binary64 (if neg then (- v)%Q else v)).
Proof.
  intros [ip fp ex Hip Hfp Hex | fp ex Hfp Hex | ip ex Hip Hex] Hmax.
  - apply scan_point; assumption.
  - apply scan_fraction; assumption.
  - apply scan_integer; assumption.
Qed.

Lemma Sign_strip (sign u rest : string) :
  Sign sign -> StrUnsignedDecimalLiteral u ->
  strip_sign ((sign ++ u) ++ rest) = (String.eqb sign "-", u ++ rest).
Proof.
  intros Hs Hu. destruct Hs; simpl String.append.
  - apply unsigned_literal_start, Hu.
  - reflexivity.
  - reflexivity.
Qed.

(** [parseFloat] reads the Number of the longest leading part of the
    string that is a StrDecimalLiteral. *)
Lemma parseFloat_longest_literal (s p : string) (n : num) :
  no_leading_white_space s -> longest_literal p s -> literal_number p n ->
  parseFloat s = Some n.
Proof.
  intros Hws ((rest & ->) & _ & Hmax) Hn.
  unfold parseFloat. rewrite (trimStart_id _ Hws). unfold StrDecimalLiteral_prefix.
  destruct Hn as [sign Hs | sign u v Hs Hv].
  - rewrite (Sign_strip sign "Infinity" rest Hs literal_Infinity).
    unfold StrUnsignedDecimalLiteral_prefix. rewrite prefix_app.
    destruct (String.eqb sign "-"); reflexivity.
  - rewrite (Sign_strip sign u rest Hs (MV_literal u v Hv)).
    apply scan_MV; [exact Hv|].
    intros u' rest' Heq Hu'.
    specialize (Hmax (sign ++ u') rest').
    rewrite !append_assoc, Heq in Hmax.
    specialize (Hmax eq_refl (literal_signed sign u' Hs Hu')).
    rewrite !append_length in Hmax. lia.
Qed.

Lemma app_prefix_longer (p p' rest rest' : string) (c : ascii) :
  p' ++ rest' = p ++ String c rest -> (String.length p < String.length p')%nat ->
  exists x, p' = p ++ String c x.
Proof.
  revert p'. induction p as [|a p IH]; intros p' H Hlen.
  - destruct p' as [|a' x]; [simpl in Hlen; lia|].
    simpl in H. injection H as -> _. exists x. reflexivity.
  - destruct p' as [|a' p0]; [simpl in Hlen; lia|].
    simpl in H. injection H as -> H. simpl in Hlen.
    destruct (IH p0 H) as [x ->]; [lia|]. exists x. reflexivity.
Qed.

(** A literal followed by nothing, or by a character no literal is
    written with, is the longest leading literal. *)
Lemma longest_literal_stop (p rest : string) :
  StrDecimalLiteral p ->
  match rest with String c _ => literal_char c = false | EmptyString => True end ->
  longest_literal p (p ++ rest).
Proof.
  intros Hp Hrest. split; [exists rest; reflexivity|]. split; [exact Hp|].
  intros p' rest' Heq Hp'.
  destruct (le_lt_dec (String.length p') (String.length p)) as [Hle | Hlt]; [exact Hle|].
  exfalso. destruct rest as [|c r].
  - apply (f_equal String.length) in Heq. rewrite !append_length in Heq. simpl in Heq. lia.
  - destruct (app_prefix_longer p p' r rest' c (eq_sym Heq) Hlt) as [x ->].
    apply StrDecimalLiteral_chars in Hp'. rewrite all_chars_app in Hp'.
    apply andb_true_iff in Hp' as [_ Hp']. simpl in Hp'. rewrite Hrest in Hp'.
    discriminate Hp'.
Qed.

(** C1, as the code has it.  For every raw quantity string, once trimmed:
    when it is empty, "Missing aantal." is pushed and the quantity is
    none.  Otherwise the first comma is replaced by a point and
    [parseFloat] reads the longest leading part that is a decimal
    literal, whatever follows it: when no leading part is one,
    "Aantal is not a number." is pushed and the quantity is none; when
    one is, nothing is pushed and the quantity is the Number of the
    longest one, that is, its value rounded to binary64, or an infinity
    for [Infinity]; rounding takes the closest binary64 number, the even
    one of two equally close, and an infinity from the overflow
    threshold on.  So "12,5" gives 12.5, ",5" gives 0.5, "abc" gives
    none with the warning, and "12abc" gives 12 with no warning. *)
Theorem parseAantal_reads_numeric_prefix (q : string) (ws : list string) :
  let raw := trim q in
  let normalized := replace_first "," "." raw in
  (raw = EmptyString -> parseAantal raw ws = (None, (ws ++ ["Missing aantal."])%list)) /\
  (raw <> EmptyString -> ~ has_numeric_prefix normalized ->
   parseAantal raw ws = (None, (ws ++ ["Aantal is not a number."])%list)) /\
  (raw <> EmptyString -> has_numeric_prefix normalized ->
   exists n, parseFloat normalized = Some n /\ parseAantal raw ws = (Some n, ws)) /\
  (raw <> EmptyString ->
   forall p n, longest_literal p normalized -> literal_number p n ->
     parseAantal raw ws = (Some n, ws)) /\
  (forall v, rounded_to_binary64 v (binary64 v)) /\
  parseAantal "12,5" ws = (Some (Fin (25 # 2)), ws) /\
  parseAantal ",5" ws = (Some (Fin (1 # 2)), ws) /\
  parseAantal "abc" ws = (None, (ws ++ ["Aantal is not a number."])%list) /\
  parseAantal "12abc" ws = (Some (Fin 12), ws).
Proof.
  intros raw normalized.
  assert (Hws : no_leading_white_space normalized).
  { apply replace_comma_no_leading_white_space, trim_no_leading_white_space. }
  pose proof (parseFloat_NaN_iff normalized) as HNaN.
  rewrite (trimStart_id _ Hws) in HNaN.
  unfold parseAantal. fold normalized.
  split; [|split; [|split; [|split; [|split; [exact binary64_rounded | repeat split]]]]].
  - intros ->. reflexivity.
  - intros Hne Hno.
    destruct (nonempty raw) eqn:Hr; [|apply nonempty_false in Hr; contradiction].
    simpl. apply HNaN in Hno. rewrite Hno. reflexivity.
  - intros Hne Hyes.
    destruct (nonempty raw) eqn:Hr; [|apply nonempty_false in Hr; contradiction].
    simpl. destruct (parseFloat normalized) as [n|].
    + exists n. auto.
    + exfalso. apply (proj1 HNaN); [reflexivity | exact Hyes].
  - intros Hne p n Hp Hn.
    destruct (nonempty raw) eqn:Hr; [|apply nonempty_false in Hr; contradiction].
    simpl. rewrite (parseFloat_longest_literal normalized p n Hws Hp Hn). reflexivity.
Qed.

Lemma parseAantal_reads_numeric_prefix_witness :
  parseAantal "-1,5e3 stuks" [] = (Some (Fin (- 1500)), []).
Proof.
  apply (proj1 (proj2 (proj2 (proj2
           (parseAantal_reads_numeric_prefix " -1,5e3 stuks " []))))
           ltac:(discriminate) "-1.5e3"
           (binary64 (if String.eqb "-" "-"
                      then - ((inject_Z (digits_value "1") + fraction_value "5")
                              * 10 ^ exponent_value "e3")
                      else (inject_Z (digits_value "1") + fraction_value "5")
                           * 10 ^ exponent_value "e3"))).
  - apply (longest_literal_stop "-1.5e3" " stuks"); [|reflexivity].
    apply (literal_signed "-" "1.5e3"); [constructor|].
    apply (literal_point "1" "5" "e3"); [apply digits_one; reflexivity | |].
    + apply present, digits_one. reflexivity.
    + apply present, (exponent_part "e" EmptyString "3");
        [left; reflexivity | constructor | apply digits_one; reflexivity].
  - apply (number_decimal "-" "1.5e3").
    + constructor.
    + apply (MV_point "1" "5" "e3"); [apply digits_one; reflexivity | |].
      * apply present, digits_one. reflexivity.
      * apply present, (exponent_part "e" EmptyString "3");
          [left; reflexivity | constructor | apply digits_one; reflexivity].
Defined.

(** C1, as the claim states it, fails: "12abc" is not a number, yet its
    quantity is 12 and no warning is pushed. *)
Lemma parseAantal_text_after_number :
  ~ StrDecimalLiteral "12abc" /\
  replace_first "," "." (trim "12abc") = "12abc" /\
  parseAantal (trim "12abc") [] = (Some (Fin 12), []).
Proof.
  split; [|split; reflexivity].
  intros H. apply StrDecimalLiteral_chars in H. discriminate H.
Qed.

(** ** Dedupe store *)

Lemma addNote_known (meta : Meta.t) (st : State) (idx : nat) (note : Note.t) :
  noteKey meta note ∈ dedupe st -> addNote meta st idx note = st.
Proof. intros H. unfold addNote. rewrite decide_True by exact H. reflexivity. Qed.

Lemma addNote_fresh (meta : Meta.t) (st : State) (idx : nat) (note : Note.t) :
  noteKey meta note ∉ dedupe st ->
  addNote meta st idx note =
  mkState (rows st ++ [Row.mk (nextId st) (deriveFields note meta) note meta idx])%list
    ({[ noteKey meta note ]} ∪ dedupe st) (storage st) (S (nextId st)) (toasts st).
Proof. intros H. unfold addNote. rewrite decide_False by exact H. reflexivity. Qed.

Lemma addNote_dedupe_mono (meta : Meta.t) (st : State) (idx : nat) (note : Note.t) :
  dedupe st ⊆ dedupe (addNote meta st idx note) /\
  noteKey meta note ∈ dedupe (addNote meta st idx note).
Proof.
  unfold addNote. destruct (decide (noteKey meta note ∈ dedupe st)); simpl; set_solver.
Qed.

Lemma addNote_inv (meta : Meta.t) (st : State) (idx : nat) (note : Note.t) :
  store_inv st -> store_inv (addNote meta st idx note).
Proof.
  intros [Hnd Hrec].
  destruct (decide (noteKey meta note ∈ dedupe st)) as [Hin | Hout].
  - rewrite addNote_known by exact Hin. split; assumption.
  - rewrite addNote_fresh by exact Hout. split; simpl.
    + rewrite fmap_app. apply NoDup_app. split; [exact Hnd|]. split.
      * intros k Hk Hk'. apply list_elem_of_singleton in Hk'. subst k.
        apply list_elem_of_fmap in Hk as (r & Hr & Hin).
        apply Hout. change (noteKey meta note) with
          (rawKey (Row.mk (nextId st) (deriveFields note meta) note meta idx)).
        rewrite Hr. apply Hrec, Hin.
      * apply NoDup_singleton.
    + intros r Hr. apply elem_of_app in Hr as [Hr | Hr].
      * apply elem_of_union_r, Hrec, Hr.
      * apply list_elem_of_singleton in Hr. subst r.
        apply elem_of_union_l, elem_of_singleton. reflexivity.
Qed.

Lemma forEach_addNote_inv (meta : Meta.t) (notes : list Note.t) (idx : nat) (st : State) :
  store_inv st -> store_inv (forEach_addNote meta notes idx st).
Proof.
  revert idx st. induction notes as [|note rest IH]; intros idx st H; simpl; [exact H|].
  apply IH, addNote_inv, H.
Qed.

(** Within a session no two rows ever share a key: every call of
    [addNotes] keeps the invariant, and a page loaded over an empty
    storage starts with it. *)
Lemma addNotes_inv (notes : list Note.t) (meta : Meta.t) (st : State) :
  store_inv st -> store_inv (addNotes notes meta st).
Proof. intros H. unfold addNotes. apply (forEach_addNote_inv meta notes 0 st H). Qed.

Lemma pageLoad_empty_inv (ids : nat) : store_inv (restart (pageLoad None ids)).
Proof. split; simpl; [constructor | intros r Hr; inversion Hr]. Qed.

Lemma forEach_addNote_dedupe (meta : Meta.t) (notes : list Note.t) (idx : nat) (st : State) :
  dedupe st ⊆ dedupe (forEach_addNote meta notes idx st) /\
  forall note, note ∈ notes -> noteKey meta note ∈ dedupe (forEach_addNote meta notes idx st).
Proof.
  revert idx st. induction notes as [|note rest IH]; intros idx st; simpl.
  - split; [set_solver | intros n Hn; inversion Hn].
  - destruct (IH (S idx) (addNote meta st idx note)) as [Hsub Hall].
    destruct (addNote_dedupe_mono meta st idx note) as [Hsub' Hin'].
    split; [transitivity (dedupe (addNote meta st idx note)); assumption|].
    intros n Hn. apply elem_of_cons in Hn as [-> | Hn]; [apply Hsub, Hin' | auto].
Qed.

Lemma forEach_addNote_known (meta : Meta.t) (notes : list Note.t) (idx : nat) (st : State) :
  (forall note, note ∈ notes -> noteKey meta note ∈ dedupe st) ->
  forEach_addNote meta notes idx st = st.
Proof.
  revert idx. induction notes as [|note rest IH]; intros idx H; simpl; [reflexivity|].
  rewrite addNote_known by (apply H; left). apply IH.
  intros n Hn. apply H. right. exact Hn.
Qed.

(** Admitting the same notes of a page a second time in one session
    changes nothing: no row is made, no warning is added. *)
Lemma addNotes_again (notes : list Note.t) (meta : Meta.t) (st : State) :
  addNotes notes meta (addNotes notes meta st) = addNotes notes meta st.
Proof.
  unfold addNotes.
  destruct (forEach_addNote_dedupe meta notes 0 st) as [_ Hall].
  set (st' := forEach_addNote meta notes 0 st) in *.
  rewrite (forEach_addNote_known meta notes 0 (saveRows st')) by exact Hall.
  reflexivity.
Qed.

(** Of two notes with one key on the same page only the first becomes a
    row. *)
Lemma addNotes_same_key (n1 n2 : Note.t) (meta : Meta.t) (st : State) :
  noteKey meta n1 = noteKey meta n2 ->
  rows (addNotes [n1; n2] meta st) = rows (addNotes [n1] meta st).
Proof.
  intros Hk. unfold addNotes. simpl forEach_addNote.
  rewrite (addNote_known meta (addNote meta st 0 n1) 1 n2); [reflexivity|].
  rewrite <- Hk. apply addNote_dedupe_mono.
Qed.

(** [clearAll] empties the rows and the dedupe store together. *)
Lemma clearAll_inv (st : State) :
  store_inv (clearAll st) /\ rows (clearAll st) = [] /\ dedupe (clearAll st) = ∅ /\
  storage (clearAll st) = Some [].
Proof.
  repeat split; simpl; [constructor | intros r Hr; inversion Hr].
Qed.

Lemma foldl_rowKey_elem (rs : list Row.t) (d : gset string) (k : string) :
  k ∈ foldl (fun d r => {[ rowKey r ]} ∪ d) d rs <->
  k ∈ d \/ exists r, r ∈ rs /\ k = rowKey r.
Proof.
  revert d. induction rs as [|r rs IH]; intros d; simpl.
  - split; [auto | intros [H | (r & Hr & _)]; [exact H | inversion Hr]].
  - rewrite IH, elem_of_union, elem_of_singleton. split.
    + intros [[-> | H] | (r' & Hr' & ->)].
      * right. exists r. split; [left | reflexivity].
      * left. exact H.
      * right. exists r'. split; [right; exact Hr' | reflexivity].
    + intros [H | (r' & Hr' & ->)]; [left; right; exact H|].
      apply elem_of_cons in Hr' as [-> | Hr']; [left; left; reflexivity|].
      right. exists r'. auto.
Qed.

Lemma rowKey_jsonRoundTrip (r : Row.t) : rowKey (jsonRoundTrip r) = rowKey r.
Proof. reflexivity. Qed.

(** The key recomputed from a stored row is the key of its note when the
    note carried no padding. *)
Lemma rowKey_unpadded (note : Note.t) (meta : Meta.t) (id idx : nat) :
  unpadded note ->
  rowKey (Row.mk id (deriveFields note meta) note meta idx) = noteKey meta note.
Proof.
  intros (Hd & Ha & Hu). unfold rowKey, noteKey. rewrite deriveFields_unfold. simpl.
  rewrite Hd, Ha, Hu. reflexivity.
Qed.

(** After a restart a stored note without padding is still rejected. *)
Lemma restart_rejects_unpadded (st : State) (note : Note.t) (meta : Meta.t) (id idx : nat) :
  unpadded note ->
  storage st = Some (rows st) ->
  Row.mk id (deriveFields note meta) note meta idx ∈ rows st ->
  rows (addNotes [note] meta (restart st)) = rows (restart st).
Proof.
  intros Hu Hs Hin. unfold addNotes. simpl forEach_addNote.
  rewrite addNote_known; [reflexivity|].
  unfold restart, loadStoredRows. simpl. rewrite Hs. simpl.
  apply foldl_rowKey_elem. right.
  exists (jsonRoundTrip (Row.mk id (deriveFields note meta) note meta idx)). split.
  - apply list_elem_of_In, in_map, list_elem_of_In, Hin.
  - rewrite rowKey_jsonRoundTrip. symmetry. apply rowKey_unpadded, Hu.
Qed.

(** C2, at the failing input.  A note whose date has a leading space is
    admitted and stored; [addNotes] recorded the key of the note as
    received, but after a restart [loadStoredRows] records the key of the
    trimmed fields, so the same note is admitted a second time: two
    stored rows share one key. *)
Theorem restart_readmits_padded_note :
  let st1 := addNotes [padded_note] test_pdf (restart (pageLoad None 0)) in
  let st2 := addNotes [padded_note] test_pdf (restart st1) in
  rawKey <$> rows st1 = ["test.pdf|1| 01-01-2024|10|E28"] /\
  rowKey <$> rows st1 = ["test.pdf|1|01-01-2024|10|E28"] /\
  rows (addNotes [padded_note] test_pdf st1) = rows st1 /\
  rawKey <$> rows st2 =
    ["test.pdf|1| 01-01-2024|10|E28"; "test.pdf|1| 01-01-2024|10|E28"] /\
  storage st2 = Some (rows st2) /\
  ~ store_inv st2.
Proof.
  repeat split; try (vm_compute; reflexivity).
  intros [Hnd _]. vm_compute in Hnd.
  apply NoDup_cons in Hnd as [Hnot _]. apply Hnot. left.
Qed.

(** C10.  The key is not injective: for any file and page, a note whose
    date holds a '|' and the note that has the part after it at the head
    of its quantity instead are different notes with the same key, so of
    the two only the first becomes a row. *)
Theorem noteKey_not_injective (meta : Meta.t) (x y z u : string) :
  let n1 := Note.mk (Some (x ++ "|" ++ y)) (Some z) (Some u) None None in
  let n2 := Note.mk (Some x) (Some (y ++ "|" ++ z)) (Some u) None None in
  n1 <> n2 /\
  Note.datum n1 <> Note.datum n2 /\
  noteKey meta n1 = noteKey meta n2 /\
  rows (addNotes [n1; n2] meta (restart (pageLoad None 0))) =
    [Row.mk 0 (deriveFields n1 meta) n1 meta 0].
Proof.
  intros n1 n2.
  assert (Hd : Note.datum n1 <> Note.datum n2).
  { simpl. intros H. injection H as H. apply (f_equal String.length) in H.
    rewrite append_length in H. simpl in H. lia. }
  assert (Hk : noteKey meta n1 = noteKey meta n2).
  { unfold noteKey. simpl or_empty. repeat rewrite append_assoc. reflexivity. }
  split; [intros H; apply Hd; rewrite H; reflexivity|].
  split; [exact Hd|]. split; [exact Hk|].
  unfold addNotes. simpl forEach_addNote.
  rewrite (addNote_fresh meta _ 0 n1) by (simpl; apply not_elem_of_empty).
  rewrite addNote_known; [reflexivity|].
  simpl. rewrite <- Hk. apply elem_of_union_l, elem_of_singleton. reflexivity.
Qed.

(** ** Page task *)

Lemma addNotes_nil (meta : Meta.t) (st : State) : addNotes [] meta st = saveRows st.
Proof. reflexivity. Qed.

(** C8.  For every payload of a successful response that is not [null]
    and whose [notes] is absent or is not an array: the page task
    completes normally, no row is added, the dedupe store is unchanged
    and no notice is shown. *)
Theorem handlePage_notes_not_array
    (st : State) (meta : Meta.t) (status : nat) (data : value) :
  data <> VNull ->
  (forall l, get_notes data <> Normal (Some (VArray l))) ->
  exists st',
    handlePage true (Fetched true status (Some data)) meta st = (Normal tt, st') /\
    rows st' = rows st /\ dedupe st' = dedupe st /\ toasts st' = toasts st.
Proof.
  intros Hnull Harr. unfold handlePage, callExtractApi.
  destruct (get_notes data) as [notes | e] eqn:Hget.
  - destruct notes as [v|]; [|simpl; eexists; split; [reflexivity | auto]].
    destruct v as [ | b | q | s | l | props]; simpl;
      try (exfalso; apply (Harr l); reflexivity);
      try match goal with |- context [if ?b then _ else _] => destruct b end;
      simpl; eexists; (split; [reflexivity | auto]).
  - destruct data; try discriminate Hget. contradiction.
Qed.

Lemma handlePage_notes_not_array_witness :
  exists st',
    handlePage true (Fetched true 200 (Some notes_as_text)) test_pdf
      (restart (pageLoad None 0)) = (Normal tt, st') /\
    rows st' = [] /\ dedupe st' = ∅ /\ toasts st' = [].
Proof.
  apply (handlePage_notes_not_array (restart (pageLoad None 0)) test_pdf 200 notes_as_text).
  - discriminate.
  - intros l H. vm_compute in H. discriminate H.
Defined.

(** A [null] payload is a failure of the task, as any malformed payload
    is. *)
Lemma handlePage_null_payload (st : State) (meta : Meta.t) (status : nat) :
  handlePage true (Fetched true status (Some VNull)) meta st =
  (Throw "TypeError", showToast "Network/API error. Please retry." st).
Proof. reflexivity. Qed.

(** ** CSV cells *)

Lemma unescapeQuoted_doubled (s : string) :
  unescapeQuoted
    (replace_all quote (String quote (String quote EmptyString)) s
     ++ String quote EmptyString) = Some s.
Proof.
  induction s as [|c r IH]; [reflexivity|].
  simpl replace_all. destruct (Ascii.eqb_spec c quote) as [-> | Hne].
  - change (unescapeQuoted (String quote (String quote
              (replace_all quote (String quote (String quote EmptyString)) r
               ++ String quote EmptyString))) = Some (String quote r)).
    simpl. rewrite IH. reflexivity.
  - simpl. apply Ascii.eqb_neq in Hne. rewrite Hne, IH. reflexivity.
Qed.

Lemma includes_first (c : ascii) (r : string) (a : ascii) :
  includes a (String c r) = false -> Ascii.eqb c a = false.
Proof. simpl. intros H. apply orb_false_iff in H as [H _]. exact H. Qed.

(** Reading back any exported cell gives the string that was
    exported. *)
Lemma parseCsvCell_formatCsvValue (s : string) :
  parseCsvCell (formatCsvValue (Some s)) = Some s.
Proof.
  unfold formatCsvValue.
  destruct (includes "," s || includes quote s) eqn:H.
  - simpl. apply unescapeQuoted_doubled.
  - apply orb_false_iff in H as [_ H].
    destruct s as [|c r]; [reflexivity|].
    simpl. rewrite (includes_first c r quote H). reflexivity.
Qed.

(** C9.  For every string that holds a comma or a quote: the exported
    cell is the string between two quotes with each of its quotes
    doubled, and reading the cell back, taking the outer quotes off and
    each doubled quote for one, gives the string again. *)
Theorem formatCsvValue_round_trip (s : string) :
  includes "," s = true \/ includes quote s = true ->
  formatCsvValue (Some s) =
    String quote (replace_all quote (String quote (String quote EmptyString)) s
                  ++ String quote EmptyString) /\
  parseCsvCell (formatCsvValue (Some s)) = Some s.
Proof.
  intros H. split; [|apply parseCsvCell_formatCsvValue].
  unfold formatCsvValue.
  destruct H as [-> | ->]; [reflexivity | rewrite orb_true_r; reflexivity].
Qed.

Lemma formatCsvValue_round_trip_witness :
  formatCsvValue (Some "12,5") = String quote ("12,5" ++ String quote EmptyString) /\
  parseCsvCell (formatCsvValue (Some "12,5")) = Some "12,5".
Proof. apply (formatCsvValue_round_trip "12,5"). left. reflexivity. Defined.

(** ** Scheduler *)

Lemma buildTasks_length (i : nat) (numPages : list nat) :
  length (buildTasks i numPages) = totalPages numPages.
Proof.
  revert i. induction numPages as [|n rest IH]; intros i; simpl; [reflexivity|].
  rewrite length_app, length_map, length_seq, IH. reflexivity.
Qed.

Lemma filter_ne_absent (i : nat) (l : list nat) :
  i ∉ l -> filter (fun j => j <> i) l = l.
Proof.
  induction l as [|a l IH]; intros H; [reflexivity|].
  apply not_elem_of_cons in H as [Hne Hl].
  rewrite filter_cons_True by congruence. rewrite IH by exact Hl. reflexivity.
Qed.

Lemma filter_ne_length (i : nat) (l : list nat) :
  NoDup l -> i ∈ l -> S (length (filter (fun j => j <> i) l)) = length l.
Proof.
  induction l as [|a l IH]; intros Hnd Hin; [inversion Hin|].
  apply NoDup_cons in Hnd as [Ha Hnd].
  destruct (decide (a = i)) as [-> | Hne].
  - rewrite filter_cons_False by (intros H; apply H; reflexivity).
    rewrite filter_ne_absent by exact Ha. reflexivity.
  - rewrite filter_cons_True by exact Hne. simpl. f_equal. apply IH; [exact Hnd|].
    apply elem_of_cons in Hin as [-> | Hin]; [contradiction | exact Hin].
Qed.

Lemma existsb_eqb_elem (i : nat) (l : list nat) :
  existsb (Nat.eqb i) l = true <-> i ∈ l.
Proof.
  rewrite existsb_exists, list_elem_of_In. split.
  - intros (x & Hx & Heq). apply Nat.eqb_eq in Heq. subst x. exact Hx.
  - intros H. exists i. split; [exact H | apply Nat.eqb_refl].
Qed.

Lemma loop_condition_true (tasks : list Task.t) (s : Run.t) :
  loop_condition tasks s = true <->
  (Run.running s < concurrency)%nat /\ (Run.cursor s < length tasks)%nat.
Proof.
  unfold loop_condition. rewrite andb_true_iff, !Nat.ltb_lt. reflexivity.
Qed.

Lemma run_inv_start (tasks : list Task.t) : run_inv tasks (start tasks).
Proof.
  unfold start, runNext, initial. simpl.
  destruct (length tasks <=? 0)%nat eqn:Hn; simpl.
  - apply Nat.leb_le in Hn.
    constructor; simpl; try (unfold concurrency; lia); try discriminate.
    + reflexivity.
    + constructor.
    + intros i Hi. inversion Hi.
  - apply Nat.leb_gt in Hn.
    constructor; simpl; try (unfold concurrency; lia); try discriminate.
    + reflexivity.
    + constructor.
    + intros i Hi. inversion Hi.
Qed.

Lemma run_inv_dispatch (tasks : list Task.t) (s : Run.t) :
  run_inv tasks s -> Run.in_runNext s = true -> loop_condition tasks s = true ->
  run_inv tasks (dispatch tasks s).
Proof.
  intros [Hrun Hbound Hcur Hst Hproc Hnd Hlt Hdone Hbusy Hwait] Hin Hloop.
  apply loop_condition_true in Hloop as [Hfree Hmore].
  unfold dispatch.
  destruct (lookup_lt_is_Some_2 tasks (Run.cursor s) Hmore) as [task Htask].
  rewrite Htask.
  assert (Hprog : Run.inProgress s = true).
  { destruct (Run.inProgress s) eqn:Hp; [reflexivity|].
    destruct (Hdone eq_refl) as [H _]. congruence. }
  constructor; simpl.
  - rewrite length_app. simpl. lia.
  - lia.
  - lia.
  - rewrite (take_S_r _ _ _ Htask), Hst. reflexivity.
  - lia.
  - apply NoDup_app. split; [exact Hnd|]. split; [|apply NoDup_singleton].
    intros i Hi Hi'. apply list_elem_of_singleton in Hi'. subst i.
    apply Hlt in Hi. lia.
  - intros i Hi. apply elem_of_app in Hi as [Hi | Hi].
    + apply Hlt in Hi. lia.
    + apply list_elem_of_singleton in Hi. lia.
  - congruence.
  - intros _. right. lia.
  - discriminate.
Qed.

Lemma run_inv_leave (tasks : list Task.t) (s : Run.t) :
  run_inv tasks s -> Run.in_runNext s = true -> loop_condition tasks s = false ->
  run_inv tasks (leave s).
Proof.
  intros [Hrun Hbound Hcur Hst Hproc Hnd Hlt Hdone Hbusy Hwait] Hin Hloop.
  assert (Hexit : ~ ((Run.running s < concurrency)%nat /\ (Run.cursor s < length tasks)%nat)).
  { intros H. apply loop_condition_true in H. congruence. }
  constructor; simpl; try assumption.
  - intros Hp. destruct (Hdone Hp) as (_ & H2 & H3). auto.
  - intros _ Hp. unfold concurrency in *. destruct (Hbusy Hp) as [H | H]; lia.
Qed.

Lemma run_inv_settle (tasks : list Task.t) (s : Run.t) (i : nat) (fulfilled : bool) :
  run_inv tasks s -> Run.in_runNext s = false -> i ∈ Run.pending s ->
  run_inv tasks (runNext tasks (settle i fulfilled s)).
Proof.
  intros [Hrun Hbound Hcur Hst Hproc Hnd Hlt Hdone Hbusy Hwait] Hin Hi.
  pose proof (filter_ne_length i (Run.pending s) Hnd Hi) as Hlen.
  assert (Hprog : Run.inProgress s = true).
  { destruct (Run.inProgress s) eqn:Hp; [reflexivity|].
    destruct (Hdone eq_refl) as (_ & _ & H0). lia. }
  unfold runNext, settle. simpl.
  destruct ((length tasks <=? Run.cursor s)%nat && (Run.running s - 1 =? 0)%nat) eqn:Hend.
  - apply andb_true_iff in Hend as [Hc Hr].
    apply Nat.leb_le in Hc. apply Nat.eqb_eq in Hr.
    constructor; simpl; first
      [ exact Hst
      | apply NoDup_filter, Hnd
      | intros j Hj; apply list_elem_of_filter in Hj as [_ Hj]; apply Hlt, Hj
      | discriminate
      | intros _; repeat split; lia
      | lia ].
  - apply andb_false_iff in Hend.
    constructor; simpl; first
      [ exact Hst
      | apply NoDup_filter, Hnd
      | intros j Hj; apply list_elem_of_filter in Hj as [_ Hj]; apply Hlt, Hj
      | discriminate
      | congruence
      | intros _; destruct Hend as [Hc | Hr];
        [ apply Nat.leb_gt in Hc; left; lia | apply Nat.eqb_neq in Hr; right; lia ]
      | lia ].
Qed.

Lemma run_inv_next (tasks : list Task.t) (e : event) (s s' : Run.t) :
  run_inv tasks s -> next tasks e s = Some s' -> run_inv tasks s'.
Proof.
  intros Hinv Hnext. destruct e as [|i fulfilled]; simpl in Hnext.
  - destruct (Run.in_runNext s) eqn:Hin; [|discriminate].
    injection Hnext as <-.
    destruct (loop_condition tasks s) eqn:Hloop.
    + apply run_inv_dispatch; assumption.
    + apply run_inv_leave; assumption.
  - destruct (Run.in_runNext s) eqn:Hin; [discriminate|]. simpl in Hnext.
    destruct (existsb (Nat.eqb i) (Run.pending s)) eqn:Hi; [|discriminate].
    injection Hnext as <-. apply existsb_eqb_elem in Hi.
    apply run_inv_settle; assumption.
Qed.

Lemma reachable_inv (tasks : list Task.t) (s : Run.t) :
  reachable tasks s -> run_inv tasks s.
Proof.
  induction 1 as [|s s' _ IH [e He]]; [apply run_inv_start|].
  exact (run_inv_next tasks e s s' IH He).
Qed.

Lemma steps_left_next (tasks : list Task.t) (e : event) (s s' : Run.t) :
  run_inv tasks s -> next tasks e s = Some s' ->
  (steps_left tasks s' < steps_left tasks s)%nat.
Proof.
  intros [Hrun Hbound Hcur Hst Hproc Hnd Hlt Hdone Hbusy Hwait] Hnext.
  unfold steps_left. destruct e as [|i fulfilled]; simpl in Hnext.
  - destruct (Run.in_runNext s) eqn:Hin; [|discriminate].
    injection Hnext as <-.
    destruct (loop_condition tasks s) eqn:Hloop.
    + apply loop_condition_true in Hloop as [Hfree Hmore].
      unfold dispatch.
      destruct (lookup_lt_is_Some_2 tasks (Run.cursor s) Hmore) as [task ->].
      simpl. lia.
    + simpl. lia.
  - destruct (Run.in_runNext s) eqn:Hin; [discriminate|]. simpl in Hnext.
    destruct (existsb (Nat.eqb i) (Run.pending s)) eqn:Hi; [|discriminate].
    injection Hnext as <-. apply existsb_eqb_elem in Hi.
    assert (0 < Run.running s)%nat.
    { rewrite Hrun. destruct (Run.pending s); [inversion Hi | simpl; lia]. }
    unfold runNext, settle. simpl.
    destruct ((length tasks <=? Run.cursor s)%nat && (Run.running s - 1 =? 0)%nat);
      simpl; lia.
Qed.

Lemma next_processedPages (tasks : list Task.t) (e : event) (s s' : Run.t) :
  next tasks e s = Some s' ->
  Run.processedPages s' =
  match e with
  | Settle _ _ => S (Run.processedPages s)
  | Turn => Run.processedPages s
  end.
Proof.
  destruct e as [|i fulfilled]; simpl.
  - destruct (Run.in_runNext s); [|discriminate]. intros H. injection H as <-.
    destruct (loop_condition tasks s); [|reflexivity].
    unfold dispatch. destruct (tasks !! Run.cursor s); reflexivity.
  - destruct (negb (Run.in_runNext s) && existsb (Nat.eqb i) (Run.pending s));
      [|discriminate].
    intros H. injection H as <-. unfold runNext, settle. simpl.
    destruct ((length tasks <=? Run.cursor s)%nat && (Run.running s - 1 =? 0)%nat);
      reflexivity.
Qed.

(** A run that is not idle can always go on: the loop of [runNext] turns
    or ends, and in the event loop some task is pending. *)
Lemma run_progress (tasks : list Task.t) (s : Run.t) :
  run_inv tasks s -> idle s \/ exists s', step tasks s s'.
Proof.
  intros [Hrun Hbound Hcur Hst Hproc Hnd Hlt Hdone Hbusy Hwait].
  destruct (Run.in_runNext s) eqn:Hin.
  - right. eexists. exists Turn. simpl. rewrite Hin. reflexivity.
  - destruct (Run.inProgress s) eqn:Hp; [|left; split; assumption].
    right. destruct (Hwait eq_refl eq_refl) as [Hpos _].
    destruct (Run.pending s) as [|i rest] eqn:Hpend; [simpl in Hrun; lia|].
    eexists. exists (Settle i true). simpl. rewrite Hin, Hpend. simpl.
    rewrite Nat.eqb_refl. reflexivity.
Qed.

Lemma run_inv_inevitably_idle (tasks : list Task.t) (n : nat) (s : Run.t) :
  (steps_left tasks s < n)%nat -> run_inv tasks s -> inevitably_idle tasks s.
Proof.
  revert s. induction n as [|n IH]; intros s Hn Hinv; [lia|].
  destruct (run_progress tasks s Hinv) as [Hidle | Hstep].
  - apply idle_now, Hidle.
  - apply idle_later; [exact Hstep|].
    intros s' [e He]. apply IH.
    + pose proof (steps_left_next tasks e s s' Hinv He). lia.
    + exact (run_inv_next tasks e s s' Hinv He).
Qed.

Lemma run_reachable (tasks : list Task.t) (es : list event) (s s' : Run.t) :
  reachable tasks s -> run tasks es s = Some s' -> reachable tasks s'.
Proof.
  revert s. induction es as [|e es IH]; intros s Hs Hrun; simpl in Hrun.
  - injection Hrun as <-. exact Hs.
  - destruct (next tasks e s) as [s1|] eqn:He; [|discriminate].
    apply (IH s1); [|exact Hrun].
    apply (reachable_step tasks s s1 Hs). exists e. exact He.
Qed.

(** Over the flattened pages of the queued files, an idle run has
    processed [state.totalPages] pages. *)
Lemma processQueue_idle_totalPages (numPages : list nat) (s : Run.t) :
  reachable (buildTasks 0 numPages) s -> idle s ->
  Run.processedPages s = totalPages numPages.
Proof.
  intros Hreach [Hp _].
  destruct (reachable_inv _ _ Hreach) as [_ _ _ _ Hproc _ _ Hdone _ _].
  destruct (Hdone Hp) as (_ & Hc & Hr).
  rewrite <- (buildTasks_length 0 numPages). lia.
Qed.

(** C7.  At every moment of a run over the tasks of the queue, with the
    bound of 2: the tasks running are the pending ones and they are at
    most 2; the tasks called so far are the first [cursor] tasks of the
    list, in list order, so no task is called twice; while a task
    remains no slot stays free once [runNext] has returned; every
    settling, fulfilled or rejected, adds exactly one to the processed
    count and nothing else changes it; when the run is idle every task
    has been called, none is running and the processed count is the
    number of tasks; and, every pending task settling at some time, the
    run does become idle, whatever the order in which they settle. *)
Theorem processQueue_bounded_ordered_complete (tasks : list Task.t) (s : Run.t) :
  reachable tasks s ->
  ((Run.running s <= concurrency)%nat /\ length (Run.pending s) = Run.running s) /\
  (Run.started s = take (Run.cursor s) tasks /\ NoDup (Run.pending s)) /\
  (Run.in_runNext s = false -> (Run.cursor s < length tasks)%nat ->
   Run.running s = concurrency) /\
  (forall e s', next tasks e s = Some s' ->
     Run.processedPages s' =
     match e with
     | Settle _ _ => S (Run.processedPages s)
     | Turn => Run.processedPages s
     end) /\
  (idle s ->
   Run.processedPages s = length tasks /\ Run.started s = tasks /\
   Run.running s = 0%nat) /\
  inevitably_idle tasks s.
Proof.
  intros Hreach. pose proof (reachable_inv tasks s Hreach) as Hinv.
  pose proof Hinv as [Hrun Hbound Hcur Hst Hproc Hnd Hlt Hdone Hbusy Hwait].
  repeat split; auto.
  - intros Hin Hmore.
    destruct (Run.inProgress s) eqn:Hp.
    + destruct (Hwait Hin eq_refl) as [_ [H | H]]; [exact H | lia].
    + destruct (Hdone eq_refl) as (_ & H & _). lia.
  - intros e s'. apply next_processedPages.
  - destruct H as [Hp _]. destruct (Hdone Hp) as (_ & Hc & Hr). lia.
  - destruct H as [Hp _]. destruct (Hdone Hp) as (_ & Hc & Hr).
    rewrite Hst, Hc. apply take_ge. lia.
  - destruct H as [Hp _]. destruct (Hdone Hp) as (_ & Hc & Hr). exact Hr.
  - apply (run_inv_inevitably_idle tasks (S (steps_left tasks s))); [lia | exact Hinv].
Qed.

Lemma processQueue_bounded_ordered_complete_witness :
  exists s,
    run three_pages second_page_fails_first (start three_pages) = Some s /\
    idle s /\ Run.processedPages s = 3%nat /\ Run.started s = three_pages.
Proof.
  eexists. split; [vm_compute; reflexivity|].
  split; [split; reflexivity|].
  match goal with
  | |- Run.processedPages ?s = _ /\ _ =>
      assert (Hr : reachable three_pages s)
        by (apply (run_reachable three_pages second_page_fails_first (start three_pages));
            [apply reachable_start | vm_compute; reflexivity]);
      destruct (processQueue_bounded_ordered_complete three_pages s Hr)
        as (_ & _ & _ & _ & Hidle & _);
      destruct (Hidle (conj eq_refl eq_refl)) as (Hp & Hs & _)
  end.
  split; [exact Hp | exact Hs].
Defined.

(** * Further properties *)

(** ** Field derivation engine *)

Lemma trimEnd_fixed (s : string) : trimEnd (trimEnd s) = trimEnd s.
Proof.
  induction s as [|c r IH]; [reflexivity|].
  simpl. destruct (trimEnd r) as [|c' r'] eqn:Hr.
  - destruct (is_white_space c) eqn:Hc; [reflexivity|].
    simpl. rewrite Hc. reflexivity.
  - simpl. simpl in IH. rewrite IH. reflexivity.
Qed.

Lemma trim_fixed (s : string) : trim (trim s) = trim s.
Proof.
  unfold trim at 1. rewrite (trimStart_id (trim s)) by apply trim_no_leading_white_space.
  apply trimEnd_fixed.
Qed.

Lemma trimEnd_ends (s : string) : ends_with_white_space (trimEnd s) = false.
Proof.
  induction s as [|c r IH]; [reflexivity|].
  simpl. destruct (trimEnd r) as [|c' r'] eqn:Hr.
  - destruct (is_white_space c) eqn:Hc; [reflexivity | exact Hc].
  - exact IH.
Qed.

Lemma trim_starts (s : string) : starts_with_white_space (trim s) = false.
Proof.
  pose proof (trim_no_leading_white_space s) as H.
  destruct (trim s); [reflexivity | exact H].
Qed.

(** [deriveFields] reads a note through its three trimmed fields only. *)
Lemma deriveFields_ext (n1 n2 : Note.t) (meta : Meta.t) :
  trim (or_empty (Note.datum n1)) = trim (or_empty (Note.datum n2)) ->
  trim (or_empty (Note.aantal n1)) = trim (or_empty (Note.aantal n2)) ->
  trim (or_empty (Note.unit n1)) = trim (or_empty (Note.unit n2)) ->
  deriveFields n1 meta = deriveFields n2 meta.
Proof.
  intros Hd Ha Hu. rewrite !deriveFields_unfold. cbv zeta. rewrite Hd, Ha, Hu. reflexivity.
Qed.

(** X1.  The date, quantity and unit of a derived record neither start
    nor end with white space, and deriving again from these three stored
    fields gives the same record. *)
Theorem deriveFields_stored_fields_trimmed (note : Note.t) (meta : Meta.t) :
  let d := deriveFields note meta in
  (starts_with_white_space (Derived.datum d) = false /\
   ends_with_white_space (Derived.datum d) = false) /\
  (starts_with_white_space (Derived.aantal d) = false /\
   ends_with_white_space (Derived.aantal d) = false) /\
  (starts_with_white_space (Derived.unit d) = false /\
   ends_with_white_space (Derived.unit d) = false) /\
  deriveFields (note_of_derived d) meta = d.
Proof.
  intros d. subst d. rewrite (deriveFields_unfold note meta). cbv zeta.
  cbn [Derived.datum Derived.aantal Derived.unit].
  repeat split; try apply trim_starts; try apply trimEnd_ends.
  rewrite <- (deriveFields_unfold note meta).
  apply deriveFields_ext; simpl; rewrite (deriveFields_unfold note meta); simpl;
    apply trim_fixed.
Qed.

(** X2.  The warnings of a derived record are the warnings of the
    quantity followed by those of the unit.  The quantity gives none when
    it parsed, "Missing aantal." when the trimmed string is empty and
    "Aantal is not a number." otherwise, and the adjusted quantity is none
    exactly in the last two cases.  The unit gives none when it is valid
    and otherwise both "Unit format invalid." and
    "Unit invalid; hoogte_enkel missing.", in this order, and the single
    height is none exactly then. *)
Theorem deriveFields_warnings_shape (note : Note.t) (meta : Meta.t) :
  let d := deriveFields note meta in
  exists wa wu,
    Derived.warnings d = (wa ++ wu)%list /\
    ((wa = [] /\ Derived.aantal2 d <> None) \/
     (wa = ["Missing aantal."] /\ Derived.aantal d = EmptyString /\
      Derived.aantal2 d = None) \/
     (wa = ["Aantal is not a number."] /\ Derived.aantal d <> EmptyString /\
      Derived.aantal2 d = None)) /\
    ((wu = [] /\ Derived.hoogte_enkel d <> None) \/
     (wu = ["Unit format invalid."; "Unit invalid; hoogte_enkel missing."] /\
      Derived.hoogte_enkel d = None)).
Proof.
  intros d. subst d. rewrite deriveFields_unfold. cbv zeta.
  cbn [Derived.warnings Derived.aantal Derived.aantal2 Derived.hoogte_enkel].
  set (ra := trim (or_empty (Note.aantal note))).
  set (ru := trim (or_empty (Note.unit note))).
  assert (Hu : forall ws,
             (UnitInfo.valid (fst (parseUnit ru ws)) = true /\ snd (parseUnit ru ws) = ws) \/
             (UnitInfo.valid (fst (parseUnit ru ws)) = false /\
              snd (parseUnit ru ws) = (ws ++ ["Unit format invalid."])%list)).
  { intros ws. unfold parseUnit. simpl. destruct (unit_pattern_test ru); auto. }
  assert (Ha : (exists a, parseAantal ra [] = (Some a, [])) \/
               (ra = EmptyString /\ parseAantal ra [] = (None, ["Missing aantal."])) \/
               (ra <> EmptyString /\ parseAantal ra [] = (None, ["Aantal is not a number."]))).
  { unfold parseAantal. destruct ra as [|c r]; simpl; [right; left; auto|].
    destruct (parseFloat _) as [a|]; [left; eauto | right; right; split; [discriminate | reflexivity]]. }
  destruct Ha as [(a & Ha) | [(Hra & Ha) | (Hra & Ha)]]; rewrite Ha; cbn [fst snd];
    match goal with
    | |- context [parseUnit ru ?ws] =>
        destruct (Hu ws) as [[Hv Hw] | [Hv Hw]];
        pose proof (parseUnit_valid_digits ru ws) as Hdig;
        rewrite Hv in *; rewrite Hw; exists ws
    end.
  all: try (destruct (Hdig eq_refl) as (dg & -> & _));
    eexists; (split; [try reflexivity; try (rewrite <- app_assoc; reflexivity)|]).
  all: split;
    [ first [ left; split; [reflexivity | discriminate]
            | right; left; repeat split; assumption
            | right; right; repeat split; assumption ]
    | first [ left; split; [reflexivity | discriminate]
            | right; split; reflexivity ] ].
Qed.

(** X3.  Whatever the note, a single height is a multiple of 10 between 0
    and 990, and the stacked height is none exactly when the single
    height is.  A stacked height is twice a single height of at most 150
    or a single height above 150 unchanged, so it lies between the single
    height and 990 and, when it is at most 150, is a multiple of 20. *)
Theorem deriveFields_height_bounds (note : Note.t) (meta : Meta.t) :
  let d := deriveFields note meta in
  (Derived.hoogte_stack d = None <-> Derived.hoogte_enkel d = None) /\
  (forall h, Derived.hoogte_enkel d = Some h ->
     0 <= h <= 990 /\ h mod 10 = 0 /\
     exists k, Derived.hoogte_stack d = Some k /\
               ((k = 2 * h /\ h <= 150) \/ (k = h /\ 150 < h)) /\
               h <= k <= 990 /\ (k <= 150 -> k mod 20 = 0)).
Proof.
  intros d. subst d. rewrite deriveFields_unfold. cbv zeta.
  cbn [Derived.hoogte_enkel Derived.hoogte_stack].
  set (quantity := parseAantal _ _).
  set (ru := trim (or_empty (Note.unit note))).
  pose proof (parseUnit_valid_digits ru (snd quantity)) as Hdig.
  destruct (UnitInfo.valid (fst (parseUnit ru (snd quantity)))).
  - destruct (Hdig eq_refl) as (dg & -> & Hrange).
    split; [split; discriminate|].
    intros h Hh. injection Hh as <-.
    split; [lia|]. split; [apply Z.mod_mul; lia|].
    destruct (dg * 10 <=? 150) eqn:Hle.
    + apply Z.leb_le in Hle. eexists. split; [reflexivity|].
      split; [left; lia|]. split; [lia|]. intros _.
      replace (dg * 10 * 2) with (dg * 20) by lia. apply Z.mod_mul. lia.
    + apply Z.leb_gt in Hle. eexists. split; [reflexivity|].
      split; [right; lia|]. split; [lia|]. intros H. lia.
  - split; [split; reflexivity|]. intros h Hh. discriminate.
Qed.

Lemma deriveFields_height_bounds_witness :
  0 <= 150 <= 990 /\ 150 mod 10 = 0 /\
  exists k, Derived.hoogte_stack (deriveFields E15_9 test_pdf) = Some k /\
            ((k = 2 * 150 /\ 150 <= 150) \/ (k = 150 /\ 150 < 150)) /\
            150 <= k <= 990 /\ (k <= 150 -> k mod 20 = 0).
Proof.
  apply (proj2 (deriveFields_height_bounds E15_9 test_pdf) 150). reflexivity.
Defined.

Lemma Math_round_integer (n : Z) : Math_round (Fin (inject_Z n)) = Fin (inject_Z n).
Proof.
  unfold Math_round, num_of_Z. do 2 f_equal.
  unfold Qfloor, inject_Z, Qplus. simpl.
  symmetry. apply (Z.div_unique _ _ _ 1); lia.
Qed.

Lemma Math_round_half_integer (n : Z) :
  Math_round (half (Fin (inject_Z n))) = Fin (inject_Z ((n + 1) / 2)).
Proof.
  unfold Math_round, half, num_of_Z. do 2 f_equal.
  assert (H : (Qred (inject_Z n / 2) + (1 # 2) == (n + 1) # 2)%Q).
  { rewrite Qred_correct. unfold Qeq, Qdiv, Qmult, Qplus, Qinv, inject_Z. simpl. lia. }
  rewrite (Qfloor_comp _ _ H). reflexivity.
Qed.

(** X4.  When the quantity parses to a whole number [n]: under a single
    height of at most 150 the adjusted quantity is [n + 1] divided by 2
    and rounded down, so an odd quantity is rounded up to the next pair;
    in every other case the adjusted quantity is [n] itself. *)
Theorem deriveFields_whole_quantity (note : Note.t) (meta : Meta.t) (n : Z) :
  let d := deriveFields note meta in
  fst (parseAantal (trim (or_empty (Note.aantal note))) []) = Some (Fin (inject_Z n)) ->
  (forall h, Derived.hoogte_enkel d = Some h -> h <= 150 ->
     Derived.aantal2 d = Some (Fin (inject_Z ((n + 1) / 2)))) /\
  (Derived.hoogte_enkel d = None \/ (exists h, Derived.hoogte_enkel d = Some h /\ 150 < h) ->
   Derived.aantal2 d = Some (Fin (inject_Z n))).
Proof.
  intros d Hq. subst d. rewrite deriveFields_unfold. cbv zeta.
  cbn [Derived.hoogte_enkel Derived.aantal2]. rewrite Hq.
  set (enkel := if UnitInfo.valid _ then _ else None).
  split.
  - intros h -> Hle. apply Z.leb_le in Hle. rewrite Hle, Math_round_half_integer. reflexivity.
  - intros [-> | (h & -> & Hlt)]; [rewrite Math_round_integer; reflexivity|].
    apply Z.leb_gt in Hlt. rewrite Hlt, Math_round_integer. reflexivity.
Qed.

Lemma deriveFields_whole_quantity_witness :
  Derived.aantal2 (deriveFields E15_9 test_pdf) = Some (Fin (inject_Z ((9 + 1) / 2))) /\
  Derived.aantal2 (deriveFields E28_10 test_pdf) = Some (Fin (inject_Z 10)).
Proof.
  split.
  - apply (proj1 (deriveFields_whole_quantity E15_9 test_pdf 9 eq_refl) 150);
      [reflexivity | lia].
  - apply (proj2 (deriveFields_whole_quantity E28_10 test_pdf 10 eq_refl)).
    right. exists 280. split; [reflexivity | lia].
Defined.

(** ** Result store and dedupe store *)

Lemma clearAll_store_inv (st : State) : store_inv (clearAll st).
Proof. split; simpl; [constructor | intros r Hr; inversion Hr]. Qed.

Lemma session_snoc (ops : list store_op) (o : store_op) (st : State) :
  session (ops ++ [o]) st = apply_store_op (session ops st) o.
Proof. unfold session. rewrite foldl_app. reflexivity. Qed.

Lemma session_store_inv (ops : list store_op) (st : State) :
  store_inv st -> store_inv (session ops st).
Proof.
  revert st. induction ops as [|o ops IH]; intros st H; [exact H|].
  apply IH. destruct o as [notes meta|]; [apply addNotes_inv, H | apply clearAll_store_inv].
Qed.

(** X5.  In a session that starts on an empty storage, whatever pages
    arrive and whenever the store is cleared, no two rows share the key
    of their notes and the dedupe store holds the key of every row. *)
Theorem session_keys_distinct (ops : list store_op) (ids : nat) :
  let st := session ops (restart (pageLoad None ids)) in
  NoDup (rawKey <$> rows st) /\ (forall r, r ∈ rows st -> rawKey r ∈ dedupe st).
Proof. apply session_store_inv, pageLoad_empty_inv. Qed.

Lemma addNotes_dedupe (notes : list Note.t) (meta : Meta.t) (st : State) :
  dedupe st ⊆ dedupe (addNotes notes meta st) /\
  forall note, note ∈ notes -> noteKey meta note ∈ dedupe (addNotes notes meta st).
Proof. unfold addNotes. simpl. apply forEach_addNote_dedupe. Qed.

Lemma session_admits_dedupe (ops : list store_op) (st : State) :
  forallb is_Admit ops = true -> dedupe st ⊆ dedupe (session ops st).
Proof.
  revert st. induction ops as [|o ops IH]; intros st H; [reflexivity|].
  simpl in H. apply andb_true_iff in H as [Ho H].
  destruct o as [notes meta|]; [|discriminate].
  transitivity (dedupe (addNotes notes meta st)); [apply addNotes_dedupe | apply IH, H].
Qed.

(** X6.  Once a page of notes has been admitted, admitting the same page
    again later in the session, with any other pages admitted in between
    and no clearing, changes neither the rows nor the dedupe store. *)
Theorem addNotes_rerun_adds_nothing
    (notes : list Note.t) (meta : Meta.t) (ops : list store_op) (st : State) :
  forallb is_Admit ops = true ->
  let st1 := session ops (addNotes notes meta st) in
  rows (addNotes notes meta st1) = rows st1 /\
  dedupe (addNotes notes meta st1) = dedupe st1 /\
  toasts (addNotes notes meta st1) = toasts st1.
Proof.
  intros Hops st1.
  assert (Hknown : forall note, note ∈ notes -> noteKey meta note ∈ dedupe st1).
  { intros note Hn. apply (session_admits_dedupe ops _ Hops).
    apply addNotes_dedupe, Hn. }
  assert (Heq : addNotes notes meta st1 = saveRows st1).
  { unfold addNotes. rewrite (forEach_addNote_known meta notes 0 st1 Hknown). reflexivity. }
  rewrite Heq. repeat split.
Qed.

Lemma addNotes_rerun_adds_nothing_witness :
  let st1 := session [Admit [M15_8] test_pdf]
               (addNotes [E15_9; E2X_7] test_pdf (restart (pageLoad None 0))) in
  rows (addNotes [E15_9; E2X_7] test_pdf st1) = rows st1 /\
  dedupe (addNotes [E15_9; E2X_7] test_pdf st1) = dedupe st1 /\
  toasts (addNotes [E15_9; E2X_7] test_pdf st1) = toasts st1.
Proof.
  apply (addNotes_rerun_adds_nothing [E15_9; E2X_7] test_pdf [Admit [M15_8] test_pdf]).
  reflexivity.
Defined.

Lemma forEach_addNote_appends (meta : Meta.t) (notes : list Note.t) (idx : nat) (st : State) :
  exists new,
    rows (forEach_addNote meta notes idx st) = (rows st ++ new)%list /\
    (length new <= length notes)%nat /\
    nextId (forEach_addNote meta notes idx st) = (nextId st + length new)%nat /\
    storage (forEach_addNote meta notes idx st) = storage st /\
    toasts (forEach_addNote meta notes idx st) = toasts st /\
    forall r, r ∈ new ->
      Row.meta r = meta /\
      (idx <= Row.noteIndex r)%nat /\
      notes !! (Row.noteIndex r - idx)%nat = Some (Row.raw r) /\
      Row.derived r = deriveFields (Row.raw r) meta /\
      (nextId st <= Row.id r < nextId st + length new)%nat /\
      noteKey meta (Row.raw r) ∉ dedupe st.
Proof.
  revert idx st. induction notes as [|note rest IH]; intros idx st; simpl.
  - exists []. rewrite app_nil_r.
    split; [reflexivity|]. split; [simpl; lia|]. split; [simpl; lia|].
    split; [reflexivity|]. split; [reflexivity|]. intros r Hr. inversion Hr.
  - destruct (IH (S idx) (addNote meta st idx note))
      as (new & Hrows & Hlen & Hid & Hsto & Htoast & Hnew).
    destruct (decide (noteKey meta note ∈ dedupe st)) as [Hin | Hout].
    + rewrite addNote_known in * by exact Hin.
      exists new. split; [exact Hrows|]. split; [lia|]. split; [exact Hid|].
      split; [exact Hsto|]. split; [exact Htoast|].
      intros r Hr. destruct (Hnew r Hr) as (Hm & Hi & Hl & Hd & Hb & Hk).
      split; [exact Hm|]. split; [lia|]. split; [|auto].
      replace (Row.noteIndex r - idx)%nat with (S (Row.noteIndex r - S idx)) by lia.
      exact Hl.
    + rewrite addNote_fresh in * by exact Hout. simpl in *.
      exists (Row.mk (nextId st) (deriveFields note meta) note meta idx :: new).
      split; [rewrite Hrows, <- app_assoc; reflexivity|].
      split; [simpl; lia|]. split; [simpl; lia|].
      split; [exact Hsto|]. split; [exact Htoast|].
      intros r Hr. apply elem_of_cons in Hr as [-> | Hr]; simpl.
      * split; [reflexivity|]. split; [lia|].
        split; [rewrite Nat.sub_diag; reflexivity|].
        split; [reflexivity|]. split; [lia | exact Hout].
      * destruct (Hnew r Hr) as (Hm & Hi & Hl & Hd & Hb & Hk).
        split; [exact Hm|]. split; [lia|]. split.
        { replace (Row.noteIndex r - idx)%nat with (S (Row.noteIndex r - S idx)) by lia.
          exact Hl. }
        split; [exact Hd|]. split; [lia|].
        intros Hk'. apply Hk. apply elem_of_union_r, Hk'.
Qed.

(** X7.  [addNotes] only appends: the rows it finds stay in place and in
    order, at most one row per note is added, and every new row keeps the
    note it was derived from, the meta of the page, the position of the
    note in the page and an id not handed out before; its key was not in
    the dedupe store.  Toasts are untouched. *)
Theorem addNotes_appends (notes : list Note.t) (meta : Meta.t) (st : State) :
  exists new,
    rows (addNotes notes meta st) = (rows st ++ new)%list /\
    (length new <= length notes)%nat /\
    nextId (addNotes notes meta st) = (nextId st + length new)%nat /\
    toasts (addNotes notes meta st) = toasts st /\
    forall r, r ∈ new ->
      Row.meta r = meta /\
      notes !! Row.noteIndex r = Some (Row.raw r) /\
      Row.derived r = deriveFields (Row.raw r) meta /\
      (nextId st <= Row.id r < nextId st + length new)%nat /\
      noteKey meta (Row.raw r) ∉ dedupe st.
Proof.
  destruct (forEach_addNote_appends meta notes 0 st)
    as (new & Hrows & Hlen & Hid & _ & Htoast & Hnew).
  exists new. unfold addNotes. simpl.
  split; [exact Hrows|]. split; [exact Hlen|]. split; [exact Hid|]. split; [exact Htoast|].
  intros r Hr. destruct (Hnew r Hr) as (Hm & Hi & Hl & Hd & Hb & Hk).
  rewrite Nat.sub_0_r in Hl. auto.
Qed.

Lemma jsonRoundTrip_finite (r : Row.t) :
  Derived.aantal2 (Row.derived r) <> Some PosInfinity ->
  Derived.aantal2 (Row.derived r) <> Some NegInfinity ->
  jsonRoundTrip r = r.
Proof.
  destruct r as [id d raw meta idx]. destruct d as [da aa un he hs a2 pa ws du fn pi].
  unfold jsonRoundTrip. simpl. intros Hp Hn.
  destruct a2 as [[q| |]|]; try reflexivity; contradiction.
Qed.

Lemma jsonRoundTrip_infinite (r : Row.t) :
  Derived.aantal2 (Row.derived r) = Some PosInfinity \/
  Derived.aantal2 (Row.derived r) = Some NegInfinity ->
  Derived.aantal2 (Row.derived (jsonRoundTrip r)) = None /\
  jsonRoundTrip r <> r /\ same_but_aantal2 r (jsonRoundTrip r).
Proof.
  destruct r as [id d raw meta idx]. destruct d as [da aa un he hs a2 pa ws du fn pi].
  unfold jsonRoundTrip, same_but_aantal2. simpl.
  intros [-> | ->]; (split; [reflexivity|]; split; [discriminate|]; repeat split).
Qed.

(** X8.  After [addNotes] the stored value is the whole list of rows, and
    a restart brings back as many rows, each in its place: a row comes
    back as it was unless its adjusted quantity is infinite, and then it
    comes back with no adjusted quantity and everything else as it was.
    The ids handed out are not reused.  Such a row arises from any note
    whose quantity [deriveFields] takes to Infinity, as it does "1e400":
    the row of the note has the infinite quantity until the restart and
    none after it. *)
Theorem addNotes_rows_survive_restart (notes : list Note.t) (meta : Meta.t) (st : State) :
  let st1 := addNotes notes meta st in
  storage st1 = Some (rows st1) /\
  nextId (restart st1) = nextId st1 /\
  length (rows (restart st1)) = length (rows st1) /\
  (forall i r, rows st1 !! i = Some r ->
     exists r', rows (restart st1) !! i = Some r' /\
       (Derived.aantal2 (Row.derived r) <> Some PosInfinity ->
        Derived.aantal2 (Row.derived r) <> Some NegInfinity -> r' = r) /\
       (Derived.aantal2 (Row.derived r) = Some PosInfinity \/
        Derived.aantal2 (Row.derived r) = Some NegInfinity ->
        Derived.aantal2 (Row.derived r') = None /\ r' <> r /\ same_but_aantal2 r r')) /\
  (forall note,
     noteKey meta note ∉ dedupe st ->
     Derived.aantal2 (deriveFields note meta) = Some PosInfinity ->
     let st2 := addNotes [note] meta st in
     exists r r',
       last (rows st2) = Some r /\ Row.raw r = note /\
       Derived.aantal2 (Row.derived r) = Some PosInfinity /\
       last (rows (restart st2)) = Some r' /\ Row.raw r' = note /\
       Derived.aantal2 (Row.derived r') = None) /\
  Derived.aantal2 (deriveFields (sample "E28" "1e400") test_pdf) = Some PosInfinity.
Proof.
  intros st1.
  assert (Hrows : forall s, storage s = Some (rows s) ->
                            rows (restart s) = map jsonRoundTrip (rows s)).
  { intros s Hs. unfold restart, loadStoredRows. simpl. rewrite Hs. reflexivity. }
  split; [reflexivity|]. split; [reflexivity|].
  split; [rewrite (Hrows st1 eq_refl); apply length_map|].
  split; [|split; [|vm_compute; reflexivity]].
  - intros i r Hi. exists (jsonRoundTrip r).
    split; [rewrite (Hrows st1 eq_refl); change map with (@fmap list _) ;
            rewrite list_lookup_fmap, Hi; reflexivity|].
    split; [apply jsonRoundTrip_finite | apply jsonRoundTrip_infinite].
  - intros note Hfresh Hinf st2.
    set (row := Row.mk (nextId st) (deriveFields note meta) note meta 0).
    assert (Hst2 : rows st2 = (rows st ++ [row])%list).
    { unfold st2, addNotes. simpl forEach_addNote.
      rewrite (addNote_fresh meta st 0 note Hfresh). reflexivity. }
    exists row, (jsonRoundTrip row).
    rewrite (Hrows st2 eq_refl), Hst2, map_app. simpl map. rewrite !last_snoc.
    split; [reflexivity|]. split; [reflexivity|]. split; [exact Hinf|].
    split; [reflexivity|]. split; [reflexivity|].
    apply jsonRoundTrip_infinite. left. exact Hinf.
Qed.

Lemma rowKey_faithful (r : Row.t) : faithful_row r -> rowKey r = rawKey r.
Proof.
  destruct r as [id d raw meta idx]. intros [Hu Hd]. simpl in Hd. subst d.
  apply rowKey_unpadded, Hu.
Qed.

Lemma rawKey_jsonRoundTrip (r : Row.t) : rawKey (jsonRoundTrip r) = rawKey r.
Proof. reflexivity. Qed.

Lemma restart_dedupe (st : State) (k : string) :
  storage st = Some (rows st) ->
  (k ∈ dedupe (restart st) <-> exists r, r ∈ rows st /\ k = rowKey r).
Proof.
  intros Hs. unfold restart, loadStoredRows. simpl. rewrite Hs. simpl.
  rewrite foldl_rowKey_elem. split.
  - intros [H | (r & Hr & ->)]; [exfalso; exact (not_elem_of_empty k H)|].
    apply list_elem_of_In, in_map_iff in Hr as (r0 & <- & Hr0).
    exists r0. split; [apply list_elem_of_In, Hr0 | apply rowKey_jsonRoundTrip].
  - intros (r & Hr & ->). right. exists (jsonRoundTrip r). split.
    + apply list_elem_of_In, in_map, list_elem_of_In, Hr.
    + symmetry. apply rowKey_jsonRoundTrip.
Qed.

(** X9.  When the stored value is the list of rows and every row was made
    from a note without white space around its fields, a restart
    rebuilds the dedupe store exactly: it holds the keys of the stored
    notes and nothing else, two rows sharing no key before share none
    after, and admitting the note of any stored row again adds no row. *)
Theorem restart_rebuilds_keys_of_unpadded_notes (st : State) :
  storage st = Some (rows st) ->
  (forall r, r ∈ rows st -> faithful_row r) ->
  (forall k, k ∈ dedupe (restart st) <-> exists r, r ∈ rows st /\ k = rawKey r) /\
  (store_inv st -> store_inv (restart st)) /\
  (forall r, r ∈ rows st ->
     rows (addNotes [Row.raw r] (Row.meta r) (restart st)) = rows (restart st)).
Proof.
  intros Hs Hf.
  assert (Hk : forall k, k ∈ dedupe (restart st) <-> exists r, r ∈ rows st /\ k = rawKey r).
  { intros k. rewrite (restart_dedupe st k Hs). split; intros (r & Hr & ->); exists r;
      (split; [exact Hr|]); [|symmetry]; apply rowKey_faithful, Hf, Hr. }
  assert (Hrows : rows (restart st) = map jsonRoundTrip (rows st)).
  { unfold restart, loadStoredRows. simpl. rewrite Hs. reflexivity. }
  split; [exact Hk|]. split.
  - intros [Hnd Hrec]. split.
    + rewrite Hrows.
      replace (rawKey <$> map jsonRoundTrip (rows st)) with (rawKey <$> rows st); [exact Hnd|].
      clear. induction (rows st) as [|r l IH]; [reflexivity|].
      cbn. f_equal. exact IH.
    + intros r Hr. rewrite Hrows in Hr.
      apply list_elem_of_In, in_map_iff in Hr as (r0 & <- & Hr0).
      apply Hk. exists r0. split; [apply list_elem_of_In, Hr0 | apply rawKey_jsonRoundTrip].
  - intros r Hr. unfold addNotes. simpl forEach_addNote.
    rewrite addNote_known; [reflexivity|]. apply Hk. exists r. auto.
Qed.

Lemma restart_rebuilds_keys_of_unpadded_notes_witness :
  let st := addNotes [E15_9] test_pdf (restart (pageLoad None 0)) in
  (forall k, k ∈ dedupe (restart st) <-> exists r, r ∈ rows st /\ k = rawKey r) /\
  (store_inv st -> store_inv (restart st)) /\
  (forall r, r ∈ rows st ->
     rows (addNotes [Row.raw r] (Row.meta r) (restart st)) = rows (restart st)).
Proof.
  apply (restart_rebuilds_keys_of_unpadded_notes
           (addNotes [E15_9] test_pdf (restart (pageLoad None 0)))).
  - reflexivity.
  - intros r Hr. vm_compute in Hr. apply list_elem_of_singleton in Hr. subst r.
    split; [|reflexivity]. repeat split.
Defined.

Lemma forEach_addNote_agree
    (meta : Meta.t) (notes : list Note.t) (idx : nat) (s1 s2 : State) :
  rows s1 = rows s2 -> dedupe s1 = dedupe s2 -> nextId s1 = nextId s2 ->
  rows (forEach_addNote meta notes idx s1) = rows (forEach_addNote meta notes idx s2) /\
  dedupe (forEach_addNote meta notes idx s1) = dedupe (forEach_addNote meta notes idx s2) /\
  nextId (forEach_addNote meta notes idx s1) = nextId (forEach_addNote meta notes idx s2).
Proof.
  revert idx s1 s2. induction notes as [|note rest IH]; intros idx s1 s2 Hr Hd Hn; simpl.
  - auto.
  - apply IH; unfold addNote; rewrite Hd;
      destruct (decide (noteKey meta note ∈ dedupe s2)); simpl; congruence.
Qed.

(** X10.  [clearAll] empties the rows, the dedupe store and the stored
    value together, so a restart after it starts empty, and the notes of
    a page admitted after it give the rows they give on a freshly loaded
    page, whatever was known before. *)
Theorem clearAll_forgets_everything (st : State) (notes : list Note.t) (meta : Meta.t) :
  rows (clearAll st) = [] /\ dedupe (clearAll st) = ∅ /\
  storage (clearAll st) = Some [] /\
  rows (restart (clearAll st)) = [] /\ dedupe (restart (clearAll st)) = ∅ /\
  rows (addNotes notes meta (clearAll st)) =
    rows (addNotes notes meta (restart (pageLoad None (nextId st)))).
Proof.
  repeat split. unfold addNotes. simpl.
  apply forEach_addNote_agree; reflexivity.
Qed.

Lemma append_inv_head (p x y : string) : p ++ x = p ++ y -> x = y.
Proof.
  induction p as [|c p IH]; simpl; [auto|]. intros H. injection H as H. auto.
Qed.

Lemma split_at_bar (a a' b b' : string) :
  includes "|" a = false -> includes "|" a' = false ->
  a ++ String "|" b = a' ++ String "|" b' -> a = a' /\ b = b'.
Proof.
  revert a'. induction a as [|c a IH]; intros [|c' a'] Ha Ha' H; simpl in *.
  - injection H as H. auto.
  - injection H as Hc _. subst c'. discriminate Ha'.
  - injection H as Hc _. subst c. discriminate Ha.
  - injection H as Hc H. subst c'.
    apply orb_false_iff in Ha as [_ Ha]. apply orb_false_iff in Ha' as [_ Ha'].
    destruct (IH a' Ha Ha' H) as [-> ->]. auto.
Qed.

(** X11.  On one page the key tells notes apart as long as no date and no
    quantity holds a '|': two such notes with the same key have the same
    date, quantity and unit once an absent field is read as empty, and so
    the same derived fields. *)
Theorem noteKey_injective_without_bar (meta : Meta.t) (n1 n2 : Note.t) :
  includes "|" (or_empty (Note.datum n1)) = false ->
  includes "|" (or_empty (Note.datum n2)) = false ->
  includes "|" (or_empty (Note.aantal n1)) = false ->
  includes "|" (or_empty (Note.aantal n2)) = false ->
  noteKey meta n1 = noteKey meta n2 ->
  or_empty (Note.datum n1) = or_empty (Note.datum n2) /\
  or_empty (Note.aantal n1) = or_empty (Note.aantal n2) /\
  or_empty (Note.unit n1) = or_empty (Note.unit n2) /\
  deriveFields n1 meta = deriveFields n2 meta.
Proof.
  intros Hd1 Hd2 Ha1 Ha2 Hk. unfold noteKey in Hk.
  apply append_inv_head in Hk. simpl in Hk. injection Hk as Hk.
  apply append_inv_head in Hk. simpl in Hk. injection Hk as Hk.
  apply (split_at_bar _ _ _ _ Hd1 Hd2) in Hk as [Hd Hk].
  apply (split_at_bar _ _ _ _ Ha1 Ha2) in Hk as [Ha Hu].
  repeat split; try assumption.
  apply deriveFields_ext; congruence.
Qed.

Lemma noteKey_injective_without_bar_witness :
  or_empty (Note.datum date_absent) = or_empty (Note.datum date_empty) /\
  or_empty (Note.aantal date_absent) = or_empty (Note.aantal date_empty) /\
  or_empty (Note.unit date_absent) = or_empty (Note.unit date_empty) /\
  deriveFields date_absent test_pdf = deriveFields date_empty test_pdf.
Proof.
  apply (noteKey_injective_without_bar test_pdf date_absent date_empty); reflexivity.
Defined.

(** ** Page task *)

Lemma key_text_field (x : option value) (d : option string) :
  field_of x = Some d -> key_text x = or_empty d.
Proof.
  destruct x as [v|]; [|intros [= <-]; reflexivity].
  destruct v as [ | b | q t | s | l | props]; simpl;
    try (intros [= <-]; reflexivity); try discriminate.
  - destruct b; [discriminate | intros [= <-]; reflexivity].
  - destruct (negb (Qeq_bool q 0)); [discriminate | intros [= <-]; reflexivity].
  - intros [= <-]. destruct s; reflexivity.
Qed.

(** On an element the client can read, the callback is [addNote] on the
    note read. *)
Lemma addElement_readable (meta : Meta.t) (st : State) (idx : nat) (item : value)
    (note : Note.t) :
  readable item = Some note ->
  addElement meta st idx item = (Normal tt, addNote meta st idx note).
Proof.
  intros Hr.
  assert (Hn : note_of item = Some note) by (destruct item; try discriminate Hr; exact Hr).
  assert (Hk : Meta.fileName meta ++ "|" ++ string_of_nat (Meta.pageIndex meta) ++ "|"
               ++ key_text (get_prop "datum" item) ++ "|"
               ++ key_text (get_prop "aantal" item) ++ "|"
               ++ key_text (get_prop "unit" item) = noteKey meta note).
  { unfold note_of in Hn.
    destruct (field_of (get_prop "datum" item)) as [d|] eqn:Hd; [|discriminate].
    destruct (field_of (get_prop "aantal" item)) as [a|] eqn:Ha; [|discriminate].
    destruct (field_of (get_prop "unit" item)) as [u|] eqn:Hu; [|discriminate].
    injection Hn as <-. unfold noteKey. simpl.
    rewrite (key_text_field _ _ Hd), (key_text_field _ _ Ha), (key_text_field _ _ Hu).
    reflexivity. }
  unfold addElement, addNote. rewrite Hk, Hn.
  destruct item; try discriminate Hr;
    destruct (decide (noteKey meta note ∈ dedupe st)); reflexivity.
Qed.

Lemma forEach_addElement_readable (meta : Meta.t) (items : list value)
    (notes : list Note.t) (idx : nat) (st : State) :
  notes_read items notes ->
  forEach_addElement meta items idx st = (Normal tt, forEach_addNote meta notes idx st).
Proof.
  intros H. revert idx st.
  induction H as [|item note items notes Hr _ IH]; intros idx st; [reflexivity|].
  simpl. rewrite (addElement_readable meta st idx item note Hr). apply IH.
Qed.

(** On an array of notes, [addNotes] as received is [addNotes]. *)
Lemma addElements_notes (meta : Meta.t) (items : list value) (notes : list Note.t)
    (st : State) :
  notes_read items notes ->
  addElements items meta st = (Normal tt, addNotes notes meta st).
Proof.
  intros H. unfold addElements, addNotes.
  rewrite (forEach_addElement_readable meta items notes 0 st H). reflexivity.
Qed.

Lemma forEach_addElement_app (meta : Meta.t) (before after : list value)
    (notes : list Note.t) (idx : nat) (st : State) :
  notes_read before notes ->
  forEach_addElement meta (before ++ after) idx st =
  forEach_addElement meta after (idx + length before) (forEach_addNote meta notes idx st).
Proof.
  intros H. revert idx st.
  induction H as [|item note items notes Hr _ IH]; intros idx st.
  - simpl. rewrite Nat.add_0_r. reflexivity.
  - simpl. rewrite (addElement_readable meta st idx item note Hr), IH.
    replace (S idx + length items)%nat with (idx + S (length items))%nat by lia.
    reflexivity.
Qed.

(** When an element is [null], the notes before it have been admitted
    and nothing is saved. *)
Lemma addElements_null (meta : Meta.t) (before after : list value)
    (notes : list Note.t) (st : State) :
  notes_read before notes ->
  addElements (before ++ VNull :: after) meta st =
  (Throw "TypeError", forEach_addNote meta notes 0 st).
Proof.
  intros H. unfold addElements.
  rewrite (forEach_addElement_app meta before (VNull :: after) notes 0 st H).
  reflexivity.
Qed.

Lemma addElement_grows (meta : Meta.t) (st : State) (idx : nat) (item : value) :
  let r := addElement meta st idx item in
  (exists added, rows (snd r) = (rows st ++ added)%list) /\
  storage (snd r) = storage st /\ toasts (snd r) = toasts st /\
  (fst r = Normal tt \/ fst r = Throw "TypeError").
Proof.
  unfold addElement.
  assert (Hsame : exists added, rows st = (rows st ++ added)%list)
    by (exists []; rewrite app_nil_r; reflexivity).
  destruct item; simpl;
    [ split; [exact Hsame | repeat split; auto] | .. ];
    (match goal with |- context [decide ?P] => destruct (decide P) end; simpl;
     [ split; [exact Hsame | repeat split; auto]
     | try match goal with
           | |- context [match ?n with Some _ => _ | None => _ end] => destruct n
           end; simpl;
       (split; [solve [eauto] | repeat split; auto]) ]).
Qed.

Lemma forEach_addElement_grows (meta : Meta.t) (items : list value) (idx : nat)
    (st : State) :
  let r := forEach_addElement meta items idx st in
  (exists added, rows (snd r) = (rows st ++ added)%list) /\
  storage (snd r) = storage st /\ toasts (snd r) = toasts st /\
  (fst r = Normal tt \/ fst r = Throw "TypeError").
Proof.
  revert idx st. induction items as [|item items IH]; intros idx st; simpl.
  - split; [exists []; rewrite app_nil_r; reflexivity | auto].
  - destruct (addElement_grows meta st idx item) as ((a1 & Hr) & Hs & Ht & Ho).
    destruct (addElement meta st idx item) as [[[]|e] st1]; simpl in *.
    + destruct (IH (S idx) st1) as ((a2 & Hr2) & Hs2 & Ht2 & Ho2).
      split; [|split; [congruence | split; [congruence | exact Ho2]]].
      exists (a1 ++ a2)%list. rewrite Hr2, Hr, app_assoc. reflexivity.
    + split; [eauto | auto].
Qed.

(** Whatever the array holds: rows are only appended and no toast is
    shown; the stored value is written only when no callback threw, and
    only a TypeError is thrown. *)
Lemma addElements_grows (meta : Meta.t) (items : list value) (st : State) :
  let r := addElements items meta st in
  (exists added, rows (snd r) = (rows st ++ added)%list) /\
  toasts (snd r) = toasts st /\
  (fst r = Normal tt \/ fst r = Throw "TypeError") /\
  (fst r <> Normal tt -> storage (snd r) = storage st).
Proof.
  unfold addElements.
  destruct (forEach_addElement_grows meta items 0 st) as (Hr & Hs & Ht & Ho).
  destruct (forEach_addElement meta items 0 st) as [[[]|e] st1]; simpl in *.
  - split; [exact Hr|]. split; [exact Ht|]. split; [left; reflexivity|].
    intros H. contradiction.
  - split; [exact Hr|]. split; [exact Ht|]. split; [exact Ho|]. intros _. exact Hs.
Qed.

Lemma get_notes_array (data : value) (items : list value) :
  get_notes data = Normal (Some (VArray items)) ->
  exists props, data = VObject props /\ lookup_prop "notes" props = Some (VArray items).
Proof.
  destruct data as [ | b | q t | s | l | props]; simpl; try discriminate.
  intros [= H]. eauto.
Qed.

(** X12.  How a page task ends.  When the page does not render, or the
    request fails, or the response is not a success, or its body cannot
    be parsed or is [null], the task fails with the rows, the dedupe
    store, the stored value and the ids untouched; a failed rendering
    shows no toast of its own, and after any failure of the request the
    toast left on display is "Network/API error. Please retry.", also
    when the status was not a success.  On an array of notes the task
    completes normally with the state [addNotes] gives.  On an array with
    a [null] after some notes the task fails with a TypeError and no
    toast: the notes before the [null] are rows already, but they have
    not been saved.  Whatever the array holds, a task that fails writes
    nothing to the stored value and removes no row. *)
Theorem handlePage_outcome (rendered : bool) (res : response) (meta : Meta.t) (st : State) :
  let out := fst (handlePage rendered res meta st) in
  let st' := snd (handlePage rendered res meta st) in
  ((rendered = false \/
    ~ exists status data, res = Fetched true status (Some data) /\ data <> VNull) ->
   out <> Normal tt /\
   rows st' = rows st /\ dedupe st' = dedupe st /\ storage st' = storage st /\
   nextId st' = nextId st /\
   (rendered = false -> toasts st' = toasts st) /\
   (rendered = true -> last (toasts st') = Some "Network/API error. Please retry.")) /\
  (forall status data items notes,
     rendered = true -> res = Fetched true status (Some data) ->
     get_notes data = Normal (Some (VArray items)) -> notes_read items notes ->
     out = Normal tt /\ st' = addNotes notes meta st) /\
  (forall status data before after notes,
     rendered = true -> res = Fetched true status (Some data) ->
     get_notes data = Normal (Some (VArray (before ++ VNull :: after)%list)) ->
     notes_read before notes ->
     out = Throw "TypeError" /\
     rows st' = rows (addNotes notes meta st) /\
     dedupe st' = dedupe (addNotes notes meta st) /\
     storage st' = storage st /\ toasts st' = toasts st) /\
  (out <> Normal tt ->
   storage st' = storage st /\ exists added, rows st' = (rows st ++ added)%list).
Proof.
  intros out st'. subst out st'.
  split; [|split; [|split]].
  - intros [-> | Hno]; [simpl; repeat split; discriminate|].
    destruct rendered; [|simpl; repeat split; discriminate].
    destruct res as [|[|] status [data|]]; simpl;
      try (repeat split; solve [intros; discriminate | intros _; apply last_snoc]).
    destruct data as [ | b | q t | s | l | props];
      try (exfalso; apply Hno; exists status; eexists; split; [reflexivity|discriminate]).
    simpl. repeat split; solve [intros; discriminate | intros _; apply last_snoc].
  - intros status data items notes -> -> Hget Hread.
    destruct (get_notes_array data items Hget) as (props & -> & Hl).
    unfold handlePage, callExtractApi. simpl. rewrite Hl. simpl.
    rewrite (addElements_notes meta items notes st Hread). split; reflexivity.
  - intros status data before after notes -> -> Hget Hread.
    destruct (get_notes_array data _ Hget) as (props & -> & Hl).
    unfold handlePage, callExtractApi. simpl. rewrite Hl. simpl.
    rewrite (addElements_null meta before after notes st Hread). simpl.
    destruct (forEach_addNote_appends meta notes 0 st) as (new & _ & _ & _ & Hs & Ht & _).
    repeat split; assumption || reflexivity.
  - intros Hfail.
    assert (Hnil : exists added, rows st = (rows st ++ added)%list)
      by (exists []; rewrite app_nil_r; reflexivity).
    destruct rendered; [|simpl; split; [reflexivity | exact Hnil]].
    destruct res as [|[|] status [data|]];
      try (simpl; split; [reflexivity | exact Hnil]).
    unfold handlePage, callExtractApi in *.
    destruct (get_notes data) as [notes | e];
      [|simpl; split; [reflexivity | exact Hnil]].
    destruct (or_empty_array notes) as [ | b | q t | s | l | props] eqn:Ho;
      simpl in *; try (exfalso; apply Hfail; reflexivity).
    destruct (addElements_grows meta l st) as (Hr & _ & _ & Hs).
    split; [apply Hs, Hfail | exact Hr].
Qed.

(** ** Scheduler *)

Lemma pages_sorted (i n a k : nat) :
  StronglySorted task_before (map (fun p => Task.mk i p n) (seq a k)).
Proof.
  revert a. induction k as [|k IH]; intros a; simpl; [constructor|].
  constructor; [apply IH|].
  apply Forall_forall. intros t Ht.
  apply list_elem_of_In, in_map_iff in Ht as (p & <- & Hp).
  apply in_seq in Hp. right. simpl. split; [reflexivity | lia].
Qed.

Lemma buildTasks_elem (i : nat) (numPages : list nat) (t : Task.t) :
  t ∈ buildTasks i numPages <->
  (i <= Task.fileIndex t)%nat /\
  numPages !! (Task.fileIndex t - i)%nat = Some (Task.pageCount t) /\
  (1 <= Task.pageIndex t <= Task.pageCount t)%nat.
Proof.
  revert i. induction numPages as [|n rest IH]; intros i; simpl.
  - split; [intros H; inversion H | intros (_ & H & _); discriminate H].
  - rewrite elem_of_app, IH, list_elem_of_In, in_map_iff. split.
    + intros [(p & <- & Hp) | (Hi & Hl & Hp)].
      * apply in_seq in Hp. simpl. rewrite Nat.sub_diag. simpl.
        split; [lia|]. split; [reflexivity | lia].
      * split; [lia|]. split; [|exact Hp].
        replace (Task.fileIndex t - i)%nat with (S (Task.fileIndex t - S i)) by lia.
        exact Hl.
    + intros (Hi & Hl & Hp). destruct (decide (Task.fileIndex t = i)) as [He | Hne].
      * left. rewrite He, Nat.sub_diag in Hl. simpl in Hl. injection Hl as Hn.
        exists (Task.pageIndex t). split.
        -- destruct t as [fi pi pc]. simpl in *. subst. reflexivity.
        -- apply in_seq. lia.
      * right. split; [lia|]. split; [|exact Hp].
        replace (Task.fileIndex t - i)%nat with (S (Task.fileIndex t - S i)) in Hl by lia.
        exact Hl.
Qed.

Lemma buildTasks_sorted (i : nat) (numPages : list nat) :
  StronglySorted task_before (buildTasks i numPages).
Proof.
  revert i. induction numPages as [|n rest IH]; intros i; simpl; [constructor|].
  apply StronglySorted_app_2; [|apply pages_sorted | apply IH].
  intros t u Ht Hu.
  apply list_elem_of_In, in_map_iff in Ht as (p & <- & Hp).
  apply buildTasks_elem in Hu as (Hi & _). left. simpl. lia.
Qed.

(** X13.  The queue of a run holds, for every file and every page number
    from 1 to the page count of the file, exactly one task, which carries
    that page count; a file without pages gives none.  The tasks stand in
    the order of the files and, within a file, of the pages, and their
    number is the total page count. *)
Theorem buildTasks_pages_in_order (numPages : list nat) :
  let tasks := buildTasks 0 numPages in
  length tasks = totalPages numPages /\
  StronglySorted task_before tasks /\
  NoDup tasks /\
  (forall t, t ∈ tasks <->
     numPages !! Task.fileIndex t = Some (Task.pageCount t) /\
     (1 <= Task.pageIndex t <= Task.pageCount t)%nat).
Proof.
  intros tasks. subst tasks.
  split; [apply buildTasks_length|]. split; [apply buildTasks_sorted|]. split.
  - pose proof (buildTasks_sorted 0 numPages) as Hs.
    induction Hs as [|t l _ IH Hall]; [constructor|].
    apply NoDup_cons. split; [|exact IH].
    intros Hin. rewrite Forall_forall in Hall. specialize (Hall t Hin).
    destruct Hall as [H | [_ H]]; lia.
  - intros t. rewrite buildTasks_elem, Nat.sub_0_r. split.
    + intros (_ & H1 & H2). auto.
    + intros (H1 & H2). split; [lia | auto].
Qed.

Lemma runNext_counts (tasks : list Task.t) (s : Run.t) :
  Run.processedPages (runNext tasks s) = Run.processedPages s /\
  Run.notices (runNext tasks s) = Run.notices s.
Proof. unfold runNext. destruct (_ && _); split; reflexivity. Qed.

Lemma run_counts (tasks : list Task.t) (es : list event) (s s' : Run.t) :
  run tasks es s = Some s' ->
  Run.processedPages s' = (Run.processedPages s + settled es)%nat /\
  Run.notices s' =
    (Run.notices s ++ replicate (rejected es) "Failed processing a page. You can retry.")%list.
Proof.
  revert s. induction es as [|e es IH]; intros s Hrun; simpl in Hrun.
  - injection Hrun as <-. simpl. rewrite app_nil_r. split; [lia | reflexivity].
  - destruct (next tasks e s) as [s1|] eqn:He; [|discriminate].
    destruct (IH s1 Hrun) as [Hp Hn]. rewrite Hp, Hn.
    destruct e as [|i fulfilled]; simpl in He.
    + destruct (Run.in_runNext s); [|discriminate]. injection He as <-.
      simpl. destruct (loop_condition tasks s); [|split; reflexivity].
      unfold dispatch. destruct (tasks !! Run.cursor s); split; reflexivity.
    + destruct (negb (Run.in_runNext s) && existsb (Nat.eqb i) (Run.pending s));
        [|discriminate].
      injection He as <-. destruct (runNext_counts tasks (settle i fulfilled s)) as [-> ->].
      simpl. split; [lia|]. destruct fulfilled; [reflexivity|].
      rewrite <- app_assoc. reflexivity.
Qed.

(** X14.  Along any run, the processed-page count is the number of tasks
    that have settled so far and the failure notices shown are one
    "Failed processing a page. You can retry." for each task that was
    rejected; a run that has become idle has seen exactly as many tasks
    settle as were queued. *)
Theorem run_counts_settled_and_rejected (tasks : list Task.t) (es : list event) (s : Run.t) :
  run tasks es (start tasks) = Some s ->
  Run.processedPages s = settled es /\
  Run.notices s = replicate (rejected es) "Failed processing a page. You can retry." /\
  (rejected es <= settled es)%nat /\
  (idle s -> settled es = length tasks).
Proof.
  intros Hrun.
  destruct (run_counts tasks es (start tasks) s Hrun) as [Hp Hn].
  destruct (runNext_counts tasks initial) as [Hp0 Hn0].
  unfold start in Hp, Hn. rewrite Hp0 in Hp. rewrite Hn0 in Hn. simpl in Hp, Hn.
  split; [exact Hp|]. split; [exact Hn|]. split.
  - clear. induction es as [|[|i [|]] es IH]; simpl; lia.
  - intros [Hidle _].
    pose proof (reachable_inv tasks s
                  (run_reachable tasks es (start tasks) s (reachable_start tasks) Hrun))
      as [_ _ _ _ Hproc _ _ Hdone _ _].
    destruct (Hdone Hidle) as (_ & Hc & Hr). lia.
Qed.

Lemma run_counts_settled_and_rejected_witness :
  exists s,
    run three_pages second_page_fails_first (start three_pages) = Some s /\
    Run.processedPages s = 3%nat /\
    Run.notices s = ["Failed processing a page. You can retry."].
Proof.
  eexists. split; [vm_compute; reflexivity|].
  match goal with
  | |- Run.processedPages ?s = _ /\ _ =>
      destruct (run_counts_settled_and_rejected three_pages second_page_fails_first s eq_refl)
        as (Hp & Hn & _)
  end.
  split; [exact Hp | exact Hn].
Defined.

(** X15.  A run that has become idle does nothing more: no turn of the
    loop and no settling is possible.  And a run never comes to a halt
    before: any state from which nothing can happen is idle. *)
Theorem idle_exactly_when_nothing_can_happen (tasks : list Task.t) (s : Run.t) :
  reachable tasks s ->
  (idle s <-> forall e, next tasks e s = None).
Proof.
  intros Hreach. pose proof (reachable_inv tasks s Hreach) as Hinv.
  split.
  - intros [Hp Hin]. destruct Hinv as [Hrun _ _ _ _ _ _ Hdone _ _].
    destruct (Hdone Hp) as (_ & _ & Hr). rewrite Hr in Hrun.
    intros [|i fulfilled]; simpl; rewrite Hin; [reflexivity|].
    destruct (Run.pending s); [reflexivity | discriminate Hrun].
  - intros Hnone. destruct (run_progress tasks s Hinv) as [Hidle | (s' & e & He)];
      [exact Hidle|]. rewrite Hnone in He. discriminate He.
Qed.

Lemma idle_exactly_when_nothing_can_happen_witness :
  exists s,
    run three_pages second_page_fails_first (start three_pages) = Some s /\
    (idle s <-> forall e, next three_pages e s = None).
Proof.
  eexists. split; [vm_compute; reflexivity|].
  apply idle_exactly_when_nothing_can_happen.
  apply (run_reachable three_pages second_page_fails_first (start three_pages));
    [apply reachable_start | vm_compute; reflexivity].
Defined.

(** ** CSV export *)

Lemma append_snoc (cur : string) (c : ascii) (r : string) :
  (cur ++ String c EmptyString) ++ r = cur ++ String c r.
Proof. rewrite append_assoc. reflexivity. Qed.

Lemma splitCsv_plain (s cur rest : string) :
  includes "," s = false -> includes quote s = false ->
  splitCsv InPlain cur (s ++ rest) = splitCsv InPlain (cur ++ s) rest.
Proof.
  revert cur. induction s as [|c s IH]; intros cur Hc Hq; simpl.
  - rewrite append_empty_r. reflexivity.
  - simpl in Hc, Hq. apply orb_false_iff in Hc as [Hc Hc']. apply orb_false_iff in Hq as [Hq Hq'].
    rewrite Hc, Hq, (IH _ Hc' Hq'), append_snoc. reflexivity.
Qed.

Lemma splitCsv_quoted (s cur rest : string) :
  splitCsv InQuoted cur
    (replace_all quote (String quote (String quote EmptyString)) s ++ String quote rest) =
  splitCsv QuoteSeen (cur ++ s) rest.
Proof.
  revert cur. induction s as [|c s IH]; intros cur.
  - simpl. rewrite append_empty_r. reflexivity.
  - simpl replace_all. destruct (Ascii.eqb_spec c quote) as [-> | Hne].
    + change (splitCsv InQuoted cur (String quote (String quote
                (replace_all quote (String quote (String quote EmptyString)) s
                 ++ String quote rest))) = splitCsv QuoteSeen (cur ++ String quote s) rest).
      simpl. rewrite IH, append_snoc. reflexivity.
    + apply Ascii.eqb_neq in Hne. simpl. rewrite Hne, IH, append_snoc. reflexivity.
Qed.

Lemma splitCsv_after_cell (m : csv_mode) (cur rest : string) :
  m <> InQuoted ->
  rest = EmptyString \/ (exists more, rest = String "," more) ->
  splitCsv m cur rest = after_cell cur rest.
Proof.
  intros Hm [-> | (more & ->)]; destruct m; try reflexivity; contradiction.
Qed.

Lemma splitCsv_cell (v : option string) (rest : string) :
  rest = EmptyString \/ (exists more, rest = String "," more) ->
  splitCsv FieldStart EmptyString (formatCsvValue v ++ rest) = after_cell (or_empty v) rest.
Proof.
  intros Hrest. destruct v as [s|]; simpl.
  2: { apply splitCsv_after_cell; [discriminate | exact Hrest]. }
  destruct (includes "," s || includes quote s) eqn:Hq.
  - change (splitCsv InQuoted EmptyString
              ((replace_all quote (String quote (String quote EmptyString)) s
                ++ String quote EmptyString) ++ rest) = after_cell s rest).
    rewrite append_assoc. simpl. rewrite splitCsv_quoted. simpl.
    apply splitCsv_after_cell; [discriminate | exact Hrest].
  - apply orb_false_iff in Hq as [Hc Hq].
    destruct s as [|c s]; simpl.
    + apply splitCsv_after_cell; [discriminate | exact Hrest].
    + simpl in Hc, Hq. apply orb_false_iff in Hc as [Hc Hc']. apply orb_false_iff in Hq as [Hq Hq'].
      rewrite Hq, Hc, (splitCsv_plain s _ rest Hc' Hq'). simpl.
      apply splitCsv_after_cell; [discriminate | exact Hrest].
Qed.

(** Reading an exported line back gives the values that were written,
    [null] read as the empty string. *)
Lemma splitCsvLine_csvLine (values : list (option string)) :
  values <> [] -> splitCsvLine (csvLine values) = Some (map or_empty values).
Proof.
  unfold splitCsvLine, csvLine.
  induction values as [|v vs IH]; [congruence|]. intros _.
  destruct vs as [|v' vs].
  - simpl. rewrite <- (append_empty_r (formatCsvValue v)).
    rewrite splitCsv_cell by (left; reflexivity). reflexivity.
  - change (String.concat "," (map formatCsvValue (v :: v' :: vs)))
      with (formatCsvValue v ++ String "," (String.concat "," (map formatCsvValue (v' :: vs)))).
    rewrite splitCsv_cell by (right; eexists; reflexivity).
    unfold after_cell. rewrite IH by discriminate. reflexivity.
Qed.

(** X16.  A row's export line tells rows apart: two rows give the same
    CSV line only if they have the same number of values and, with [null]
    read as the empty string, the same values; a value alone is exported
    the same as another only if the two are the same string, [null] and
    the empty string both giving the empty cell. *)
Theorem csvLine_injective (v1 v2 : list (option string)) (a b : option string) :
  (v1 <> [] -> v2 <> [] -> csvLine v1 = csvLine v2 -> map or_empty v1 = map or_empty v2) /\
  (formatCsvValue a = formatCsvValue b <-> or_empty a = or_empty b).
Proof.
  split.
  - intros H1 H2 Heq. apply (f_equal splitCsvLine) in Heq.
    rewrite !splitCsvLine_csvLine in Heq by assumption. congruence.
  - split.
    + intros Heq.
      assert (H : csvLine [a] = csvLine [b]) by (unfold csvLine; simpl; exact Heq).
      apply (f_equal splitCsvLine) in H.
      rewrite !splitCsvLine_csvLine in H by discriminate. simpl in H. congruence.
    + destruct a as [[|c s]|], b as [[|c' s']|]; simpl; intros H; try discriminate H;
        try reflexivity.
      injection H as -> ->. reflexivity.
Qed.

Lemma csvLine_injective_witness :
  map or_empty [Some "a,b"; None] = map or_empty [Some "a,b"; Some EmptyString].
Proof.
  apply (proj1 (csvLine_injective [Some "a,b"; None] [Some "a,b"; Some EmptyString] None None));
    [discriminate | discriminate | reflexivity].
Defined.

Lemma count_char_app (c : ascii) (s t : string) :
  count_char c (s ++ t) = (count_char c s + count_char c t)%nat.
Proof. induction s as [|d s IH]; simpl; [reflexivity | rewrite IH; lia]. Qed.

Lemma count_char_cons (c d : ascii) (r : string) :
  count_char c (String d r) = ((if Ascii.eqb d c then 1 else 0) + count_char c r)%nat.
Proof. reflexivity. Qed.

Lemma count_char_doubled (c : ascii) (s : string) :
  c <> quote ->
  count_char c (replace_all quote (String quote (String quote EmptyString)) s) =
  count_char c s.
Proof.
  intros Hc.
  assert (Hq : Ascii.eqb quote c = false) by (apply Ascii.eqb_neq; congruence).
  induction s as [|d s IH]; [reflexivity|].
  cbn [replace_all]. destruct (Ascii.eqb_spec d quote) as [-> | Hd].
  - change (String quote (String quote EmptyString)
            ++ replace_all quote (String quote (String quote EmptyString)) s)
      with (String quote (String quote
              (replace_all quote (String quote (String quote EmptyString)) s))).
    rewrite !count_char_cons, Hq, IH. reflexivity.
  - rewrite !count_char_cons, IH. reflexivity.
Qed.

Lemma count_char_formatCsvValue (c : ascii) (v : option string) :
  c <> quote -> count_char c (formatCsvValue v) = count_char c (or_empty v).
Proof.
  intros Hc.
  assert (Hq : Ascii.eqb quote c = false) by (apply Ascii.eqb_neq; congruence).
  destruct v as [s|]; [|reflexivity]. cbn [formatCsvValue or_empty].
  destruct (includes "," s || includes quote s); [|reflexivity].
  rewrite count_char_cons, count_char_app, (count_char_doubled c s Hc), count_char_cons, Hq.
  simpl. lia.
Qed.

Lemma count_char_concat (c : ascii) (sep : string) (l : list string) :
  count_char c sep = 0%nat ->
  count_char c (String.concat sep l) =
  foldr (fun s n => (count_char c s + n)%nat) 0%nat l.
Proof.
  intros Hsep. induction l as [|x l IH]; [reflexivity|].
  destruct l as [|y l]; [simpl; lia|].
  change (String.concat sep (x :: y :: l)) with (x ++ sep ++ String.concat sep (y :: l)).
  rewrite !count_char_app, Hsep, IH. reflexivity.
Qed.

(** X17.  Neither export escapes control characters.  A CSV line holds
    exactly the line feeds of its values, so a row is written on one line
    only if none of its values holds a line feed; a TSV line holds the
    tabs of its values besides the one between each two values, so it has
    as many columns as values only if no value holds a tab. *)
Theorem export_lines_keep_control_characters (values : list (option string)) :
  count_char line_feed (csvLine values) = count_in_values line_feed values /\
  count_char tab (tsvLine values) =
    (count_in_values tab values + (length values - 1))%nat.
Proof.
  split.
  - unfold csvLine. rewrite count_char_concat by reflexivity.
    induction values as [|v vs IH]; [reflexivity|]. simpl.
    rewrite IH, count_char_formatCsvValue by discriminate. reflexivity.
  - unfold tsvLine. induction values as [|v vs IH]; [reflexivity|].
    destruct vs as [|v' vs]; [simpl; lia|].
    change (String.concat (String "009"%char EmptyString) (map or_empty (v :: v' :: vs)))
      with (or_empty v ++ String tab
              (String.concat (String "009"%char EmptyString) (map or_empty (v' :: vs)))).
    rewrite count_char_app, count_char_cons, IH.
    change (Ascii.eqb tab tab) with true. simpl. lia.
Qed.

(** ** File queue *)

Lemma endsWith_iff (suffix s : string) :
  endsWith suffix s = true <-> exists stem, s = stem ++ suffix.
Proof.
  induction s as [|c r IH]; cbn [endsWith].
  - rewrite orb_false_r, String.eqb_eq. split.
    + intros <-. exists EmptyString. reflexivity.
    + intros ([|d stem] & H); simpl in H; [auto | discriminate].
  - rewrite orb_true_iff, String.eqb_eq, IH. split.
    + intros [<- | (stem & ->)]; [exists EmptyString; reflexivity|].
      exists (String c stem). reflexivity.
    + intros ([|d stem] & H); simpl in H; [left; exact H|].
      injection H as -> ->. right. exists stem. reflexivity.
Qed.

Lemma toLowerCase_app_inv (s a b : string) :
  toLowerCase s = a ++ b ->
  exists s1 s2, s = s1 ++ s2 /\ toLowerCase s1 = a /\ toLowerCase s2 = b.
Proof.
  revert s. induction a as [|c a IH]; intros s H; simpl in H.
  - exists EmptyString, s. auto.
  - destruct s as [|d s]; [discriminate|]. simpl in H. injection H as Hc H.
    destruct (IH s H) as (s1 & s2 & -> & H1 & H2).
    exists (String d s1), s2. simpl. rewrite Hc, H1. auto.
Qed.

Lemma toLowerCase_char_cases (c : ascii) :
  (toLowerCase_char c = "."%char -> c = "."%char) /\
  (toLowerCase_char c = "p"%char -> c = "p"%char \/ c = "P"%char) /\
  (toLowerCase_char c = "d"%char -> c = "d"%char \/ c = "D"%char) /\
  (toLowerCase_char c = "f"%char -> c = "f"%char \/ c = "F"%char).
Proof.
  destruct c as [[] [] [] [] [] [] [] []]; vm_compute;
    repeat split; intros H; try discriminate H; auto.
Qed.

Lemma isPdf_iff (f : File.t) :
  isPdf f = true <->
  File.type f = "application/pdf" \/
  exists stem p d e,
    File.name f = stem ++ String "." (String p (String d (String e EmptyString))) /\
    (p = "p"%char \/ p = "P"%char) /\ (d = "d"%char \/ d = "D"%char) /\
    (e = "f"%char \/ e = "F"%char).
Proof.
  unfold isPdf. destruct (String.eqb_spec (File.type f) "application/pdf") as [Ht | Ht].
  { split; auto. }
  rewrite endsWith_iff. split.
  - intros (stem & H). right.
    apply toLowerCase_app_inv in H as (s1 & s2 & Hn & _ & H2).
    destruct s2 as [|c0 [|p [|d [|e [|]]]]]; try discriminate H2.
    simpl in H2. injection H2 as H0 Hp Hd He.
    apply toLowerCase_char_cases in H0. subst c0.
    exists s1, p, d, e. split; [exact Hn|].
    split; [apply toLowerCase_char_cases, Hp|].
    split; [apply toLowerCase_char_cases, Hd | apply toLowerCase_char_cases, He].
  - intros [H | (stem & p & d & e & -> & Hp & Hd & He)]; [contradiction|].
    exists (toLowerCase stem).
    assert (Happ : forall a b, toLowerCase (a ++ b) = toLowerCase a ++ toLowerCase b).
    { intros a b. induction a as [|x a IH]; simpl; [reflexivity | rewrite IH; reflexivity]. }
    rewrite Happ. f_equal.
    destruct Hp as [-> | ->], Hd as [-> | ->], He as [-> | ->]; reflexivity.
Qed.

(** X18.  A file is queued exactly when its type is "application/pdf" or
    its name ends in ".pdf" in any mix of upper and lower case.
    [handleFiles] appends the accepted files of a selection to the queue
    in their order and drops the others; it shows
    "Only PDF files are supported." only when it accepts none, in which
    case nothing else changes, and otherwise enables the extract
    button. *)
Theorem handleFiles_accepts_pdfs (fileList : list File.t) (q : Queue.t) :
  let q' := handleFiles fileList q in
  (forall f, isPdf f = true <->
     File.type f = "application/pdf" \/
     exists stem p d e,
       File.name f = stem ++ String "." (String p (String d (String e EmptyString))) /\
       (p = "p"%char \/ p = "P"%char) /\ (d = "d"%char \/ d = "D"%char) /\
       (e = "f"%char \/ e = "F"%char)) /\
  Queue.files q' = (Queue.files q ++ List.filter isPdf fileList)%list /\
  (List.filter isPdf fileList = [] ->
   q' = Queue.mk (Queue.files q) (Queue.extractDisabled q) (Queue.progressText q)
          (Queue.toasts q ++ ["Only PDF files are supported."])%list) /\
  (List.filter isPdf fileList <> [] ->
   Queue.toasts q' = Queue.toasts q /\ Queue.extractDisabled q' = false).
Proof.
  intros q'. subst q'. split; [exact isPdf_iff|]. unfold handleFiles.
  destruct (List.filter isPdf fileList) as [|f l].
  - rewrite app_nil_r. split; [reflexivity|]. split; [reflexivity|]. congruence.
  - split; [reflexivity|]. split; [discriminate|]. split; reflexivity.
Qed.

Lemma handleFiles_accepts_pdfs_witness :
  Queue.toasts (handleFiles mixed_selection (Queue.mk [] true EmptyString [])) = [] /\
  Queue.extractDisabled (handleFiles mixed_selection (Queue.mk [] true EmptyString [])) = false.
Proof.
  apply (proj2 (proj2 (proj2
           (handleFiles_accepts_pdfs mixed_selection (Queue.mk [] true EmptyString []))))).
  discriminate.
Defined.

(** ** Extraction service *)

Lemma truthy_not_null (v : option value) (d : value) :
  truthy v = true -> match v with Some x => x | None => d end <> VNull.
Proof. destruct v as [[]|]; simpl; intros H; congruence. Qed.

Lemma or_empty_array_truthy (notes : option value) :
  truthy (Some (or_empty_array notes)) = true.
Proof.
  destruct notes as [v|]; [|reflexivity].
  destruct v as [ | b | q | s | l | props]; try reflexivity.
  - destruct b; reflexivity.
  - simpl. destruct (negb (Qeq_bool q 0)) eqn:Hq; simpl; [exact Hq | reflexivity].
  - simpl. destruct (nonempty s) eqn:Hs; simpl; [exact Hs | reflexivity].
Qed.

(** The model call resolved: [parsed.notes] never throws, since [parsed]
    is never [null]. *)
Lemma handler_resolved (key : string) (image : string) (meta : value)
    (output : option (list (option value))) (output_parsed : option value) :
  nonempty key = true ->
  exists notes,
    handler "POST" (Some key) (Multipart (Some image) meta)
      (CallResolves output output_parsed) =
    HttpResponse.mk 200 None (VObject [("notes", notes); ("meta", meta)]) /\
    truthy (Some notes) = true /\
    (first_parsed output = None -> output_parsed = None -> notes = VArray []).
Proof.
  intros Hkey. unfold handler. simpl. rewrite Hkey. simpl.
  set (parsed := if truthy (first_parsed output) then _ else _).
  assert (Hp : parsed <> VNull).
  { subst parsed. destruct (truthy (first_parsed output)) eqn:H0;
      [apply truthy_not_null, H0|].
    destruct (truthy output_parsed) eqn:H1; [apply truthy_not_null, H1 | discriminate]. }
  assert (Hn : exists notes, get_notes parsed = Normal notes).
  { destruct parsed; simpl; eauto. contradiction. }
  destruct Hn as (notes & Hn). rewrite Hn.
  exists (or_empty_array notes). split; [reflexivity|].
  split; [apply or_empty_array_truthy|].
  intros H0 H1. subst parsed. rewrite H0, H1 in Hn. simpl in Hn.
  injection Hn as <-. reflexivity.
Qed.

(** X19.  [handler] answers 405 with "Allow: POST" whenever the method is
    not POST, whatever else the request holds; otherwise 500 when the key
    is missing or empty, whatever the body; otherwise 500 when the body
    cannot be read, 400 when it holds no image and 500 when the model
    call throws.  In the one remaining case it answers 200, never an
    error, with a truthy [notes], the empty array when the model's output
    has nothing parsed, and the meta of the request.  So the status is
    200 exactly when a POST with a key and an image reached a call that
    resolved, and a body has [notes] exactly then. *)
Theorem handler_statuses (method : string) (apiKey : option string) (parts : multipart)
    (call : model_call) :
  let r := handler method apiKey parts call in
  (method <> "POST" ->
   r = HttpResponse.mk 405 (Some "POST") (error_body (VString "Method not allowed"))) /\
  (method = "POST" -> or_empty apiKey = EmptyString ->
   r = HttpResponse.mk 500 None (error_body (VString "Missing OPENAI_API_KEY"))) /\
  (method = "POST" -> or_empty apiKey <> EmptyString ->
   match parts, call with
   | MultipartRejected err, _ => r = HttpResponse.mk 500 None (error_body (error_message err))
   | Multipart None _, _ =>
       r = HttpResponse.mk 400 None (error_body (VString "Image is required"))
   | Multipart (Some _) _, CallThrows err =>
       r = HttpResponse.mk 500 None (error_body (error_message err))
   | Multipart (Some _) meta, CallResolves output output_parsed =>
       exists notes,
         r = HttpResponse.mk 200 None (VObject [("notes", notes); ("meta", meta)]) /\
         truthy (Some notes) = true /\
         (first_parsed output = None -> output_parsed = None -> notes = VArray [])
   end) /\
  (HttpResponse.status r = 200%nat <->
   method = "POST" /\ or_empty apiKey <> EmptyString /\
   exists image meta output output_parsed,
     parts = Multipart (Some image) meta /\ call = CallResolves output output_parsed) /\
  (HttpResponse.status r <> 200%nat ->
   exists message, HttpResponse.body r = error_body message).
Proof.
  intros r. subst r.
  destruct (String.eqb_spec method "POST") as [Hm | Hm].
  2: { unfold handler. apply String.eqb_neq in Hm as Hb. rewrite Hb. simpl.
       split; [reflexivity|]. split; [contradiction|]. split; [contradiction|].
       split; [split; [discriminate | intros (H & _); contradiction]|].
       intros _. eexists. reflexivity. }
  subst method. split; [congruence|].
  destruct apiKey as [[|k0 key]|].
  1,3: unfold handler; simpl; split; [reflexivity|]; split; [congruence|];
       (split; [split; [discriminate | intros (_ & H & _); congruence]|]);
       intros _; eexists; reflexivity.
  split; [discriminate|].
  destruct parts as [err | [image|] meta].
  1,3: unfold handler; simpl; split; [reflexivity|];
       (split; [split; [discriminate
                       | intros (_ & _ & i & m & o & op & H & _); discriminate H]|]);
       intros _; eexists; reflexivity.
  destruct call as [err | output output_parsed].
  - unfold handler. simpl. split; [reflexivity|].
    split; [split; [discriminate
                   | intros (_ & _ & i & m & o & op & _ & H); discriminate H]|].
    intros _. eexists. reflexivity.
  - destruct (handler_resolved (String k0 key) image meta output output_parsed eq_refl)
      as (notes & Hr & Ht & Hnone).
    rewrite Hr. simpl. split; [intros _ _; eauto|].
    split; [split; [intros _ | reflexivity]|].
    + split; [reflexivity|]. split; [discriminate|]. eauto 10.
    + intros H. contradiction.
Qed.

Lemma handler_cases (method : string) (apiKey : option string) (parts : multipart)
    (call : model_call) :
  let r := handler method apiKey parts call in
  (exists notes meta,
     r = HttpResponse.mk 200 None (VObject [("notes", notes); ("meta", meta)]) /\
     truthy (Some notes) = true /\
     (forall output output_parsed,
        call = CallResolves output output_parsed ->
        first_parsed output = None -> output_parsed = None -> notes = VArray [])) \/
  (exists status allow message,
     r = HttpResponse.mk status allow (error_body message) /\
     (status = 400 \/ status = 405 \/ status = 500)%nat).
Proof.
  intros r. subst r.
  destruct (String.eqb_spec method "POST") as [-> | Hm].
  2: { right. unfold handler. apply String.eqb_neq in Hm. rewrite Hm. simpl. eauto 10. }
  destruct apiKey as [[|k0 key]|];
    try solve [right; unfold handler; simpl; eauto 10].
  destruct parts as [err | [image|] meta];
    try solve [right; unfold handler; simpl; eauto 10].
  destruct call as [cerr | output output_parsed];
    [solve [right; unfold handler; simpl; eauto 10]|].
  left.
  destruct (handler_resolved (String k0 key) image meta output output_parsed eq_refl)
    as (notes & Hr & Ht & Hnone).
  exists notes, meta. split; [exact Hr|]. split; [exact Ht|].
  intros o op H. injection H as <- <-. exact Hnone.
Qed.

(** The notes of the model's output are sent on as they are. *)
Lemma handler_forwards (key image : string) (meta : value)
    (output : option (list (option value))) (output_parsed : option value)
    (props : list (string * value)) (items : list value) :
  nonempty key = true ->
  first_parsed output = Some (VObject props) \/
  (truthy (first_parsed output) = false /\ output_parsed = Some (VObject props)) ->
  lookup_prop "notes" props = Some (VArray items) ->
  handler "POST" (Some key) (Multipart (Some image) meta)
    (CallResolves output output_parsed) =
  HttpResponse.mk 200 None (VObject [("notes", VArray items); ("meta", meta)]).
Proof.
  intros Hkey Hp Hl. unfold handler. simpl. rewrite Hkey. simpl.
  destruct Hp as [-> | [-> ->]]; simpl; rewrite Hl; reflexivity.
Qed.

Lemma handlePage_received_array (items : list value) (meta : value) (pageMeta : Meta.t)
    (st : State) :
  handlePage true
    (received (HttpResponse.mk 200 None (VObject [("notes", VArray items); ("meta", meta)])))
    pageMeta st =
  addElements items pageMeta st.
Proof. reflexivity. Qed.

(** X20.  The page task against the service.  On every answer other than
    200 it throws "API error" with the status, shows
    "API error while extracting. Retry allowed." and then
    "Network/API error. Please retry.", and leaves rows, dedupe store and
    stored value as they were.  On a 200 it shows no toast and either
    completes normally or throws a TypeError, and then it has written
    nothing to the stored value.  On a 200 whose model output has
    nothing parsed it completes and no row is added.  The service sends
    the array under [notes] of the model's parsed output on unchecked:
    the page task is [addNotes] on that array as it is, so with a [null]
    after some notes the service answers 200 and the task throws, the
    notes before the [null] being rows that were not saved. *)
Theorem handlePage_against_handler
    (method : string) (apiKey : option string) (parts : multipart) (call : model_call)
    (pageMeta : Meta.t) (st : State) :
  let r := handler method apiKey parts call in
  let out := fst (handlePage true (received r) pageMeta st) in
  let st' := snd (handlePage true (received r) pageMeta st) in
  (HttpResponse.status r <> 200%nat ->
   out = Throw ("API error " ++ string_of_nat (HttpResponse.status r)) /\
   toasts st' = (toasts st ++ ["API error while extracting. Retry allowed.";
                              "Network/API error. Please retry."])%list /\
   rows st' = rows st /\ dedupe st' = dedupe st /\ storage st' = storage st) /\
  (HttpResponse.status r = 200%nat ->
   toasts st' = toasts st /\
   (out = Normal tt \/ out = Throw "TypeError") /\
   (out <> Normal tt -> storage st' = storage st)) /\
  (forall output output_parsed,
     HttpResponse.status r = 200%nat -> call = CallResolves output output_parsed ->
     first_parsed output = None -> output_parsed = None ->
     out = Normal tt /\
     rows st' = rows st /\ dedupe st' = dedupe st /\ toasts st' = toasts st) /\
  (forall image meta output output_parsed props items,
     method = "POST" -> or_empty apiKey <> EmptyString ->
     parts = Multipart (Some image) meta -> call = CallResolves output output_parsed ->
     first_parsed output = Some (VObject props) \/
     (truthy (first_parsed output) = false /\ output_parsed = Some (VObject props)) ->
     lookup_prop "notes" props = Some (VArray items) ->
     HttpResponse.status r = 200%nat /\
     (out, st') = addElements items pageMeta st /\
     forall before after notes,
       items = (before ++ VNull :: after)%list -> notes_read before notes ->
       out = Throw "TypeError" /\
       rows st' = rows (addNotes notes pageMeta st) /\
       dedupe st' = dedupe (addNotes notes pageMeta st) /\
       storage st' = storage st).
Proof.
  intros r out st'. subst out st'.
  split; [|split; [|split]].
  - intros Hstatus.
    destruct (handler_cases method apiKey parts call)
      as [(notes & meta & Hr & _) | (status & allow & message & Hr & Hs)];
      fold r in Hr; rewrite Hr in *; [contradiction Hstatus; reflexivity|].
    unfold received. simpl HttpResponse.status. simpl HttpResponse.body.
    assert (Hnot : ((200 <=? status)%nat && (status <=? 299)%nat) = false).
    { destruct Hs as [-> | [-> | ->]]; reflexivity. }
    rewrite Hnot. simpl. rewrite <- app_assoc. repeat split.
  - intros Hstatus.
    destruct (handler_cases method apiKey parts call)
      as [(notes & meta & Hr & Ht & _) | (status & allow & message & Hr & Hs)];
      fold r in Hr; rewrite Hr in *.
    2: { simpl in Hstatus. subst status. destruct Hs as [H | [H | H]]; discriminate H. }
    unfold received. simpl HttpResponse.status. simpl HttpResponse.body.
    change ((200 <=? 200)%nat && (200 <=? 299)%nat) with true.
    unfold handlePage, callExtractApi.
    destruct notes as [ | b | q t | s0 | l | props]; simpl in Ht |- *;
      try discriminate Ht; try rewrite Ht; simpl;
      try (split; [reflexivity | split; [left; reflexivity | intros H; contradiction]]).
    destruct (addElements_grows pageMeta l st) as (_ & Hto & Ho & Hs).
    split; [exact Hto | split; [exact Ho | exact Hs]].
  - intros output output_parsed Hstatus Hc H0 H1.
    destruct (handler_cases method apiKey parts call)
      as [(notes & meta & Hr & Ht & Hnone) | (status & allow & message & Hr & Hs)];
      fold r in Hr; rewrite Hr in *.
    2: { simpl in Hstatus. subst status. destruct Hs as [H | [H | H]]; discriminate H. }
    rewrite (Hnone output output_parsed Hc H0 H1). repeat split.
  - intros image meta output output_parsed props items -> Hkey -> -> Hp Hl.
    destruct apiKey as [key|]; [|contradiction Hkey; reflexivity].
    assert (Hk : nonempty key = true) by (destruct key; [contradiction Hkey|]; reflexivity).
    pose proof (handler_forwards key image meta output output_parsed props items Hk Hp Hl)
      as Hr.
    fold r in Hr. rewrite Hr, handlePage_received_array.
    split; [reflexivity|]. split; [destruct (addElements items pageMeta st); reflexivity|].
    intros before after notes -> Hread.
    rewrite (addElements_null pageMeta before after notes st Hread). simpl.
    destruct (forEach_addNote_appends pageMeta notes 0 st) as (new & _ & _ & _ & Hs & _).
    repeat split; assumption || reflexivity.
Qed.

(** *** The table's order ([renderTable]) *)

Lemma Ascii_compare_Lt_trans (a b c : ascii) :
  Ascii.compare a b = Lt -> Ascii.compare b c = Lt -> Ascii.compare a c = Lt.
Proof.
  unfold Ascii.compare. rewrite !N.compare_lt_iff. lia.
Qed.

Lemma Ascii_compare_refl (a : ascii) : Ascii.compare a a = Eq.
Proof. unfold Ascii.compare. apply N.compare_refl. Qed.

Lemma String_compare_Lt_trans (s t u : string) :
  String.compare s t = Lt -> String.compare t u = Lt -> String.compare s u = Lt.
Proof.
  revert t u.
  induction s as [ | a s IH]; intros [ | b t] [ | c u]; simpl; try easy.
  destruct (Ascii.compare a b) eqn:E1; try discriminate;
    destruct (Ascii.compare b c) eqn:E2; try discriminate.
  - apply Ascii.compare_eq_iff in E1, E2. subst.
    rewrite Ascii_compare_refl. apply IH.
  - apply Ascii.compare_eq_iff in E1. subst. rewrite E2. reflexivity.
  - apply Ascii.compare_eq_iff in E2. subst. rewrite E1. reflexivity.
  - rewrite (Ascii_compare_Lt_trans _ _ _ E1 E2). reflexivity.
Qed.

Lemma String_ltb_strict_weak : strict_weak String.ltb.
Proof.
  unfold String.ltb. split.
  - intros a b H. rewrite String.compare_antisym.
    destruct (String.compare a b); try discriminate. reflexivity.
  - intros a b c Hba Hcb.
    destruct (String.compare c a) eqn:Hca; try reflexivity.
    destruct (String.compare b a) eqn:E; try discriminate.
    + apply String.compare_eq_iff in E. subst. rewrite Hca in Hcb. discriminate.
    + assert (Hab : String.compare a b = Lt)
        by (rewrite String.compare_antisym, E; reflexivity).
      rewrite (String_compare_Lt_trans _ _ _ Hca Hab) in Hcb. discriminate.
Qed.

Lemma num_ltb_lt (x y : num) : num_ltb x y = true <-> num_lt x y.
Proof.
  destruct x as [p | | ], y as [q | | ]; simpl; try easy.
  rewrite Qlt_alt. destruct (p ?= q)%Q; easy.
Qed.

Lemma num_ltb_not_lt (x y : num) : num_ltb x y = false <-> ~ num_lt x y.
Proof.
  rewrite <- num_ltb_lt. destruct (num_ltb x y); easy.
Qed.

Lemma num_ltb_strict_weak : strict_weak num_ltb.
Proof.
  split.
  - intros a b. rewrite num_ltb_lt, num_ltb_not_lt.
    destruct a, b; simpl; try easy. lra.
  - intros a b c. rewrite !num_ltb_not_lt.
    destruct a, b, c; simpl; try easy; try tauto. lra.
Qed.

Lemma strict_weak_by_key {A B : Type} (key : A -> B) (ltb : B -> B -> bool) :
  strict_weak ltb -> strict_weak (fun a b => ltb (key a) (key b)).
Proof.
  intros [Ha Ht]. split.
  - intros a b. apply Ha.
  - intros a b c. apply Ht.
Qed.

Lemma number_or_empty_ltb_compared (x y : option num) :
  number_or_empty_ltb x y = num_ltb (compared_as x) (compared_as y).
Proof. destruct x, y; reflexivity. Qed.

Lemma row_ltb_strict_weak (c : column) : strict_weak (row_ltb c).
Proof.
  destruct c; unfold row_ltb.
  - apply (strict_weak_by_key (fun r => Derived.datum (Row.derived r))),
      String_ltb_strict_weak.
  - apply (strict_weak_by_key (fun r => Derived.aantal (Row.derived r))),
      String_ltb_strict_weak.
  - apply (strict_weak_by_key (fun r => Derived.unit (Row.derived r))),
      String_ltb_strict_weak.
  - pose proof (strict_weak_by_key
      (fun r => compared_as (option_map num_of_Z (Derived.hoogte_enkel (Row.derived r))))
      _ num_ltb_strict_weak) as [Ha Ht].
    split; intros *; rewrite !number_or_empty_ltb_compared; [apply Ha | apply Ht].
  - pose proof (strict_weak_by_key
      (fun r => compared_as (option_map num_of_Z (Derived.hoogte_stack (Row.derived r))))
      _ num_ltb_strict_weak) as [Ha Ht].
    split; intros *; rewrite !number_or_empty_ltb_compared; [apply Ha | apply Ht].
  - pose proof (strict_weak_by_key
      (fun r => compared_as (Derived.aantal2 (Row.derived r)))
      _ num_ltb_strict_weak) as [Ha Ht].
    split; intros *; rewrite !number_or_empty_ltb_compared; [apply Ha | apply Ht].
  - apply (strict_weak_by_key (fun r => Derived.pallet (Row.derived r))),
      String_ltb_strict_weak.
Qed.

Lemma compareRows_before_iff (c : column) (asc : bool) (a b : Row.t) :
  compareRows c asc a b <= 0 <->
  row_ltb c (if asc then b else a) (if asc then a else b) = false.
Proof.
  destruct (row_ltb_strict_weak c) as [Ha _]. unfold compareRows.
  destruct (row_ltb c a b) eqn:Hab.
  - pose proof (Ha _ _ Hab) as Hba.
    destruct asc; rewrite ?Hab, ?Hba; split; (lia || easy).
  - destruct (row_ltb c b a) eqn:Hba; destruct asc; rewrite ?Hab, ?Hba;
      split; (lia || easy).
Qed.

Lemma compareRows_tie_iff (c : column) (asc : bool) (a b : Row.t) :
  compareRows c asc a b = 0 <-> row_ltb c a b = false /\ row_ltb c b a = false.
Proof.
  unfold compareRows.
  destruct (row_ltb c a b), (row_ltb c b a), asc; split;
    (lia || easy || (intros []; discriminate)).
Qed.

Lemma compareRows_trans (c : column) (asc : bool) (a b d : Row.t) :
  compareRows c asc a b <= 0 -> compareRows c asc b d <= 0 ->
  compareRows c asc a d <= 0.
Proof.
  destruct (row_ltb_strict_weak c) as [_ Ht].
  rewrite !compareRows_before_iff. destruct asc; eauto.
Qed.

Lemma compareRows_total (c : column) (asc : bool) (a b : Row.t) :
  compareRows c asc a b <= 0 \/ compareRows c asc b a <= 0.
Proof.
  destruct (row_ltb_strict_weak c) as [Ha _].
  rewrite !compareRows_before_iff.
  destruct asc; destruct (row_ltb c a b) eqn:E; auto.
Qed.

Lemma compareRows_tie_trans (c : column) (asc : bool) (a b d : Row.t) :
  compareRows c asc a b = 0 -> compareRows c asc b d = 0 ->
  compareRows c asc a d = 0.
Proof.
  destruct (row_ltb_strict_weak c) as [_ Ht].
  rewrite !compareRows_tie_iff. intros [H1 H2] [H3 H4]. split; eauto.
Qed.

Lemma compareRows_flip (c : column) (asc : bool) (a b : Row.t) :
  compareRows c asc b a = - compareRows c asc a b.
Proof.
  destruct (row_ltb_strict_weak c) as [Ha _]. unfold compareRows.
  destruct (row_ltb c a b) eqn:Hab.
  - rewrite (Ha _ _ Hab). destruct asc; reflexivity.
  - destruct (row_ltb c b a), asc; reflexivity.
Qed.

(** X21.  The comparator [renderTable] sorts with is a consistent one for
    each column and both directions: a row ties with itself, swapping the
    two rows negates the result, and "not after", "tied" and "strictly
    before" are transitive.  So the order of the table does not depend on
    how the sort goes about comparing. *)
Theorem compareRows_consistent (c : column) (asc : bool) (a b d : Row.t) :
  compareRows c asc a a = 0 /\
  compareRows c asc b a = - compareRows c asc a b /\
  (compareRows c asc a b <= 0 -> compareRows c asc b d <= 0 ->
   compareRows c asc a d <= 0) /\
  (compareRows c asc a b = 0 -> compareRows c asc b d = 0 ->
   compareRows c asc a d = 0) /\
  (compareRows c asc a b < 0 -> compareRows c asc b d < 0 ->
   compareRows c asc a d < 0).
Proof.
  split; [ | split; [ | split; [ | split]]].
  - pose proof (compareRows_flip c asc a a). lia.
  - apply compareRows_flip.
  - apply compareRows_trans.
  - apply compareRows_tie_trans.
  - intros H1 H2.
    pose proof (compareRows_flip c asc a b) as F1.
    pose proof (compareRows_flip c asc b d) as F2.
    pose proof (compareRows_flip c asc a d) as F3.
    destruct (Z_lt_le_dec (compareRows c asc a d) 0) as [ | Hge]; [assumption | ].
    assert (Hda : compareRows c asc d a <= 0) by lia.
    pose proof (compareRows_trans c asc d a b Hda ltac:(lia)) as Hdb.
    lia.
Qed.

Lemma insertRow_elem_of (cmp : Row.t -> Row.t -> Z) (x y : Row.t) (l : list Row.t) :
  y ∈ insertRow cmp x l -> y = x \/ y ∈ l.
Proof.
  induction l as [ | z l IH]; simpl.
  - intros H. apply list_elem_of_singleton in H. auto.
  - destruct (cmp x z <=? 0).
    + intros H. apply elem_of_cons in H. exact H.
    + intros H. apply elem_of_cons in H as [-> | H].
      * right. left.
      * destruct (IH H) as [-> | Hy]; [auto | right; right; exact Hy].
Qed.

Lemma insertRow_Permutation (cmp : Row.t -> Row.t -> Z) (x : Row.t) (l : list Row.t) :
  insertRow cmp x l ≡ₚ x :: l.
Proof.
  induction l as [ | z l IH]; simpl; [reflexivity | ].
  destruct (cmp x z <=? 0); [reflexivity | ].
  rewrite IH. apply Permutation_swap.
Qed.

Lemma insertRow_sorted (c : column) (asc : bool) (x : Row.t) (l : list Row.t) :
  StronglySorted (fun a b => compareRows c asc a b <= 0) l ->
  StronglySorted (fun a b => compareRows c asc a b <= 0)
    (insertRow (compareRows c asc) x l).
Proof.
  induction l as [ | z l IH]; simpl; intros Hs.
  - constructor; constructor.
  - apply StronglySorted_inv in Hs as [Hl Hz].
    destruct (compareRows c asc x z <=? 0) eqn:E.
    + apply Z.leb_le in E. constructor.
      * constructor; assumption.
      * constructor; [exact E | ].
        eapply Forall_impl; [exact Hz | ].
        intros y Hy. simpl in Hy. eapply compareRows_trans; eassumption.
    + apply Z.leb_gt in E. constructor; [apply IH, Hl | ].
      apply Forall_forall. intros y Hy.
      apply insertRow_elem_of in Hy as [-> | Hy].
      * destruct (compareRows_total c asc z x); [assumption | lia].
      * rewrite Forall_forall in Hz. apply Hz, Hy.
Qed.

Lemma insertRow_ties (c : column) (asc : bool) (z x : Row.t) (l : list Row.t) :
  filter (fun r => compareRows c asc r z = 0) (insertRow (compareRows c asc) x l)
  = filter (fun r => compareRows c asc r z = 0) (x :: l).
Proof.
  induction l as [ | y l IH]; simpl; [reflexivity | ].
  destruct (compareRows c asc x y <=? 0) eqn:E; [reflexivity | ].
  apply Z.leb_gt in E.
  rewrite (filter_cons _ y), IH, !(filter_cons _ x), (filter_cons _ y).
  destruct (decide (compareRows c asc x z = 0)) as [Hx | Hx];
    destruct (decide (compareRows c asc y z = 0)) as [Hy | Hy]; try reflexivity.
  exfalso.
  pose proof (compareRows_flip c asc y z) as F. 
  assert (Hzy : compareRows c asc z y = 0) by lia.
  pose proof (compareRows_tie_trans c asc x z y Hx Hzy). lia.
Qed.

(** X22.  What [renderTable] shows, unfiltered: the rows of the store,
    each as often as it is stored, in an order in which no row comes
    after a row that the comparator puts it before, and with the rows
    that tie on the sorted column in the order in which they were
    added. *)
Theorem sortRows_sorted_and_stable (c : column) (asc : bool) (rows : list Row.t) :
  let shown := sortRows c asc rows in
  shown ≡ₚ rows /\
  StronglySorted (fun a b => compareRows c asc a b <= 0) shown /\
  forall z,
    filter (fun r => compareRows c asc r z = 0) shown
    = filter (fun r => compareRows c asc r z = 0) rows.
Proof.
  cbv zeta. unfold sortRows.
  induction rows as [ | x rows (IHp & IHs & IHt)]; simpl.
  - split; [reflexivity | split; [constructor | reflexivity]].
  - split; [ | split].
    + rewrite insertRow_Permutation, IHp. reflexivity.
    + apply insertRow_sorted, IHs.
    + intros z. rewrite insertRow_ties, !(filter_cons _ x), IHt. reflexivity.
Qed.
